(** * Adaptive micro-learning: the recommendation engine

    A shallow embedding of [adaptive_microlearning_app.py]: the unit
    converter, the segment flattener, the streak updater and
    [recommend_segments] (eligibility filter, budget window, subset-sum
    selection and its reconstruction), followed by the properties of the
    specification that were checked against it.

    Conventions of the embedding.
    - A Python [float] is an IEEE 754 binary64 number.  It is represented by
      [spec_float] and computed with the binary64 operations of
      [SpecFloat] (round to nearest, ties to even), which is what CPython
      does on every supported platform.
    - A Python [int] is a [Z].
    - A raising computation is a value of [result]: [Raise e] or [Ok v].
    - A dictionary with a fixed set of keys is a record.  In the records
      of the lecture document, which the code reads with [dict.get], a
      key is a [field]: absent, present with [None] (a JSON [null]), or
      present with a value of its type.  Elsewhere an [option] is a value
      that may be Python's [None] (a title, a topic, [last_date]), or, in
      [store] and in the rebuilt records, a key that may be absent.
    - A [set] of [int]s is represented by the sequence of its additions,
      and iterated in the order of the slots of CPython's hash table. *)

From Stdlib Require Import String ZArith List Bool Lia QArith Qabs Qpower Lqa Permutation Sorted.
From Stdlib Require Import PrimFloat FloatOps SpecFloat.
Import ListNotations.

Set Warnings "-inexact-float".
Local Open Scope Z_scope.

(** ** Exceptions and results *)

(** The built-in exceptions the code can raise, and the three error classes
    of the specification's taxonomy (the source defines none of them). *)
Inductive exn : Set :=
| TypeError
| ValueError
| OverflowError
| IndexError
| MalformedSegmentError
| InvalidBudgetError
| ReconstructionInvariantError.

Inductive result (A : Type) : Type :=
| Ok (v : A)
| Raise (e : exn).
Arguments Ok {A} v.
Arguments Raise {A} e.

Definition bind {A B : Type} (c : result A) (k : A -> result B) : result B :=
  match c with
  | Ok v => k v
  | Raise e => Raise e
  end.

Notation "x <- c ;; k" := (bind c (fun x => k))
  (at level 61, c at next level, right associativity).
Notation "' pat <- c ;; k" := (bind c (fun x => match x with pat => k end))
  (at level 61, pat pattern, c at next level, right associativity).

(** [xs] mapped through a raising function, left to right. *)
Fixpoint mapM {A B : Type} (f : A -> result B) (xs : list A) : result (list B) :=
  match xs with
  | [] => Ok []
  | x :: rest => y <- f x ;; ys <- mapM f rest ;; Ok (y :: ys)
  end.

(** ** Binary64 floats *)

Definition float : Set := spec_float.

Definition fadd : float -> float -> float := SFadd prec emax.
Definition fsub : float -> float -> float := SFsub prec emax.
Definition fmul : float -> float -> float := SFmul prec emax.
Definition fdiv : float -> float -> float := SFdiv prec emax.
Definition fabs : float -> float := SFabs.
(** [x < y] and [x <= y]; both are false when an operand is a NaN. *)
Definition flt : float -> float -> bool := SFltb.
Definition fle : float -> float -> bool := SFleb.

(** The float literals of the source. *)
Definition f0_0 : float := S754_zero false.
Definition f0_6 : float := Eval vm_compute in Prim2SF 0.6%float.
Definition f0_7 : float := Eval vm_compute in Prim2SF 0.7%float.
Definition f0_8 : float := Eval vm_compute in Prim2SF 0.8%float.
Definition f0_85 : float := Eval vm_compute in Prim2SF 0.85%float.
Definition f0_9 : float := Eval vm_compute in Prim2SF 0.9%float.
Definition f1_3 : float := Eval vm_compute in Prim2SF 1.3%float.
Definition f15_0 : float := Eval vm_compute in Prim2SF 15%float.

(** The exact value of a float, as a rational (0 for infinities and NaN,
    which the statements below exclude). *)
Definition float_value (x : float) : Q :=
  match x with
  | S754_finite s m e =>
      let mag := if 0 <=? e then inject_Z (Zpos m * 2 ^ e)
                 else Qmake (Zpos m) (Z.to_pos (2 ^ (- e))) in
      if s then Qopp mag else mag
  | _ => 0%Q
  end.

Definition is_finite (x : float) : bool :=
  match x with
  | S754_finite _ _ _ | S754_zero _ => true
  | _ => false
  end.

(** The integer nearest to [m / 2^k], ties going to the even one. *)
Definition round_half_even (m k : Z) : Z :=
  let q := m / 2 ^ k in
  let r := m mod 2 ^ k in
  match 2 * r ?= 2 ^ k with
  | Lt => q
  | Gt => q + 1
  | Eq => if Z.even q then q else q + 1
  end.

Definition apply_sign (s : bool) (v : Z) : Z := if s then - v else v.

(** [round(x)] for a float [x] (one argument): the nearest integer, ties
    to even; it raises on NaN and on the infinities. *)
Definition py_round (x : float) : result Z :=
  match x with
  | S754_nan => Raise ValueError
  | S754_infinity _ => Raise OverflowError
  | S754_zero _ => Ok 0
  | S754_finite s m e =>
      Ok (apply_sign s (if 0 <=? e then Zpos m * 2 ^ e
                        else round_half_even (Zpos m) (- e)))
  end.

(** [int(x)] for a float [x]: truncation toward zero. *)
Definition py_int (x : float) : result Z :=
  match x with
  | S754_nan => Raise ValueError
  | S754_infinity _ => Raise OverflowError
  | S754_zero _ => Ok 0
  | S754_finite s m e =>
      Ok (apply_sign s (if 0 <=? e then Zpos m * 2 ^ e
                        else Zpos m / 2 ^ (- e)))
  end.

(** The conversion of an [int] operand to [float] (correctly rounded; an
    [int] beyond the binary64 range raises). *)
Definition int_to_float (n : Z) : result float :=
  match binary_normalize prec emax n 0 false with
  | S754_infinity _ => Raise OverflowError
  | x => Ok x
  end.

(** [a / b] on two [int]s with [b > 0]: the correctly rounded quotient. *)
Definition int_true_div (a : Z) (b : positive) : result float :=
  match a with
  | Z0 => Ok f0_0
  | Zpos p =>
      match fdiv (S754_finite false p 0) (S754_finite false b 0) with
      | S754_infinity _ => Raise OverflowError
      | x => Ok x
      end
  | Zneg p =>
      match fdiv (S754_finite true p 0) (S754_finite false b 0) with
      | S754_infinity _ => Raise OverflowError
      | x => Ok x
      end
  end.

(** [sum(xs)] over floats: accumulation from [0], left to right, as
    CPython does up to version 3.11 (later versions compensate the
    rounding errors). *)
Definition py_sum (xs : list float) : float := fold_left fadd xs f0_0.

(** ** Unit converter *)

Definition SCALE : positive := 10%positive.

Definition to_units (mins : float) : result Z :=
  scale <- int_to_float (Zpos SCALE) ;;
  r <- py_round (fmul mins scale) ;;
  Ok (Z.max 0 r).

Definition from_units (u : Z) : result float := int_true_div u SCALE.

(** ** Python sequences *)

(** The position that index [i] denotes in a sequence of length [len]:
    a negative index counts from the end, anything else out of range
    raises. *)
Definition py_index (len i : Z) : result nat :=
  if (0 <=? i) && (i <? len) then Ok (Z.to_nat i)
  else if (i <? 0) && (- len <=? i) then Ok (Z.to_nat (len + i))
  else Raise IndexError.

Definition py_getitem {A : Type} (l : list A) (i : Z) : result A :=
  n <- py_index (Z.of_nat (length l)) i ;;
  match nth_error l n with
  | Some x => Ok x
  | None => Raise IndexError
  end.

Fixpoint list_set {A : Type} (n : nat) (v : A) (l : list A) : list A :=
  match l, n with
  | [], _ => []
  | _ :: rest, O => v :: rest
  | x :: rest, S n' => x :: list_set n' v rest
  end.

Definition py_setitem {A : Type} (l : list A) (i : Z) (v : A) : result (list A) :=
  n <- py_index (Z.of_nat (length l)) i ;;
  Ok (list_set n v l).

(** [range(start, stop)] and [range(start, stop, -1)]. *)
Definition range_up (start stop : Z) : list Z :=
  map (fun k => start + Z.of_nat k) (seq 0 (Z.to_nat (stop - start))).

Definition range_down (start stop : Z) : list Z :=
  map (fun k => start - Z.of_nat k) (seq 0 (Z.to_nat (start - stop))).

Fixpoint enumerate_from {A : Type} (n : nat) (l : list A) : list (nat * A) :=
  match l with
  | [] => []
  | x :: rest => (n, x) :: enumerate_from (S n) rest
  end.

Definition enumerate {A : Type} (l : list A) : list (nat * A) := enumerate_from 0 l.

(** A [for] loop over [xs] that threads a state and may raise. *)
Fixpoint foldM {A S : Type} (f : S -> A -> result S) (s : S) (xs : list A) : result S :=
  match xs with
  | [] => Ok s
  | x :: rest => s' <- f s x ;; foldM f s' rest
  end.

(** ** Sets of integers *)

(** The hash table of a [set], as [setobject.c] of CPython 3 lays it out:
    a slot holds a key or is unused, and the number of slots is a power
    of two.  There are no deleted entries: the code only adds keys. *)
Definition table : Set := list (option Z).

Definition table_keys (t : table) : list Z :=
  flat_map (fun slot => match slot with Some k => [k] | None => [] end) t.

Definition PySet_MINSIZE : nat := 8.
Definition LINEAR_PROBES : Z := 9.
Definition PERTURB_SHIFT : Z := 5.

(** [hash(n)] of an [int], as the unsigned 64-bit word the table works
    with: [n] modulo [2^61 - 1] with the sign of [n], and -2 for -1. *)
Definition py_hash (n : Z) : Z :=
  let h := Z.sgn n * (Z.abs n mod (2 ^ 61 - 1)) in
  (if h =? -1 then -2 else h) mod 2 ^ 64.

(** The first unused slot among [t[i]], ..., [t[i + probes]]. *)
Fixpoint linear_probe (t : table) (i : Z) (probes : nat) : option Z :=
  match nth_error t (Z.to_nat i) with
  | Some None => Some i
  | _ => match probes with
         | O => None
         | S probes' => linear_probe t (i + 1) probes'
         end
  end.

(** The probe loop of [set_insert_clean]: the slot where a key that is
    not in the table goes.  The loop of the source has no bound; [fuel]
    bounds the number of jumps. *)
Fixpoint find_slot (fuel : nat) (t : table) (mask perturb i : Z) : option Z :=
  match fuel with
  | O => None
  | S fuel' =>
      let probes := if i + LINEAR_PROBES <=? mask then 9%nat else 0%nat in
      match linear_probe t i probes with
      | Some slot => Some slot
      | None =>
          let perturb := Z.shiftr perturb PERTURB_SHIFT in
          find_slot fuel' t mask perturb (Z.land (i * 5 + 1 + perturb) mask)
      end
  end.

(** The jumps follow the hash for 13 rounds, until [perturb] is 0, and
    then go through every slot; [insert_fuel] covers both.  A key that
    found no slot within the fuel would be kept in a slot added at the
    end; [set_insert_clean_slot] and [set_iter_table_inv] show that this
    never happens. *)
Definition insert_fuel (t : table) : nat := 14 + length t.

Definition set_insert_clean (t : table) (key : Z) : table :=
  let mask := Z.of_nat (length t) - 1 in
  let h := py_hash key in
  match find_slot (insert_fuel t) t mask h (Z.land h mask) with
  | Some slot => list_set (Z.to_nat slot) (Some key) t
  | None => t ++ [Some key]
  end.

(** [set_table_resize]: the smallest power of two above [minused], at
    least 8, and the keys inserted again in the order of their slots. *)
Definition set_table_resize (t : table) (minused : Z) : table :=
  let newsize := Nat.max PySet_MINSIZE (2 ^ Z.to_nat (Z.log2 minused + 1)) in
  fold_left set_insert_clean (table_keys t) (repeat None newsize).

(** [set_add_entry], for a table without deleted entries. *)
Definition set_add_entry (t : table) (key : Z) : table :=
  if existsb (Z.eqb key) (table_keys t) then t
  else
    let t' := set_insert_clean t key in
    let fill := Z.of_nat (length (table_keys t')) in
    let mask := Z.of_nat (length t') - 1 in
    if fill * 5 <? mask * 3 then t'
    else set_table_resize t' (if 50000 <? fill then fill * 2 else fill * 4).

(** A [set] of [int]s is the sequence of the keys added to [set()]. *)
Definition int_set : Set := list Z.

Definition set_new : int_set := [].

(** [i in s] *)
Definition set_contains (i : Z) (s : int_set) : bool := existsb (Z.eqb i) s.

(** [s.add(i)] *)
Definition set_add (s : int_set) (i : Z) : int_set := s ++ [i].

(** [for i in s]: the keys in the order of their slots in the table that
    the additions have built. *)
Definition set_iter (s : int_set) : list Z :=
  table_keys (fold_left set_add_entry s (repeat None PySet_MINSIZE)).

(** ** Data model *)

(** A key of a loaded JSON object. *)
Inductive field (A : Type) : Type :=
| Absent
| Null
| Present (v : A).
Arguments Absent {A}.
Arguments Null {A}.
Arguments Present {A} v.

(** [d.get(key)]: [None] for an absent key. *)
Definition dict_get {A : Type} (f : field A) : option A :=
  match f with
  | Present v => Some v
  | Absent | Null => None
  end.

(** [d.get(key, default)]: the default stands for an absent key only. *)
Definition dict_get_default {A : Type} (f : field A) (d : A) : option A :=
  match f with
  | Absent => Some d
  | Null => None
  | Present v => Some v
  end.

(** A segment and a lecture of the stored document. *)
Record segment_doc : Set := {
  seg_topic : field string;
  seg_mins : field float;
  seg_difficulty : field Z;
  seg_order : field Z
}.

Record lecture_doc : Set := {
  lec_title : field string;
  lec_segments : field (list segment_doc)
}.

(** A flattened segment.  The records that [recommend_segments] rebuilds
    for its selection carry neither [id] nor [lecture_index]: there the
    two keys are absent ([None]). *)
Record item : Set := {
  id : option (nat * nat);
  lecture_index : option nat;
  lecture_title : option string;
  topic : option string;
  mins : float;
  difficulty : Z;
  order : Z
}.

(** An entry of the completed-courses ledger, as far as the engine reads
    it: both keys are present, as the application writes them. *)
Record completed_doc : Set := {
  c_lecture_title : option string;
  c_topic : option string
}.

Record streak_state : Set := {
  current : Z;
  last_date : option string;
  minutes_today : float;
  last_fatigue : float
}.

(** The store, as far as [update_streak] reads it; [None] is an absent
    key. *)
Record store : Set := {
  settings_daily_mins : option float;
  store_streak : option streak_state
}.

Definition opt_string_eqb (a b : option string) : bool :=
  match a, b with
  | Some x, Some y => String.eqb x y
  | None, None => true
  | _, _ => false
  end.

(** ** Segment flattener *)

(** [float(v)], [int(v)] and [enumerate(v)] on what [dict.get] returns:
    each raises [TypeError] on [None]. *)
Definition py_float (v : option float) : result float :=
  match v with
  | Some x => Ok x
  | None => Raise TypeError
  end.

Definition py_int_value (v : option Z) : result Z :=
  match v with
  | Some n => Ok n
  | None => Raise TypeError
  end.

Definition py_enumerate {A : Type} (v : option (list A)) : result (list (nat * A)) :=
  match v with
  | Some l => Ok (enumerate l)
  | None => Raise TypeError
  end.

Definition flatten_segment (li : nat) (lec : lecture_doc) (entry : nat * segment_doc) : result item :=
  let '(si, seg) := entry in
  m <- py_float (dict_get (seg_mins seg)) ;;
  d <- py_int_value (dict_get_default (seg_difficulty seg) 3) ;;
  o <- py_int_value (dict_get_default (seg_order seg) 1) ;;
  Ok {| id := Some (li, si);
        lecture_index := Some li;
        lecture_title := dict_get (lec_title lec);
        topic := dict_get (seg_topic seg);
        mins := m;
        difficulty := d;
        order := o |}.

Definition flatten_lecture (entry : nat * lecture_doc) : result (list item) :=
  let '(li, lec) := entry in
  segs <- py_enumerate (dict_get_default (lec_segments lec) []) ;;
  mapM (flatten_segment li lec) segs.

Definition flatten_segments (lectures : list lecture_doc) : result (list item) :=
  groups <- mapM flatten_lecture (enumerate lectures) ;;
  Ok (concat groups).

(** ** Streak updater *)

(** [d.get(key, default)] on the store. *)
Definition get_default {A : Type} (v : option A) (d : A) : A :=
  match v with
  | Some x => x
  | None => d
  end.

Definition default_streak : streak_state :=
  {| current := 0; last_date := None; minutes_today := f0_0; last_fatigue := f0_0 |}.

(** [update_streak store minutes_done]; [today] is [date.today().isoformat()].
    The store is updated in place by the source, so the new store is
    returned next to the streak. *)
Definition update_streak (today : string) (st : store) (minutes_done : float)
  : store * streak_state :=
  let daily_target := get_default (settings_daily_mins st) f15_0 in
  let streak := get_default (store_streak st) default_streak in
  let streak' :=
    if negb (opt_string_eqb (last_date streak) (Some today)) then
      {| current := if fle daily_target minutes_done then current streak + 1 else 0;
         last_date := Some today;
         minutes_today := minutes_done;
         last_fatigue := last_fatigue streak |}
    else
      let total := fadd (minutes_today streak) minutes_done in
      {| current := if fle daily_target total && flt (fsub total minutes_done) daily_target
                    then current streak + 1 else current streak;
         last_date := last_date streak;
         minutes_today := total;
         last_fatigue := last_fatigue streak |} in
  ({| settings_daily_mins := settings_daily_mins st; store_streak := Some streak' |}, streak').

(** ** Eligibility filter *)

(** Completion exclusion: the pair (lecture title, topic) is in the
    completed set. *)
Definition is_completed (completed_courses : list completed_doc) (it : item) : bool :=
  existsb (fun c => opt_string_eqb (c_lecture_title c) (lecture_title it)
                    && opt_string_eqb (c_topic c) (topic it))
          completed_courses.

(** Scope restriction: [it['lecture_title'] in selected_lectures]. *)
Definition in_scope (selected_lectures : list string) (it : item) : bool :=
  existsb (fun t => opt_string_eqb (Some t) (lecture_title it)) selected_lectures.

(** [order_map]: the items grouped by lecture title, the titles in the
    order of their first occurrence and each group in the order of the
    items (a [defaultdict(list)] keeps insertion order). *)
Fixpoint order_map_add (it : item) (m : list (option string * list item))
  : list (option string * list item) :=
  match m with
  | [] => [(lecture_title it, [it])]
  | (k, segs) :: rest =>
      if opt_string_eqb k (lecture_title it) then (k, segs ++ [it]) :: rest
      else (k, segs) :: order_map_add it rest
  end.

Definition order_map (items : list item) : list (option string * list item) :=
  fold_left (fun m it => order_map_add it m) items [].

(** [segs.sort(key=lambda x: x['order'])]: a stable sort. *)
Fixpoint insert_by_order (x : item) (l : list item) : list item :=
  match l with
  | [] => [x]
  | y :: rest => if order x <=? order y then x :: y :: rest
                 else y :: insert_by_order x rest
  end.

Definition sort_by_order (segs : list item) : list item :=
  fold_right insert_by_order [] segs.

Definition mem_order (o : Z) (available_orders : list Z) : bool :=
  existsb (Z.eqb o) available_orders.

(** The loop over the sorted segments of one lecture; the set
    [available_orders] is a list used through membership only. *)
Fixpoint gate_loop (available_orders : list Z) (segs : list item) : list item :=
  match segs with
  | [] => []
  | s :: rest =>
      if (order s =? 1) || mem_order (order s) available_orders
      then s :: gate_loop (order s + 1 :: available_orders) rest
      else gate_loop available_orders rest
  end.


Definition gate_lecture (segs : list item) : list item :=
  gate_loop [1] (sort_by_order segs).

Definition soft_order_gate (items : list item) : list item :=
  flat_map (fun entry => gate_lecture (snd entry)) (order_map items).

Definition is_empty {A : Type} (l : list A) : bool :=
  match l with
  | [] => true
  | _ :: _ => false
  end.

(** The three narrowing passes, on the flattened list. *)
Definition exclude_completed (completed_courses : list completed_doc) (items : list item)
  : list item :=
  filter (fun it => negb (is_completed completed_courses it)) items.

Definition restrict_scope (selected_lectures : option (list string)) (items : list item)
  : list item :=
  match selected_lectures with
  | Some (t :: ts) => filter (in_scope (t :: ts)) items
  | _ => items
  end.

(** ** Budget calculator *)

(** [int(u * factor)]. *)
Definition derate (u : Z) (factor : float) : result Z :=
  x <- int_to_float u ;;
  py_int (fmul x factor).

Definition budget_window (daily_mins fatigue_score : float) : result (Z * Z) :=
  low_u <- to_units (fmul daily_mins f0_7) ;;
  high_u <- to_units (fmul daily_mins f1_3) ;;
  ' (low_u, high_u) <-
    (if flt f0_6 fatigue_score
     then l <- derate low_u f0_9 ;; h <- derate high_u f0_85 ;; Ok (l, h)
     else Ok (low_u, high_u)) ;;
  if flt f0_8 fatigue_score
  then l <- derate low_u f0_9 ;; h <- derate high_u f0_7 ;; Ok (l, h)
  else Ok (low_u, high_u).

(** ** Subset-sum selector *)

(** [dp = [-1]*(cap+1); dp[0] = -2]. *)
Definition init_dp (cap : Z) : result (list Z) :=
  py_setitem (repeat (-1) (Z.to_nat (cap + 1))) 0 (-2).

(** The body of the loop over [s], for item [i] of weight [w]. *)
Definition relax (i w : Z) (dp : list Z) (s : Z) : result (list Z) :=
  a <- py_getitem dp s ;;
  if a =? -1 then
    b <- py_getitem dp (s - w) ;;
    if negb (b =? -1) then py_setitem dp s i else Ok dp
  else Ok dp.

Definition fill_item (cap : Z) (dp : list Z) (entry : nat * Z) : result (list Z) :=
  let '(i, w) := entry in
  if w <=? 0 then Ok dp
  else foldM (relax (Z.of_nat i) w) dp (range_down cap (w - 1)).

Definition fill_dp (cap : Z) (us : list Z) (dp : list Z) : result (list Z) :=
  foldM (fill_item cap) dp (enumerate us).

(** [for s in ...: if dp[s] != -1: best = s] *)
Definition scan_last (dp : list Z) (best s : Z) : result Z :=
  a <- py_getitem dp s ;;
  Ok (if negb (a =? -1) then s else best).

(** [for s in ...: if dp[s] != -1: best = s; break] *)
Fixpoint scan_first (dp : list Z) (best : Z) (ss : list Z) : result Z :=
  match ss with
  | [] => Ok best
  | s :: rest =>
      a <- py_getitem dp s ;;
      if negb (a =? -1) then Ok s else scan_first dp best rest
  end.

Definition choose_best (dp : list Z) (low_u cap : Z) : result Z :=
  best <- foldM (scan_last dp) (-1) (range_up low_u (cap + 1)) ;;
  if best =? -1 then
    best <- scan_first dp best (range_down (low_u - 1) (-1)) ;;
    if best =? -1 then scan_first dp best (range_up (low_u + 1) (cap + 1))
    else Ok best
  else Ok best.


(** How the reconstruction loop was left. *)
Inductive loop_exit : Set :=
| ExitCondition   (* [cur > 0] became false *)
| ExitGuard       (* [break]: the item index was already chosen *)
| ExitFuel.       (* the bound on the iterations was reached *)

Record backtrack_state : Set := {
  bt_chosen : int_set;
  bt_cur : Z;
  bt_exit : loop_exit
}.

(** The [while cur > 0] loop; [fuel] bounds the number of tests of the
    loop condition. *)
Fixpoint backtrack (fuel : nat) (dp : list Z) (scaled : list (Z * item))
                   (chosen_indices : int_set) (cur : Z) : result backtrack_state :=
  match fuel with
  | O => Ok {| bt_chosen := chosen_indices; bt_cur := cur; bt_exit := ExitFuel |}
  | S fuel' =>
      if cur <=? 0 then
        Ok {| bt_chosen := chosen_indices; bt_cur := cur; bt_exit := ExitCondition |}
      else
        i <- py_getitem dp cur ;;
        if set_contains i chosen_indices then
          Ok {| bt_chosen := chosen_indices; bt_cur := cur; bt_exit := ExitGuard |}
        else
          entry <- py_getitem scaled i ;;
          backtrack fuel' dp scaled (set_add chosen_indices i) (cur - fst entry)
  end.

Definition chosen_record (it : item) : item :=
  {| id := None;
     lecture_index := None;
     lecture_title := lecture_title it;
     topic := topic it;
     mins := mins it;
     difficulty := difficulty it;
     order := order it |}.

Definition scale_item (it : item) : result (Z * item) :=
  w <- to_units (mins it) ;;
  Ok (w, it).

Definition sum_units (scaled : list (Z * item)) : Z :=
  fold_left Z.add (map fst scaled) 0.

(** Lines 116-150 of the source, parameterised by the choice of [best]. *)
Definition select_with (choose : list Z -> Z -> Z -> result Z)
                       (items : list item) (low_u high_u : Z)
  : result (list item * float) :=
  scaled <- mapM scale_item items ;;
  let cap := Z.min (sum_units scaled) high_u in
  dp <- init_dp cap ;;
  dp <- fill_dp cap (map fst scaled) dp ;;
  best <- choose dp low_u cap ;;
  if best <=? 0 then Ok ([], f0_0)
  else
    bt <- backtrack (S (List.length scaled)) dp scaled set_new best ;;
    chosen <- mapM (fun i => entry <- py_getitem scaled i ;; Ok (chosen_record (snd entry)))
                   (set_iter (bt_chosen bt)) ;;
    Ok (chosen, py_sum (map mins chosen)).

Definition select_segments : list item -> Z -> Z -> result (list item * float) :=
  select_with choose_best.

(** ** The recommendation *)

Definition eligible_items (lectures : list lecture_doc)
                          (completed_courses : list completed_doc)
                          (selected_lectures : option (list string))
  : result (list item) :=
  items <- flatten_segments lectures ;;
  if is_empty items then Ok []
  else
    let items := exclude_completed completed_courses items in
    let items := restrict_scope selected_lectures items in
    if is_empty items then Ok []
    else Ok (soft_order_gate items).

Definition recommend_with (choose : list Z -> Z -> Z -> result Z)
                          (lectures : list lecture_doc)
                          (daily_mins fatigue_score : float)
                          (completed_courses : list completed_doc)
                          (selected_lectures : option (list string))
  : result (list item * float) :=
  items <- eligible_items lectures completed_courses selected_lectures ;;
  if is_empty items then Ok ([], f0_0)
  else
    let total_available_time := py_sum (map mins items) in
    ' (low_u, high_u) <- budget_window daily_mins fatigue_score ;;
    low_mins <- from_units low_u ;;
    if flt total_available_time low_mins then Ok (items, total_available_time)
    else select_with choose items low_u high_u.

Definition recommend_segments :
  list lecture_doc -> float -> float -> list completed_doc -> option (list string)
  -> result (list item * float) :=
  recommend_with choose_best.

(** ** Definitions used by the statements *)

Definition f10_0 : float := Eval vm_compute in Prim2SF 10%float.
Definition f0_05 : float := Eval vm_compute in Prim2SF 0.05%float.
Definition f1_2 : float := Eval vm_compute in Prim2SF 1.2%float.
Definition f1_25 : float := Eval vm_compute in Prim2SF 1.25%float.

(** The window as the specification words it: each threshold applied to
    the original bounds, the higher threshold taking the place of the
    lower one. *)
Definition budget_window_independent (daily_mins fatigue_score : float) : result (Z * Z) :=
  low_u <- to_units (fmul daily_mins f0_7) ;;
  high_u <- to_units (fmul daily_mins f1_3) ;;
  if flt f0_8 fatigue_score
  then l <- derate low_u f0_9 ;; h <- derate high_u f0_7 ;; Ok (l, h)
  else if flt f0_6 fatigue_score
  then l <- derate low_u f0_9 ;; h <- derate high_u f0_85 ;; Ok (l, h)
  else Ok (low_u, high_u).

(** The window with both deratings applied one after the other. *)
Definition budget_window_compounded (daily_mins : float) : result (Z * Z) :=
  low_u <- to_units (fmul daily_mins f0_7) ;;
  high_u <- to_units (fmul daily_mins f1_3) ;;
  l1 <- derate low_u f0_9 ;;
  h1 <- derate high_u f0_85 ;;
  l2 <- derate l1 f0_9 ;;
  h2 <- derate h1 f0_7 ;;
  Ok (l2, h2).

(** [mrs] locates the ratio [N / D]: its mantissa is the integer part,
    its two bits tell where the fractional part lies with respect to one
    half. *)
Definition located (N D : Z) (mrs : shr_record) : Prop :=
  0 <= shr_m mrs
  /\ shr_m mrs * D <= N < (shr_m mrs + 1) * D
  /\ match shr_r mrs, shr_s mrs with
     | false, false => N = shr_m mrs * D
     | false, true => shr_m mrs * D < N /\ 2 * N < (2 * shr_m mrs + 1) * D
     | true, false => 2 * N = (2 * shr_m mrs + 1) * D
     | true, true => (2 * shr_m mrs + 1) * D < 2 * N
     end.

Definition f1_9 : float := Eval vm_compute in Prim2SF 1.9%float.
Definition f5_0 : float := Eval vm_compute in Prim2SF 5%float.

(** The segments that the flattener goes through in one lecture. *)
Definition segments_of (lec : lecture_doc) : list segment_doc :=
  match lec_segments lec with
  | Present segs => segs
  | Absent | Null => []
  end.

(** Every segment of the document, in flattening order. *)
Definition all_segments (lectures : list lecture_doc) : list segment_doc :=
  flat_map segments_of lectures.

(** The segment has no key [mins]. *)
Definition lacks_mins (seg : segment_doc) : Prop := seg_mins seg = Absent.

(** The segment has no key [topic]. *)
Definition lacks_topic (seg : segment_doc) : Prop := seg_topic seg = Absent.

Definition is_null {A : Type} (f : field A) : bool :=
  match f with
  | Null => true
  | Absent | Present _ => false
  end.

Definition has_value {A : Type} (f : field A) : bool :=
  match f with
  | Present _ => true
  | Absent | Null => false
  end.

(** What makes the flattener raise: a segment whose [mins] is absent or
    [None], or whose [difficulty] or [order] is [None], and a lecture
    whose [segments] is [None]. *)
Definition segment_type_error (seg : segment_doc) : bool :=
  negb (has_value (seg_mins seg)) || is_null (seg_difficulty seg) || is_null (seg_order seg).

Definition lecture_type_error (lec : lecture_doc) : bool :=
  is_null (lec_segments lec) || existsb segment_type_error (segments_of lec).

Definition document_type_error (lectures : list lecture_doc) : bool :=
  existsb lecture_type_error lectures.

Definition segment_without_topic : segment_doc :=
  {| seg_topic := Absent; seg_mins := Present f5_0;
     seg_difficulty := Present 2; seg_order := Present 1 |}.

Definition segment_without_mins : segment_doc :=
  {| seg_topic := Present "intro"%string; seg_mins := Absent;
     seg_difficulty := Present 2; seg_order := Present 1 |}.

Definition lecture_of (title : string) (segs : list segment_doc) : lecture_doc :=
  {| lec_title := Present title; lec_segments := Present segs |}.

(** What the flattener makes of one segment that has its minutes,
    difficulty [d] and order [o]. *)
Definition item_of (li : nat) (lec : lecture_doc) (si : nat) (seg : segment_doc)
                   (m : float) (d o : Z) : item :=
  {| id := Some (li, si);
     lecture_index := Some li;
     lecture_title := dict_get (lec_title lec);
     topic := dict_get (seg_topic seg);
     mins := m;
     difficulty := d;
     order := o |}.

(** The item [it] is the flattening of the segment [seg] of [lec]. *)
Definition flattened_from (lec : lecture_doc) (seg : segment_doc) (it : item) : Prop :=
  lecture_title it = dict_get (lec_title lec)
  /\ topic it = dict_get (seg_topic seg)
  /\ seg_mins seg = Present (mins it)
  /\ dict_get_default (seg_difficulty seg) 3 = Some (difficulty it)
  /\ dict_get_default (seg_order seg) 1 = Some (order it).

Definition segment_of (t : string) (m : float) (o : Z) : segment_doc :=
  {| seg_topic := Present t; seg_mins := Present m;
     seg_difficulty := Absent; seg_order := Present o |}.

Definition eligible_of (li si : nat) (title t : string) (m : float) (o : Z) : item :=
  {| id := Some (li, si); lecture_index := Some li; lecture_title := Some title;
     topic := Some t; mins := m; difficulty := 3; order := o |}.

Definition order_le (a b : item) : Prop := order a <= order b.



Definition lecture_1_3 : lecture_doc :=
  lecture_of "L" [segment_of "a" f5_0 1; segment_of "c" f5_0 3].

Definition groups_within (seen : list item) (m : list (option string * list item)) : Prop :=
  forall k segs, In (k, segs) m ->
  forall s, In s segs -> lecture_title s = k /\ In s seen.

Definition dp_at (dp : list Z) (s : Z) : Z := nth (Z.to_nat s) dp (-1).

Definition dp_head (dp : list Z) : Prop := nth_error dp 0 = Some (-2).

Definition weight (us : list Z) (i : Z) : Z := nth (Z.to_nat i) us 0.

(** Every reached capacity [s > 0] records an item of positive weight at
    most [s], below [n], and the capacity left after removing that item
    was reached through an item of smaller index (or is the base). *)
Definition dp_chain (us : list Z) (n : Z) (dp : list Z) : Prop :=
  dp_head dp /\
  forall s, 0 < s < Z.of_nat (List.length dp) ->
    dp_at dp s = -1 \/
    (0 <= dp_at dp s < n /\
     0 < weight us (dp_at dp s) <= s /\
     dp_at dp (s - weight us (dp_at dp s)) <> -1 /\
     dp_at dp (s - weight us (dp_at dp s)) < dp_at dp s).

Definition chain_weight (us : list Z) (chain : list Z) : Z :=
  fold_right Z.add 0 (map (weight us) chain).

(** One jump of the probe once [perturb] is 0. *)
Definition jump (k : nat) (i : Z) : Z := (i * 5 + 1) mod 2 ^ Z.of_nat k.

(** The slot where the probe loop is after [n] jumps. *)
Fixpoint slot_at (n : nat) (mask perturb i : Z) : Z :=
  match n with
  | O => i
  | S n' =>
      let perturb := Z.shiftr perturb PERTURB_SHIFT in
      slot_at n' mask perturb (Z.land (i * 5 + 1 + perturb) mask)
  end.

(** A table has [2^k] slots, [k >= 3], and is less than three fifths
    full: what [set_add_entry] maintains. *)
Definition table_shape (t : table) : Prop :=
  exists k : nat, (3 <= k)%nat /\ List.length t = (2 ^ k)%nat.

Definition table_inv (t : table) : Prop :=
  table_shape t
  /\ Z.of_nat (List.length (table_keys t)) * 5 < (Z.of_nat (List.length t) - 1) * 3.

(** A float that is [<= 0]: a zero, minus infinity or a negative number. *)
Definition nonpositive (x : float) : Prop :=
  match x with
  | S754_zero _ | S754_infinity true | S754_finite true _ _ => True
  | _ => False
  end.

Definition f7_1 : float := Eval vm_compute in Prim2SF 7.1%float.
Definition f0_1 : float := Eval vm_compute in Prim2SF 0.1%float.
Definition f0_2 : float := Eval vm_compute in Prim2SF 0.2%float.

(** Four segments of 1.25 minutes: 12 units each, 5 minutes in all. *)
Definition lecture_four_quarters : lecture_doc :=
  lecture_of "L" [segment_of "a" f1_25 1; segment_of "b" f1_25 1;
                  segment_of "c" f1_25 1; segment_of "d" f1_25 1].

(** Two lectures with the same title; the first one's only segment of
    order 1 is completed. *)
Definition lecture_T_first : lecture_doc :=
  lecture_of "T" [segment_of "a" f5_0 1; segment_of "b" f5_0 2].

Definition lecture_T_second : lecture_doc :=
  lecture_of "T" [segment_of "c" f5_0 1].

Definition four_quarter_items : list item :=
  [eligible_of 0 0 "L" "a" f1_25 1; eligible_of 0 1 "L" "b" f1_25 1;
   eligible_of 0 2 "L" "c" f1_25 1; eligible_of 0 3 "L" "d" f1_25 1].

Definition completed_T_a : completed_doc :=
  {| c_lecture_title := Some "T"%string; c_topic := Some "a"%string |}.

Definition store_same_day (today : string) : store :=
  {| settings_daily_mins := Some f15_0;
     store_streak := Some {| current := 0; last_date := Some today;
                             minutes_today := f10_0; last_fatigue := f0_0 |} |}.

Definition scaled_1_2 : list (Z * item) :=
  [(1, eligible_of 0 0 "L" "a" f0_1 1); (2, eligible_of 0 1 "L" "b" f0_2 1)].

(** [subset_sum us s]: [s] is the sum of the weights of some of the
    entries of [us], each taken at most once. *)
Inductive subset_sum : list Z -> Z -> Prop :=
| subset_sum_nil : subset_sum [] 0
| subset_sum_skip (w : Z) (us : list Z) (s : Z) :
    subset_sum us s -> subset_sum (w :: us) s
| subset_sum_take (w : Z) (us : list Z) (s : Z) :
    subset_sum us s -> subset_sum (w :: us) (w + s).

(** The table marks exactly the subset sums of the weights seen so far. *)
Definition dp_marks (us : list Z) (dp : list Z) : Prop :=
  forall s, 0 <= s < Z.of_nat (List.length dp) ->
            (dp_at dp s <> -1 <-> subset_sum us s).

(** How the returned records relate to the chain of item indices. *)
Definition chosen_from (items : list item) (us : list Z) (c : item) (i : Z) : Prop :=
  exists it, nth_error items (Z.to_nat i) = Some it
             /\ c = chosen_record it
             /\ to_units (mins it) = Ok (weight us i).

Definition sum_list (ws : list Z) : Z := fold_right Z.add 0 ws.




(** [c] raises nothing but errors of the class [P]. *)
Definition raises_only {A : Type} (P : exn -> Prop) (c : result A) : Prop :=
  forall e, c = Raise e -> P e.

(** The errors of the float conversions. *)
Definition conversion_error (e : exn) : Prop := e = ValueError \/ e = OverflowError.

(** The errors of the selector. *)
Definition selector_error (e : exn) : Prop :=
  e = ValueError \/ e = OverflowError \/ e = IndexError.

(** Order [o] is unlocked among [segs]: it is at least 1 and every order
    from 1 up to [o - 1] is the order of some segment of [segs]. *)
Definition unlocked (segs : list item) (o : Z) : Prop :=
  1 <= o /\ forall j, 1 <= j < o -> exists y, In y segs /\ order y = j.

Definition title_is (k : option string) (x : item) : bool :=
  opt_string_eqb k (lecture_title x).

(** Each group holds, in order, the items seen so far that carry its
    key. *)
Definition groups_filter (seen : list item) (m : list (option string * list item)) : Prop :=
  Forall (fun entry => snd entry = filter (title_is (fst entry)) seen) m.




Definition f0_007 : float := Eval vm_compute in Prim2SF 0.007%float.
Definition f0_02 : float := Eval vm_compute in Prim2SF 0.02%float.
Definition f1_0 : float := Eval vm_compute in Prim2SF 1%float.

(** [min(a, b)] on two arguments: [b] when [b < a], otherwise [a]. *)
Definition py_min (a b : float) : float := if flt b a then b else a.

(** [compute_fatigue]: the fatigue increment of a session. *)
Definition compute_fatigue (minutes_done avg_difficulty : float) : float :=
  let score := fadd (fmul f0_007 minutes_done) (fmul f0_02 avg_difficulty) in
  py_min score f1_0.

(** The start-up loop that stores the defaults in the segments that lack
    [difficulty] or [order]; a key that is present is left as it is. *)
Definition patch_segment (seg : segment_doc) : segment_doc :=
  {| seg_topic := seg_topic seg;
     seg_mins := seg_mins seg;
     seg_difficulty := match seg_difficulty seg with
                       | Absent => Present 3
                       | present => present
                       end;
     seg_order := match seg_order seg with
                  | Absent => Present 1
                  | present => present
                  end |}.

(** [for seg in lec.get('segments', [])]: the loop over [None] raises. *)
Definition patch_lecture (lec : lecture_doc) : result lecture_doc :=
  match lec_segments lec with
  | Absent => Ok lec
  | Null => Raise TypeError
  | Present segs =>
      Ok {| lec_title := lec_title lec; lec_segments := Present (map patch_segment segs) |}
  end.

Definition patch_lectures (lectures : list lecture_doc) : result (list lecture_doc) :=
  mapM patch_lecture lectures.

(** A float that is [>= 0]: a zero, plus infinity or a positive number. *)
Definition nonnegative (x : float) : Prop :=
  match x with
  | S754_zero _ | S754_infinity false | S754_finite false _ _ => True
  | _ => False
  end.

(** [from_units] followed by [to_units] gives [u] back. *)
Definition units_round_trip (u : Z) : bool :=
  match from_units u with
  | Ok x => match to_units x with Ok v => v =? u | Raise _ => false end
  | Raise _ => false
  end.

(** The fields of a flattened segment, and what the document gives for
    them. *)
Definition item_fields (it : item)
  : option string * option string * option float * option Z * option Z :=
  (lecture_title it, topic it, Some (mins it), Some (difficulty it), Some (order it)).

Definition segment_fields (lec : lecture_doc) (seg : segment_doc)
  : option string * option string * option float * option Z * option Z :=
  (dict_get (lec_title lec), dict_get (seg_topic seg), dict_get (seg_mins seg),
   dict_get_default (seg_difficulty seg) 3, dict_get_default (seg_order seg) 1).

Definition document_fields (lectures : list lecture_doc)
  : list (option string * option string * option float * option Z * option Z) :=
  flat_map (fun lec => map (segment_fields lec) (segments_of lec)) lectures.

(** The identifiers of the segments of a document whose first lecture
    has index [n]. *)
Fixpoint document_ids (n : nat) (lectures : list lecture_doc) : list (option (nat * nat)) :=
  match lectures with
  | [] => []
  | lec :: rest =>
      map (fun si => Some (n, si)) (seq 0 (List.length (segments_of lec)))
      ++ document_ids (S n) rest
  end.

(** A flattened item that is a candidate for the gate: not completed and,
    when lectures are selected, of one of them. *)
Definition candidate (flat : list item) (completed_courses : list completed_doc)
                     (selected_lectures : option (list string)) (x : item) : Prop :=
  In x flat
  /\ is_completed completed_courses x = false
  /\ match selected_lectures with
     | Some (t :: ts) => in_scope (t :: ts) x = true
     | _ => True
     end.

Definition four_quarter_scaled : list (Z * item) :=
  map (fun it => (12, it)) four_quarter_items.

Definition four_quarter_chosen : list item :=
  map chosen_record four_quarter_items.

Definition lectures_T : list lecture_doc := [lecture_T_first; lecture_T_second].

Definition chosen_T : list item :=
  [chosen_record (eligible_of 1 0 "T" "c" f5_0 1);
   chosen_record (eligible_of 0 1 "T" "b" f5_0 2)].

(** * Properties *)

Lemma int_to_float_SCALE : int_to_float (Zpos SCALE) = Ok f10_0.
Proof. reflexivity. Qed.

Lemma binary_round_aux_cases sx mx ex lx :
  binary_round_aux prec emax sx mx ex lx = S754_nan \/
  binary_round_aux prec emax sx mx ex lx = S754_zero sx \/
  binary_round_aux prec emax sx mx ex lx = S754_infinity sx \/
  exists m e, binary_round_aux prec emax sx mx ex lx = S754_finite sx m e.
Proof.
  unfold binary_round_aux.
  destruct (shr_fexp prec emax mx ex lx) as [mrs e1].
  destruct (shr_fexp prec emax _ e1 loc_Exact) as [mrs2 e2].
  destruct (shr_m mrs2); auto.
  destruct (e2 <=? emax - prec); eauto 6.
Qed.

Lemma round_half_even_nearest m k :
  0 <= m -> 0 < k ->
  2 * Z.abs (round_half_even m k * 2 ^ k - m) <= 2 ^ k.
Proof.
  intros Hm Hk. unfold round_half_even.
  assert (Hp : 0 < 2 ^ k) by (apply Z.pow_pos_nonneg; lia).
  pose proof (Z.div_mod m (2 ^ k) ltac:(lia)) as Hdm.
  pose proof (Z.mod_pos_bound m (2 ^ k) Hp) as Hr.
  set (q := m / 2 ^ k) in *. set (r := m mod 2 ^ k) in *.
  destruct (Z.compare_spec (2 * r) (2 ^ k)) as [He | Hl | Hg].
  - destruct (Z.even q); nia.
  - nia.
  - nia.
Qed.

Lemma round_half_even_nonneg m k : 0 <= m -> 0 < k -> 0 <= round_half_even m k.
Proof.
  intros Hm Hk. unfold round_half_even.
  assert (Hp : 0 < 2 ^ k) by (apply Z.pow_pos_nonneg; lia).
  assert (0 <= m / 2 ^ k) by (apply Z.div_pos; lia).
  destruct (2 * (m mod 2 ^ k) ?= 2 ^ k); [destruct (Z.even _) | |]; lia.
Qed.

Lemma Qabs_half_bound (u m k : Z) :
  0 < k -> 2 * Z.abs (u * 2 ^ k - m) <= 2 ^ k ->
  (Qabs (inject_Z u - Qmake m (Z.to_pos (2 ^ k))) <= 1 # 2)%Q.
Proof.
  intros Hk Hb.
  assert (Hp : 0 < 2 ^ k) by (apply Z.pow_pos_nonneg; lia).
  apply Qabs_Qle_condition.
  unfold Qle, Qminus, Qplus, Qopp, inject_Z; simpl.
  rewrite Z2Pos.id by lia.
  split; lia.
Qed.

(** [to_units m] is the integer nearest to the binary64 product
    [m * 10], ties going to the even one. *)
Lemma to_units_half (m : float) :
  fle f0_0 m = true ->
  is_finite (fmul m f10_0) = true ->
  exists u, to_units m = Ok u /\ 0 <= u /\
            (Qabs (inject_Z u - float_value (fmul m f10_0)) <= 1 # 2)%Q.
Proof.
  intros Hge Hfin. unfold to_units. rewrite int_to_float_SCALE. simpl bind.
  destruct m as [s | s | | s mx ex].
  - exists 0. destruct s; simpl; repeat split; try lia; discriminate.
  - destruct s; discriminate.
  - discriminate.
  - destruct s; [discriminate |].
    unfold fmul, f10_0, SFmul in *. simpl xorb in *.
    match goal with
    | |- context [binary_round_aux _ _ ?sx ?mz ?ez ?lz] =>
        destruct (binary_round_aux_cases sx mz ez lz) as [E | [E | [E | (p & e & E)]]]
    end; rewrite E in *; try discriminate.
    + exists 0. cbn. repeat split; try lia; discriminate.
    + cbn [bind py_round apply_sign float_value].
      destruct (Z.leb_spec 0 e) as [He | He].
      * exists (Z.pos p * 2 ^ e).
        assert (0 <= Z.pos p * 2 ^ e) by (apply Z.mul_nonneg_nonneg; [lia | apply Z.pow_nonneg; lia]).
        rewrite Z.max_r by lia. repeat split; try lia.
        unfold Qminus. rewrite Qplus_opp_r. discriminate.
      * pose proof (round_half_even_nonneg (Z.pos p) (- e) ltac:(lia) ltac:(lia)).
        exists (round_half_even (Z.pos p) (- e)).
        rewrite Z.max_r by lia. repeat split; try lia.
        apply Qabs_half_bound; [lia |].
        apply round_half_even_nearest; lia.
Qed.

(** C7, as stated, fails at [m = 1.25]: [m * 10 = 12.5] is rounded to 12,
    [from_units 12] is the float 1.2, and [abs (1.2 - 1.25) < 0.05] is
    false, in binary64 and in exact arithmetic alike. *)
Lemma to_units_round_trip_not_strict :
  fle f0_0 f1_25 = true /\
  to_units f1_25 = Ok 12 /\
  from_units 12 = Ok f1_2 /\
  flt (fabs (fsub f1_2 f1_25)) f0_05 = false /\
  ~ (Qabs (float_value f1_2 - float_value f1_25) < 1 # 20)%Q.
Proof.
  repeat split; try reflexivity.
  vm_compute. discriminate.
Qed.

Lemma flt_0_8_0_6 (f : float) : flt f0_8 f = true -> flt f0_6 f = true.
Proof.
  unfold flt, SFltb, f0_8, f0_6.
  destruct f as [s | s | | s m e]; cbn [SFcompare]; try (intros; discriminate).
  - destruct s; auto.
  - destruct s; try (intros; discriminate).
    destruct (Z.compare (-53) e); try (intros; discriminate); auto.
    change (PosDef.Pos.compare_cont Eq 7205759403792794 m) with (Pos.compare 7205759403792794 m).
    change (PosDef.Pos.compare_cont Eq 5404319552844595 m) with (Pos.compare 5404319552844595 m).
    destruct (Pos.compare_spec 7205759403792794 m) as [E|L|G].
    + intros; discriminate.
    + intros _. assert (H : (5404319552844595 < m)%positive).
      { eapply Pos.lt_trans; [| exact L]. reflexivity. }
      rewrite (proj2 (Pos.compare_lt_iff _ _) H). reflexivity.
    + intros; discriminate.
Qed.

(** C2, amended: above a fatigue score of 0.8 both deratings apply in
    sequence, the second one to the bounds already reduced and truncated
    by the first: low is [int(int(low * 0.9) * 0.9)] and high is
    [int(int(high * 0.85) * 0.7)]. *)
Theorem budget_window_compounds (daily_mins fatigue_score : float) :
  flt f0_8 fatigue_score = true ->
  budget_window daily_mins fatigue_score = budget_window_compounded daily_mins.
Proof.
  intros H8. pose proof (flt_0_8_0_6 _ H8) as H6.
  unfold budget_window, budget_window_compounded. rewrite H6, H8.
  destruct (to_units (fmul daily_mins f0_7)) as [low |]; [| reflexivity].
  destruct (to_units (fmul daily_mins f1_3)) as [high |]; [| reflexivity].
  cbn [bind].
  destruct (derate low f0_9) as [l1 |]; [| reflexivity].
  destruct (derate high f0_85) as [h1 |]; reflexivity.
Qed.

(** C2, as stated, fails: for a target of 10 minutes and a fatigue score
    of 0.9 the code gives the window (56, 77), the independent reading
    (63, 91). *)
Lemma budget_window_not_independent :
  ~ (forall daily_mins fatigue_score,
        flt f0_8 fatigue_score = true ->
        budget_window daily_mins fatigue_score
        = budget_window_independent daily_mins fatigue_score).
Proof.
  intros H. specialize (H f10_0 f0_9 eq_refl).
  vm_compute in H. discriminate.
Qed.

Lemma budget_window_compounds_at_10 :
  budget_window f10_0 f0_9 = budget_window_compounded f10_0.
Proof. apply (budget_window_compounds f10_0 f0_9). reflexivity. Defined.

(** *** Rounding to binary64 *)

Lemma digits2_pos_bounds (p : positive) :
  2 ^ (Zpos (digits2_pos p) - 1) <= Zpos p < 2 ^ Zpos (digits2_pos p).
Proof.
  induction p as [p IH | p IH |]; cbn [digits2_pos].
  - rewrite Pos2Z.inj_succ, Pos2Z.inj_xI.
    replace (Z.succ (Zpos (digits2_pos p)) - 1) with (Z.succ (Zpos (digits2_pos p) - 1)) by lia.
    rewrite !Z.pow_succ_r by lia. lia.
  - rewrite Pos2Z.inj_succ. change (Z.pos p~0) with (2 * Z.pos p).
    replace (Z.succ (Zpos (digits2_pos p)) - 1) with (Z.succ (Zpos (digits2_pos p) - 1)) by lia.
    rewrite !Z.pow_succ_r by lia. lia.
  - cbn. lia.
Qed.

Lemma shr_1_located N D mrs :
  0 < D -> located N D mrs -> located N (2 * D) (shr_1 mrs).
Proof.
  intros HD. destruct mrs as [m r s]. unfold located. cbn [shr_m shr_r shr_s].
  intros (Hm & Hb & Hl).
  destruct m as [| p | p]; [| | lia].
  - cbn [shr_1 shr_m shr_r shr_s]. destruct r, s; cbn [orb]; lia.
  - destruct p as [p | p |]; cbn [shr_1 shr_m shr_r shr_s];
      try change (Z.pos p~1) with (2 * Z.pos p + 1) in *;
      try change (Z.pos p~0) with (2 * Z.pos p) in *;
      try (set (q := Zpos p) in *; assert (0 < q) by (subst q; lia));
      destruct r, s; cbn [orb]; nia.
Qed.

Lemma iter_pos_located n : forall N D mrs,
  0 < D -> located N D mrs -> located N (2 ^ Zpos n * D) (iter_pos shr_1 n mrs).
Proof.
  induction n as [n IH | n IH |]; intros N D mrs HD H; cbn [iter_pos].
  - assert (E : 2 ^ Z.pos n~1 * D = 2 ^ Z.pos n * (2 ^ Z.pos n * (2 * D))).
    { change (Z.pos n~1) with (2 * Z.pos n + 1).
      replace (2 * Z.pos n + 1) with (Z.pos n + Z.pos n + 1) by lia.
      rewrite !Z.pow_add_r, Z.pow_1_r by lia. ring. }
    assert (0 < 2 ^ Z.pos n) by (apply Z.pow_pos_nonneg; lia).
    rewrite E. apply IH; [nia |]. apply IH; [lia |]. apply shr_1_located; assumption.
  - assert (E : 2 ^ Z.pos n~0 * D = 2 ^ Z.pos n * (2 ^ Z.pos n * D)).
    { change (Z.pos n~0) with (2 * Z.pos n).
      replace (2 * Z.pos n) with (Z.pos n + Z.pos n) by lia.
      rewrite Z.pow_add_r by lia. ring. }
    assert (0 < 2 ^ Z.pos n) by (apply Z.pow_pos_nonneg; lia).
    rewrite E. apply IH; [nia |]. apply IH; assumption.
  - change (2 ^ 1) with 2. apply shr_1_located; assumption.
Qed.

Lemma shr_located N D mrs e n :
  0 < D -> located N D mrs ->
  exists k, k = Z.max 0 n
            /\ snd (shr mrs e n) = e + k
            /\ located N (2 ^ k * D) (fst (shr mrs e n)).
Proof.
  intros HD H. destruct n as [| p | p]; cbn [shr fst snd].
  - exists 0. rewrite Z.mul_1_l, Z.add_0_r. auto.
  - exists (Zpos p). split; [lia |]. split; [reflexivity |]. now apply iter_pos_located.
  - exists 0. rewrite Z.mul_1_l, Z.add_0_r. split; [lia | auto].
Qed.

Lemma loc_of_shr_record_of_loc m l : loc_of_shr_record (shr_record_of_loc m l) = l.
Proof. destruct l as [| []]; reflexivity. Qed.

Lemma shr_m_of_loc m l : shr_m (shr_record_of_loc m l) = m.
Proof. destruct l as [| []]; reflexivity. Qed.

(** Rounding to nearest, ties to even, of a located ratio. *)
Lemma round_nearest_even_located N D mrs :
  0 < D -> located N D mrs ->
  let m_r := round_nearest_even (shr_m mrs) (loc_of_shr_record mrs) in
  2 * Z.abs (m_r * D - N) <= D
  /\ shr_m mrs <= m_r <= shr_m mrs + 1
  /\ (loc_of_shr_record mrs = loc_Exact -> m_r = shr_m mrs /\ N = m_r * D).
Proof.
  intros HD. destruct mrs as [m r s]. unfold located. cbn [shr_m shr_r shr_s].
  intros (Hm & Hb & Hl).
  destruct r, s; cbn [loc_of_shr_record round_nearest_even]; try destruct (Z.even m).
  all: split; [nia | split; [lia |]].
  all: intros E; first [discriminate E | split; [reflexivity | lia]].
Qed.

Lemma fexp_binary64 e : fexp prec emax e = Z.max (e - 53) (-1074).
Proof. reflexivity. Qed.

Lemma Zdigits2_bounds m :
  0 < m -> 2 ^ (Zdigits2 m - 1) <= m < 2 ^ Zdigits2 m /\ 0 < Zdigits2 m.
Proof.
  destruct m as [| p | p]; intros H; try lia. cbn [Zdigits2].
  split; [apply digits2_pos_bounds | lia].
Qed.

Lemma pow2_lt_exp a b : 0 <= a -> 2 ^ a < 2 ^ b -> a < b.
Proof.
  intros Ha H. destruct (Z_lt_le_dec a b) as [Hlt | Hle]; [exact Hlt |].
  destruct (Z_lt_le_dec b 0) as [Hb | Hb].
  - rewrite (Z.pow_neg_r 2 b Hb) in H.
    pose proof (Z.pow_pos_nonneg 2 a ltac:(lia) Ha). lia.
  - pose proof (Z.pow_le_mono_r 2 b a ltac:(lia) Hle). lia.
Qed.

Lemma shr_nonpositive mrs e n : n <= 0 -> shr mrs e n = (mrs, e).
Proof. destruct n; [reflexivity | lia | reflexivity]. Qed.

Lemma shr_positive mrs e n :
  0 < n -> shr mrs e n = (fst (shr mrs e n), e + n).
Proof. destruct n; [lia | reflexivity | lia]. Qed.

(** The first shift of [binary_round_aux]: it brings the mantissa below
    [2^53] and the exponent to at least -1074, and, when it shifts at
    all, leaves a mantissa of 53 bits unless the exponent is -1074. *)
Lemma first_shift mx ex lx N D :
  0 < D -> located N D (shr_record_of_loc mx lx) ->
  exists k mrs,
    shr_fexp prec emax mx ex lx = (mrs, ex + k)
    /\ 0 <= k /\ located N (2 ^ k * D) mrs
    /\ shr_m mrs < 2 ^ 53 /\ -1074 <= ex + k
    /\ ((k = 0 /\ mrs = shr_record_of_loc mx lx)
        \/ (0 < k /\ (ex + k = -1074 \/ 2 ^ 52 <= shr_m mrs))).
Proof.
  intros HD H. unfold shr_fexp. rewrite fexp_binary64.
  set (n := Z.max (Zdigits2 mx + ex - 53) (-1074) - ex).
  pose proof H as (Hmx & Hbx & _). rewrite shr_m_of_loc in Hmx, Hbx.
  assert (Hdig : mx = 0 /\ Zdigits2 mx = 0
                 \/ 0 < mx /\ 2 ^ (Zdigits2 mx - 1) <= mx < 2 ^ Zdigits2 mx
                    /\ 0 < Zdigits2 mx).
  { destruct (Z.eq_dec mx 0) as [-> | Hne]; [left; auto | right].
    split; [lia |]. apply Zdigits2_bounds. lia. }
  destruct (Z_le_gt_dec n 0) as [Hn | Hn].
  - (* no shift *)
    exists 0, (shr_record_of_loc mx lx). rewrite shr_nonpositive by exact Hn.
    rewrite Z.add_0_r, Z.mul_1_l. split; [reflexivity |]. split; [lia |].
    split; [exact H |]. rewrite shr_m_of_loc. split; [| split; [lia | left; auto]].
    destruct Hdig as [[-> _] | (Hpos & Hb & Hd)]; [reflexivity |].
    assert (Zdigits2 mx <= 53) by lia.
    pose proof (Z.pow_le_mono_r 2 (Zdigits2 mx) 53 ltac:(lia) ltac:(lia)). lia.
  - (* a shift by [n] *)
    destruct (shr_located N D (shr_record_of_loc mx lx) ex n HD H) as (k & Hk & He & Hloc).
    assert (Ek : k = n) by lia. clear Hk. subst k.
    exists n, (fst (shr (shr_record_of_loc mx lx) ex n)).
    split; [apply shr_positive; lia |]. split; [lia |]. split; [exact Hloc |].
    destruct Hloc as (Hm' & Hb' & _).
    set (m' := shr_m (fst (shr (shr_record_of_loc mx lx) ex n))) in *.
    assert (HT : 0 < 2 ^ n) by (apply Z.pow_pos_nonneg; lia).
    assert (Hup : m' * 2 ^ n <= mx).
    { assert (m' * 2 ^ n * D < (mx + 1) * D) by lia.
      apply Z.mul_lt_mono_pos_r in H0; [lia | exact HD]. }
    assert (Hlow : mx < (m' + 1) * 2 ^ n).
    { assert (mx * D < (m' + 1) * 2 ^ n * D) by lia.
      apply Z.mul_lt_mono_pos_r in H0; [lia | exact HD]. }
    split; [| split; [lia | right; split; [lia |]]].
    + destruct Hdig as [[-> _] | (Hpos & Hb & Hd)]; [nia |].
      destruct (Z_lt_le_dec m' (2 ^ 53)) as [Hlt | Hge]; [exact Hlt | exfalso].
      assert (2 ^ Zdigits2 mx <= 2 ^ (53 + n)) by (apply Z.pow_le_mono_r; lia).
      rewrite Z.pow_add_r in H0 by lia. nia.
    + destruct (Z.eq_dec (ex + n) (-1074)) as [E | Hne]; [left; exact E | right].
      destruct Hdig as [[E0 Hd0] | (Hpos & Hb & Hd)]; [unfold n in Hn, Hne; lia |].
      assert (En : Zdigits2 mx - 1 = 52 + n) by lia.
      rewrite En, Z.pow_add_r in Hb by lia.
      assert ((2 ^ 52) * 2 ^ n < (m' + 1) * 2 ^ n) by lia.
      apply Z.mul_lt_mono_pos_r in H0; [lia | exact HT].
Qed.

(** The second shift: it does something only when rounding has carried
    the mantissa to [2^53], which it halves. *)
Lemma second_shift m_r e_r :
  0 <= m_r <= 2 ^ 53 -> -1074 <= e_r ->
  exists mrs m2 e2,
    shr_fexp prec emax m_r e_r loc_Exact = (mrs, e2)
    /\ shr_m mrs = m2
    /\ m2 * 2 ^ (e2 - e_r) = m_r
    /\ e_r <= e2
    /\ 0 <= m2 < 2 ^ 53
    /\ (2 ^ 52 <= m_r -> 2 ^ 52 <= m2).
Proof.
  intros Hm He. unfold shr_fexp. rewrite fexp_binary64.
  destruct (Z.eq_dec m_r (2 ^ 53)) as [-> | Hne].
  - change (Zdigits2 (2 ^ 53)) with 54.
    replace (Z.max (54 + e_r - 53) (-1074) - e_r) with 1 by lia.
    eexists _, (2 ^ 52), (e_r + 1). split; [reflexivity |]. split; [reflexivity |].
    replace (e_r + 1 - e_r) with 1 by lia. split; [reflexivity |].
    split; [lia |]. split; [split; [discriminate | reflexivity] |]. intros _. discriminate.
  - assert (Hn : Z.max (Zdigits2 m_r + e_r - 53) (-1074) - e_r <= 0).
    { destruct (Z.eq_dec m_r 0) as [-> | H0]; [cbn [Zdigits2]; lia |].
      destruct (Zdigits2_bounds m_r ltac:(lia)) as [[Hlo _] Hd].
      assert (2 ^ (Zdigits2 m_r - 1) < 2 ^ 53) by lia.
      apply pow2_lt_exp in H; lia. }
    rewrite shr_nonpositive by exact Hn.
    exists (shr_record_of_loc m_r loc_Exact), m_r, e_r.
    split; [reflexivity |]. split; [reflexivity |].
    rewrite Z.sub_diag, Z.mul_1_r. repeat split; lia.
Qed.

(** What [binary_round_aux] returns for a located ratio [N / D] at the
    exponent [ex]: the mantissa [m_r], nearest to [N / (2^k D)], at the
    exponent [ex + k]; [m2] and [e2] are the same number with fewer than
    54 bits. *)
Lemma binary_round_aux_located sx mx ex lx N D :
  0 < D -> located N D (shr_record_of_loc mx lx) ->
  exists k m_r m2 e2,
    0 <= k
    /\ 2 * Z.abs (m_r * (2 ^ k * D) - N) <= 2 ^ k * D
    /\ m2 * 2 ^ (e2 - (ex + k)) = m_r /\ ex + k <= e2
    /\ 0 <= m2 < 2 ^ 53
    /\ binary_round_aux prec emax sx mx ex lx
       = match m2 with
         | Z0 => S754_zero sx
         | Zpos p => if e2 <=? 971 then S754_finite sx p e2 else S754_infinity sx
         | Zneg _ => S754_nan
         end
    /\ ((k = 0 /\ mx <= m_r /\ (lx = loc_Exact -> N = m_r * D))
        \/ (0 < k /\ (ex + k = -1074 \/ 2 ^ 52 <= m_r)))
    /\ (2 ^ 52 <= m_r -> 2 ^ 52 <= m2).
Proof.
  intros HD H.
  destruct (first_shift mx ex lx N D HD H) as (k & mrs & E1 & Hk & Hloc & Hlt & Hex & Hcase).
  assert (HD' : 0 < 2 ^ k * D).
  { apply Z.mul_pos_pos; [apply Z.pow_pos_nonneg; lia | exact HD]. }
  destruct (round_nearest_even_located N _ mrs HD' Hloc) as (Hr & Hbr & Hexact).
  set (m_r := round_nearest_even (shr_m mrs) (loc_of_shr_record mrs)) in *.
  assert (Hm0 : 0 <= shr_m mrs) by apply Hloc.
  destruct (second_shift m_r (ex + k) ltac:(lia) Hex)
    as (mrs2 & m2 & e2 & E2 & Em2 & Hval & He2 & Hb2 & Hn2).
  exists k, m_r, m2, e2.
  split; [exact Hk |]. split; [exact Hr |]. split; [exact Hval |]. split; [exact He2 |].
  split; [exact Hb2 |]. split.
  - unfold binary_round_aux. rewrite E1. fold m_r. rewrite E2, Em2. reflexivity.
  - split; [| exact Hn2].
    destruct Hcase as [[-> ->] | [Hk0 Hc]].
    + left. split; [reflexivity |]. rewrite shr_m_of_loc in Hbr. split; [lia |].
      intros ->. rewrite Z.mul_1_l in Hexact. apply Hexact. reflexivity.
    + right. split; [exact Hk0 |]. destruct Hc as [Hc | Hc]; [left; exact Hc | right; lia].
Qed.

Lemma pow2_pos (e : Z) : (0 < 2 ^ e)%Q.
Proof. apply Qpower_0_lt. reflexivity. Qed.

Lemma pow2_add (a b : Z) : (2 ^ (a + b) == 2 ^ a * 2 ^ b)%Q.
Proof. apply Qpower_plus. discriminate. Qed.

Lemma inject_pow2 (k : Z) : 0 <= k -> (inject_Z (2 ^ k) == 2 ^ k)%Q.
Proof. intros H. apply (Zpower_Qpower 2 k H). Qed.

Lemma float_value_finite m e :
  (float_value (S754_finite false m e) == inject_Z (Zpos m) * 2 ^ e)%Q.
Proof.
  unfold float_value. destruct (Z.leb_spec 0 e) as [He | He].
  - rewrite inject_Z_mult, inject_pow2 by exact He. reflexivity.
  - assert (Hp : 0 < 2 ^ (- e)) by (apply Z.pow_pos_nonneg; lia).
    rewrite Qmake_Qdiv, Z2Pos.id by exact Hp.
    rewrite inject_pow2 by lia.
    assert (E : (2 ^ e == / 2 ^ (- e))%Q)
      by (rewrite <- Qpower_opp, Z.opp_involutive; reflexivity).
    rewrite E. reflexivity.
Qed.

(** The value [V = m2 * 2^e2] that the rounding returns is within half a
    unit of the exponent [ex + k] of the exact value [X = N / D * 2^ex]. *)
Lemma round_value N D k m_r m2 e2 ex :
  0 < D -> 0 <= k ->
  2 * Z.abs (m_r * (2 ^ k * D) - N) <= 2 ^ k * D ->
  m2 * 2 ^ (e2 - (ex + k)) = m_r -> ex + k <= e2 ->
  (inject_Z m2 * 2 ^ e2 == inject_Z m_r * 2 ^ (ex + k)
   /\ Qabs (inject_Z m2 * 2 ^ e2 - inject_Z N / inject_Z D * 2 ^ ex)
      <= (1 # 2) * 2 ^ (ex + k))%Q.
Proof.
  intros HD Hk Hr Hm He.
  assert (EV : (inject_Z m2 * 2 ^ e2 == inject_Z m_r * 2 ^ (ex + k))%Q).
  { rewrite <- Hm, inject_Z_mult, inject_pow2 by lia.
    replace e2 with (e2 - (ex + k) + (ex + k)) at 1 by lia.
    rewrite pow2_add. ring. }
  split; [exact EV |]. rewrite EV.
  pose proof (pow2_pos ex) as Hw. pose proof (pow2_pos k) as Ht.
  assert (Hd : (0 < inject_Z D)%Q)
    by (change (inject_Z 0 < inject_Z D)%Q; rewrite <- Zlt_Qlt; exact HD).
  rewrite pow2_add.
  set (w := (2 ^ ex)%Q) in *. set (t := (2 ^ k)%Q) in *.
  set (d := inject_Z D) in *. set (n := inject_Z N). set (mr := inject_Z m_r).
  assert (Hq : (- (t * d) <= 2 * (mr * (t * d) - n) <= t * d)%Q).
  { assert (Et : (t * d == inject_Z (2 ^ k * D))%Q)
      by (rewrite inject_Z_mult, inject_pow2 by exact Hk; reflexivity).
    rewrite Et. unfold n, mr. clear - Hr.
    set (A := 2 ^ k * D) in *.
    unfold Qle, Qmult, Qminus, Qplus, Qopp, inject_Z. cbn [Qnum Qden].
    split; lia. }
  set (y := (n / d)%Q).
  assert (Ey : (n == y * d)%Q) by (unfold y; field; lra).
  apply Qabs_Qle_condition.
  destruct Hq as [H1 H2]. rewrite Ey in H1, H2.
  assert (H1' : (- t <= 2 * (mr * t - y))%Q).
  { apply (Qmult_le_r _ _ d Hd). lra. }
  assert (H2' : (2 * (mr * t - y) <= t)%Q).
  { apply (Qmult_le_r _ _ d Hd). lra. }
  split.
  - apply (Qmult_le_l _ _ 2 ltac:(reflexivity)).
    setoid_replace (2 * - ((1 # 2) * (w * t)))%Q with (w * - t)%Q by ring.
    setoid_replace (2 * (mr * (w * t) - y * w))%Q with (w * (2 * (mr * t - y)))%Q by ring.
    apply Qmult_le_l; assumption.
  - apply (Qmult_le_l _ _ 2 ltac:(reflexivity)).
    setoid_replace (2 * ((1 # 2) * (w * t)))%Q with (w * t)%Q by ring.
    setoid_replace (2 * (mr * (w * t) - y * w))%Q with (w * (2 * (mr * t - y)))%Q by ring.
    apply Qmult_le_l; assumption.
Qed.

Lemma inject_Z_le a b : a <= b -> (inject_Z a <= inject_Z b)%Q.
Proof. intros H. rewrite <- Zle_Qle. exact H. Qed.

Lemma inject_Z_lt a b : a < b -> (inject_Z a < inject_Z b)%Q.
Proof. intros H. rewrite <- Zlt_Qlt. exact H. Qed.

Lemma pow2_le a b : a <= b -> (2 ^ a <= 2 ^ b)%Q.
Proof. intros H. apply Qpower_le_compat_l; [exact H | discriminate]. Qed.

(** The value of a rounding to binary64.  [V] is the number returned
    for the exact value [N / D * 2^ex]; it is within one half unit in
    the last place, that is within the fraction [2^-53] of [V] or within
    [2^-1075]; it is below [2^1024] when a finite number is returned. *)
Lemma binary_round_aux_value sx mx ex lx N D :
  0 < D -> located N D (shr_record_of_loc mx lx) ->
  lx = loc_Exact \/ 2 ^ 52 <= mx ->
  exists V : Q,
    (0 <= V)%Q
    /\ (Qabs (V - inject_Z N / inject_Z D * 2 ^ ex)
        <= V * (1 # 9007199254740992) + 2 ^ (-1075))%Q
    /\ match binary_round_aux prec emax sx mx ex lx with
       | S754_zero s => s = sx /\ (V == 0)%Q
       | S754_finite s m e =>
           s = sx /\ (V == inject_Z (Zpos m) * 2 ^ e)%Q /\ (V < 2 ^ 1024)%Q
       | S754_infinity s => s = sx /\ (2 ^ 52 <= mx -> (2 ^ 1024 <= V)%Q)
       | S754_nan => False
       end.
Proof.
  intros HD H Hcond.
  destruct (binary_round_aux_located sx mx ex lx N D HD H)
    as (k & m_r & m2 & e2 & Hk & Hr & Hval & He2 & Hm2 & Eres & Hcase & Hn2).
  destruct (round_value N D k m_r m2 e2 ex HD Hk Hr Hval He2) as [EV Herr].
  pose proof (pow2_pos e2) as Hp2. pose proof (pow2_pos (ex + k)) as Hpk.
  pose proof (pow2_pos (-1075)) as Ha.
  assert (Hm2q : (0 <= inject_Z m2)%Q) by (apply (inject_Z_le 0); lia).
  assert (Hj : 0 < 2 ^ (e2 - (ex + k))) by (apply Z.pow_pos_nonneg; lia).
  assert (Hmr0 : 0 <= m_r) by nia.
  exists (inject_Z m2 * 2 ^ e2)%Q.
  split; [apply Qmult_le_0_compat; [exact Hm2q | apply Qlt_le_weak; exact Hp2] |].
  split.
  - (* the error *)
    assert (Hrel : 2 ^ 52 <= m_r ->
              ((1 # 2) * 2 ^ (ex + k) <= inject_Z m2 * 2 ^ e2 * (1 # 9007199254740992))%Q).
    { intros Hge. rewrite EV.
      assert (Hq : (inject_Z (2 ^ 52) <= inject_Z m_r)%Q) by (apply inject_Z_le; exact Hge).
      change (inject_Z (2 ^ 52)) with (4503599627370496 # 1)%Q in Hq.
      set (w := (2 ^ (ex + k))%Q) in *. set (mr := inject_Z m_r) in *.
      assert ((4503599627370496 # 1) * w <= mr * w)%Q
        by (apply Qmult_le_compat_r; [exact Hq | apply Qlt_le_weak; exact Hpk]).
      lra. }
    destruct Hcase as [(-> & Hmx & Hex) | (Hk0 & [He | Hge])].
    + destruct Hcond as [-> | Hge].
      * specialize (Hex eq_refl).
        assert (EX : (inject_Z N / inject_Z D * 2 ^ ex == inject_Z m2 * 2 ^ e2)%Q).
        { rewrite EV, Z.add_0_r, Hex, inject_Z_mult. field.
          intros E. apply (inject_Z_lt 0 D) in HD. rewrite E in HD. discriminate HD. }
        rewrite EX.
        setoid_replace (inject_Z m2 * 2 ^ e2 - inject_Z m2 * 2 ^ e2)%Q with 0%Q by ring.
        cbn [Qabs Z.abs].
        assert (0 <= inject_Z m2 * 2 ^ e2)%Q
          by (apply Qmult_le_0_compat; [exact Hm2q | apply Qlt_le_weak; exact Hp2]).
        lra.
      * specialize (Hrel ltac:(lia)). lra.
    + rewrite He in Herr.
      assert (E : ((1 # 2) * 2 ^ (-1074) == 2 ^ (-1075))%Q).
      { change (-1074) with (-1075 + 1). rewrite pow2_add.
        change (2 ^ 1)%Q with 2%Q. ring. }
      rewrite E in Herr.
      assert (0 <= inject_Z m2 * 2 ^ e2)%Q
        by (apply Qmult_le_0_compat; [exact Hm2q | apply Qlt_le_weak; exact Hp2]).
      lra.
    + specialize (Hrel Hge). lra.
  - (* the result *)
    rewrite Eres. destruct m2 as [| p | p]; [| | lia].
    + split; [reflexivity |]. ring.
    + destruct (Z.leb_spec e2 971) as [Hle | Hgt].
      * split; [reflexivity |]. split; [reflexivity |].
        assert (Hq : (inject_Z (Zpos p) < inject_Z (2 ^ 53))%Q)
          by (apply inject_Z_lt; lia).
        change (inject_Z (2 ^ 53)) with (2 ^ 53)%Q in Hq.
        apply Qlt_le_trans with (2 ^ 53 * 2 ^ e2)%Q.
        -- apply Qmult_lt_compat_r; assumption.
        -- change 1024 with (53 + 971). rewrite pow2_add.
           apply Qmult_le_l; [apply pow2_pos | apply pow2_le; exact Hle].
      * split; [reflexivity |]. intros Hmx52.
        assert (Hmr : 2 ^ 52 <= m_r).
        { destruct Hcase as [(_ & Hmx & _) | (_ & [He | Hge])]; [lia | | exact Hge].
          assert (2 ^ 52 <= 2 ^ (e2 - (ex + k))) by (apply Z.pow_le_mono_r; lia).
          nia. }
        specialize (Hn2 Hmr).
        assert (Hq : (inject_Z (2 ^ 52) <= inject_Z (Zpos p))%Q)
          by (apply inject_Z_le; exact Hn2).
        change (inject_Z (2 ^ 52)) with (2 ^ 52)%Q in Hq.
        apply Qle_trans with (2 ^ 52 * 2 ^ e2)%Q.
        -- change 1024 with (52 + 972). rewrite pow2_add.
           apply Qmult_le_l; [apply pow2_pos | apply pow2_le; lia].
        -- apply Qmult_le_compat_r; [exact Hq | apply Qlt_le_weak; exact Hp2].
Qed.

Lemma located_exact m : 0 <= m -> located m 1 (shr_record_of_loc m loc_Exact).
Proof. intros H. unfold located. cbn [shr_record_of_loc shr_m shr_r shr_s]. lia. Qed.

(** The product of a positive float by 10.0: [V] is its value. *)
Lemma fmul_10_value mx ex :
  exists V : Q,
    (0 <= V)%Q
    /\ (Qabs (V - 10 * float_value (S754_finite false mx ex))
        <= V * (1 # 9007199254740992) + 2 ^ (-1075))%Q
    /\ match fmul (S754_finite false mx ex) f10_0 with
       | S754_zero s => s = false /\ (V == 0)%Q
       | S754_finite s m e =>
           s = false /\ (V == float_value (S754_finite false m e))%Q /\ (V < 2 ^ 1024)%Q
       | S754_infinity s => s = false
       | S754_nan => False
       end.
Proof.
  unfold fmul, f10_0, SFmul. cbn [xorb].
  set (c := 5629499534213120%positive).
  destruct (binary_round_aux_value false (Zpos (mx * c)) (ex + -49) loc_Exact
              (Zpos (mx * c)) 1 ltac:(lia) (located_exact (Zpos (mx * c)) ltac:(lia)) (or_introl eq_refl))
    as (V & HV & Herr & Hres).
  exists V. split; [exact HV |]. split.
  - assert (EX : (inject_Z (Z.pos (mx * c)) / inject_Z 1 * 2 ^ (ex + -49)
                  == 10 * float_value (S754_finite false mx ex))%Q).
    { rewrite float_value_finite, pow2_add, Pos2Z.inj_mul, inject_Z_mult.
      assert (Ec : (inject_Z (Zpos c) * 2 ^ (-49) == 10)%Q) by reflexivity.
      setoid_replace (inject_Z (Z.pos mx) * inject_Z (Z.pos c) / inject_Z 1
                      * (2 ^ ex * 2 ^ (-49)))%Q
        with (inject_Z (Z.pos mx) * 2 ^ ex * (inject_Z (Zpos c) * 2 ^ (-49)))%Q
        by (change (inject_Z 1) with 1%Q; field).
      rewrite Ec. ring. }
    rewrite <- EX. exact Herr.
  - destruct (binary_round_aux prec emax false (Z.pos (mx * c)) (ex + -49) loc_Exact)
      as [s | s | | s m e]; try tauto.
    destruct Hres as (-> & E & Hlt). rewrite float_value_finite. auto.
Qed.

(** The division of a positive integer by 10, as [SFdiv] sets it up. *)
Lemma div_10_located (p : positive) mz ez lz :
  SFdiv_core_binary prec emax (Zpos p) 0 10 0 = (mz, ez, lz) ->
  exists N,
    located N 10 (shr_record_of_loc mz lz)
    /\ (inject_Z N / inject_Z 10 * 2 ^ ez == inject_Z (Zpos p) / 10)%Q
    /\ 2 ^ 52 <= mz.
Proof.
  unfold SFdiv_core_binary. rewrite fexp_binary64.
  change (Zdigits2 10) with 4.
  destruct (Zdigits2_bounds (Zpos p) ltac:(lia)) as [Hb Hd].
  set (d1 := Zdigits2 (Zpos p)) in *.
  replace (Z.min (Z.max (d1 + 0 - (4 + 0) - 53) (-1074)) (0 - 0))
    with (Z.min (d1 - 57) 0) by lia.
  set (e' := Z.min (d1 - 57) 0).
  replace (0 - 0 - e') with (- e') by lia.
  set (m' := match - e' with
             | 0 => Z.pos p
             | Z.pos _ => Z.shiftl (Z.pos p) (- e')
             | Z.neg _ => 0
             end).
  assert (Em : m' = Zpos p * 2 ^ (- e')).
  { unfold m'. destruct (- e') as [| s | s] eqn:Es.
    - rewrite Z.mul_1_r. reflexivity.
    - apply Z.shiftl_mul_pow2. lia.
    - lia. }
  assert (Hm56 : 2 ^ 56 <= m').
  { rewrite Em. destruct (Z_le_gt_dec d1 57) as [Hle | Hgt].
    - replace (- e') with (57 - d1) by lia.
      replace 56 with ((d1 - 1) + (57 - d1)) by lia. rewrite Z.pow_add_r by lia.
      apply Z.mul_le_mono_nonneg_r; [apply Z.pow_nonneg; lia | apply Hb].
    - replace (- e') with 0 by lia. rewrite Z.mul_1_r.
      assert (2 ^ 56 <= 2 ^ (d1 - 1)) by (apply Z.pow_le_mono_r; lia). lia. }
  pose proof (Z_div_mod m' 10 ltac:(lia)) as Hdm.
  unfold Z.div_eucl at 1. fold (Z.div_eucl m' 10).
  destruct (Z.div_eucl m' 10) as [q r]. destruct Hdm as [Eq Hr].
  intros E. injection E as <- <- <-.
  exists m'. split; [| split].
  - unfold new_location. change (Z.even 10) with true. unfold new_location_even.
    assert (Hcases : r = 0 \/ r = 1 \/ r = 2 \/ r = 3 \/ r = 4 \/ r = 5 \/ r = 6
                     \/ r = 7 \/ r = 8 \/ r = 9) by lia.
    assert (Hq : 0 <= q) by lia.
    destruct Hcases as [-> | [-> | [-> | [-> | [-> | [-> | [-> | [-> | [-> | ->]]]]]]]]];
      match goal with
      | |- located _ _ (shr_record_of_loc _ ?l) =>
          let l' := eval vm_compute in l in change l with l'
      end;
      unfold located; cbn [shr_record_of_loc shr_m shr_r shr_s]; lia.
  - rewrite Em, inject_Z_mult, inject_pow2 by lia.
    assert (E2 : (2 ^ (- e') * 2 ^ e' == 1)%Q).
    { rewrite <- pow2_add. replace (- e' + e') with 0 by lia. reflexivity. }
    setoid_replace (inject_Z (Z.pos p) * 2 ^ (- e') / inject_Z 10 * 2 ^ e')%Q
      with (inject_Z (Z.pos p) / 10 * (2 ^ (- e') * 2 ^ e'))%Q
      by (change (inject_Z 10) with 10%Q; field).
    rewrite E2. ring.
  - assert (2 ^ 56 = 10 * 2 ^ 52 + 6 * 2 ^ 52) by reflexivity.
    assert (0 < 2 ^ 52) by reflexivity. nia.
Qed.

(** The quotient of a positive integer by 10: [V] is its value. *)
Lemma div_10_value (p : positive) :
  exists V : Q,
    (0 <= V)%Q
    /\ (Qabs (V - inject_Z (Zpos p) / 10)
        <= V * (1 # 9007199254740992) + 2 ^ (-1075))%Q
    /\ match fdiv (S754_finite false p 0) (S754_finite false SCALE 0) with
       | S754_zero s => (V == 0)%Q
       | S754_finite s m e => s = false /\ (V == float_value (S754_finite false m e))%Q
       | S754_infinity s => (2 ^ 1024 <= V)%Q
       | S754_nan => False
       end.
Proof.
  unfold fdiv, SFdiv, SCALE. cbn [xorb].
  destruct (SFdiv_core_binary prec emax (Z.pos p) 0 10 0) as [[mz ez] lz] eqn:E.
  destruct (div_10_located p mz ez lz E) as (N & Hloc & EX & Hmz).
  destruct (binary_round_aux_value false mz ez lz N 10 ltac:(lia) Hloc (or_intror Hmz))
    as (V & HV & Herr & Hres).
  exists V. split; [exact HV |]. split; [rewrite <- EX; exact Herr |].
  destruct (binary_round_aux prec emax false mz ez lz) as [s | s | | s m e].
  - apply Hres.
  - apply Hres. exact Hmz.
  - exact Hres.
  - destruct Hres as (-> & Ev & _). rewrite float_value_finite. auto.
Qed.

Lemma float_value_nonneg m e : (0 <= float_value (S754_finite false m e))%Q.
Proof.
  rewrite float_value_finite. apply Qmult_le_0_compat.
  - apply (inject_Z_le 0). lia.
  - apply Qlt_le_weak, pow2_pos.
Qed.

Lemma tiny_bound : (0 < 2 ^ (-1075) /\ 2 ^ (-1075) <= 1 # 1152921504606846976)%Q.
Proof.
  split; [apply pow2_pos |].
  assert (E : (2 ^ (-60) == 1 # 1152921504606846976)%Q) by reflexivity.
  rewrite <- E. apply pow2_le. lia.
Qed.

Lemma huge_bound : (1 <= 2 ^ 1024)%Q.
Proof. change 1%Q with (2 ^ 0)%Q. apply pow2_le. lia. Qed.

(** The arithmetic of the round trip: [x] the minutes, [V] the rounded
    product, [u] the units, [V'] the rounded quotient. *)
Lemma round_trip_arith (x V u V' a : Q) :
  (0 <= x -> 0 <= V -> 0 <= V' ->
   0 < a -> a <= 1 # 1152921504606846976 ->
   Qabs (V - 10 * x) <= V * (1 # 9007199254740992) + a ->
   Qabs (u - V) <= 1 # 2 ->
   Qabs (V' - u / 10) <= V' * (1 # 9007199254740992) + a ->
   Qabs (V' - x) <= (1 # 20) + (x + 1) * (1 # 2251799813685248))%Q.
Proof.
  intros Hx HV HV' Ha Ha' E1 E2 E3.
  assert (Eu : (u / 10 == u * (1 # 10))%Q) by reflexivity.
  rewrite Eu in E3.
  apply Qabs_Qle_condition in E1, E2, E3. apply Qabs_Qle_condition.
  destruct E1 as [E1a E1b], E2 as [E2a E2b], E3 as [E3a E3b].
  split; lra.
Qed.

(** C7, amended: for a float [m >= 0] whose binary64 product [m * 10] is
    finite, [to_units m] is a non-negative integer at most one half away
    from that product, [from_units] of it is computed, and the round
    trip is within 0.05 minute of [m] up to the two binary64 roundings:
    [|from_units (to_units m) - m| <= 0.05 + (m + 1) / 2^51].  The bound
    0.05 itself is exceeded at ties such as 1.25. *)
Theorem to_units_round_trip (m : float) :
  fle f0_0 m = true ->
  is_finite (fmul m f10_0) = true ->
  exists u r,
    to_units m = Ok u /\ 0 <= u
    /\ (Qabs (inject_Z u - float_value (fmul m f10_0)) <= 1 # 2)%Q
    /\ from_units u = Ok r
    /\ (Qabs (float_value r - float_value m)
        <= (1 # 20) + (float_value m + 1) * (1 # 2251799813685248))%Q.
Proof.
  intros Hge Hfin. destruct (to_units_half m Hge Hfin) as (u & Hu & Hu0 & Hhalf).
  destruct m as [s | s | | s mx ex].
  - assert (u = 0) by (destruct s; vm_compute in Hu; congruence). subst u.
    exists 0, f0_0. split; [exact Hu |]. split; [lia |]. split; [exact Hhalf |].
    split; [reflexivity |]. destruct s; vm_compute; discriminate.
  - destruct s; discriminate.
  - discriminate.
  - destruct s; [discriminate |].
    destruct (fmul_10_value mx ex) as (V & HV & E1 & Hres).
    pose proof (float_value_nonneg mx ex) as Hx.
    destruct tiny_bound as [Ha Ha']. pose proof huge_bound as HT.
    set (x := float_value (S754_finite false mx ex)) in *.
    set (a := (2 ^ (-1075))%Q) in *. set (T := (2 ^ 1024)%Q) in *.
    assert (HVp : (float_value (fmul (S754_finite false mx ex) f10_0) == V)%Q /\ (V < T)%Q).
    { destruct (fmul (S754_finite false mx ex) f10_0) as [s | s | | s p e];
        try discriminate Hfin; try contradiction.
      - destruct Hres as [_ E]. split; [rewrite E; reflexivity | rewrite E; lra].
      - destruct Hres as (-> & E & Hlt). split; [symmetry; exact E | exact Hlt]. }
    destruct HVp as [EVp HVT]. rewrite EVp in Hhalf.
    assert (Hfrom : exists r V', from_units u = Ok r
                      /\ (float_value r == V')%Q /\ (0 <= V')%Q
                      /\ (Qabs (V' - inject_Z u / 10)
                          <= V' * (1 # 9007199254740992) + a)%Q).
    { destruct u as [| q | q]; [| | lia].
      - exists f0_0, 0%Q. split; [reflexivity |]. split; [reflexivity |].
        split; [lra |]. cbn. lra.
      - destruct (div_10_value q) as (V' & HV' & E3 & Hres').
        unfold from_units, int_true_div.
        destruct (fdiv (S754_finite false q 0) (S754_finite false SCALE 0))
          as [s | s | | s p e].
        + exists (S754_zero s), V'. split; [reflexivity |].
          split; [rewrite Hres'; reflexivity |]. split; assumption.
        + exfalso. fold T in Hres'.
          assert (Eu : (inject_Z (Zpos q) / 10 == inject_Z (Zpos q) * (1 # 10))%Q)
            by reflexivity.
          rewrite Eu in E3.
          apply Qabs_Qle_condition in Hhalf, E3.
          destruct Hhalf as [H1 H2], E3 as [H3 H4]. lra.
        + contradiction.
        + destruct Hres' as [-> E]. exists (S754_finite false p e), V'.
          split; [reflexivity |]. split; [symmetry; exact E |]. split; assumption. }
    destruct Hfrom as (r & V' & Hr & EV' & HV' & E3).
    exists u, r. split; [exact Hu |]. split; [exact Hu0 |].
    split; [rewrite EVp; exact Hhalf |]. split; [exact Hr |].
    rewrite EV'.
    apply (round_trip_arith x V (inject_Z u) V' a); assumption.
Qed.

Lemma to_units_round_trip_at_1_25 :
  exists u r,
    to_units f1_25 = Ok u /\ 0 <= u
    /\ (Qabs (inject_Z u - float_value (fmul f1_25 f10_0)) <= 1 # 2)%Q
    /\ from_units u = Ok r
    /\ (Qabs (float_value r - float_value f1_25)
        <= (1 # 20) + (float_value f1_25 + 1) * (1 # 2251799813685248))%Q.
Proof. apply (to_units_round_trip f1_25); reflexivity. Defined.

Lemma flatten_segment_outcome li lec si seg :
  match flatten_segment li lec (si, seg) with
  | Raise e => e = TypeError /\ segment_type_error seg = true
  | Ok it => segment_type_error seg = false /\ flattened_from lec seg it
             /\ id it = Some (li, si) /\ lecture_index it = Some li
  end.
Proof.
  unfold flatten_segment, segment_type_error, flattened_from.
  destruct (seg_mins seg) as [| | m]; cbn; auto.
  destruct (seg_difficulty seg) as [| | d]; cbn; auto;
    destruct (seg_order seg) as [| | o]; cbn; auto 10.
Qed.

Lemma flatten_lecture_segments li lec n segs :
  match mapM (flatten_segment li lec) (enumerate_from n segs) with
  | Raise e => e = TypeError /\ existsb segment_type_error segs = true
  | Ok items =>
      existsb segment_type_error segs = false /\
      Forall2 (fun it seg => flattened_from lec seg it /\ lecture_index it = Some li) items segs
  end.
Proof.
  revert n. induction segs as [| seg segs IH]; intros n; cbn [enumerate_from mapM].
  - split; [reflexivity | constructor].
  - pose proof (flatten_segment_outcome li lec n seg) as Hs. cbn [existsb].
    destruct (flatten_segment li lec (n, seg)) as [it | e]; cbn [bind].
    + destruct Hs as (-> & Hf & _ & Hli). cbn [orb].
      specialize (IH (S n)).
      destruct (mapM (flatten_segment li lec) (enumerate_from (S n) segs)) as [items | e];
        cbn [bind].
      * destruct IH as (H1 & H2). split; [exact H1 |]. constructor; auto.
      * exact IH.
    + destruct Hs as (-> & ->). split; reflexivity.
Qed.

Lemma flatten_lecture_outcome li lec :
  match flatten_lecture (li, lec) with
  | Raise e => e = TypeError /\ lecture_type_error lec = true
  | Ok items =>
      lecture_type_error lec = false /\
      Forall2 (fun it seg => flattened_from lec seg it /\ lecture_index it = Some li)
              items (segments_of lec)
  end.
Proof.
  unfold flatten_lecture, lecture_type_error, segments_of, enumerate.
  destruct (lec_segments lec) as [| | segs]; cbn [dict_get_default py_enumerate bind is_null orb].
  - split; [reflexivity | constructor].
  - split; reflexivity.
  - apply flatten_lecture_segments.
Qed.

Lemma Forall2_In_left {A B : Type} (P : A -> B -> Prop) (xs : list A) (ys : list B) :
  Forall2 P xs ys -> forall x, In x xs -> exists y, In y ys /\ P x y.
Proof.
  induction 1 as [| x y xs ys Hxy _ IH]; intros a Ha; [destruct Ha |].
  destruct Ha as [<- | Ha].
  - exists y. split; [left; reflexivity | exact Hxy].
  - destruct (IH a Ha) as (b & Hb & Hab). exists b. split; [right; exact Hb | exact Hab].
Qed.

Lemma flatten_lectures_from n lectures :
  match mapM flatten_lecture (enumerate_from n lectures) with
  | Raise e => e = TypeError /\ document_type_error lectures = true
  | Ok groups =>
      document_type_error lectures = false /\
      Forall2 (fun it seg => topic it = dict_get (seg_topic seg))
              (concat groups) (all_segments lectures) /\
      Forall (fun it => exists lec seg,
                  In lec lectures /\ In seg (segments_of lec) /\ flattened_from lec seg it)
             (concat groups)
  end.
Proof.
  revert n. induction lectures as [| lec lectures IH]; intros n; cbn [enumerate_from mapM].
  - repeat split; constructor.
  - pose proof (flatten_lecture_outcome n lec) as Hs.
    unfold document_type_error, all_segments. cbn [flat_map existsb].
    fold (all_segments lectures). fold (document_type_error lectures).
    destruct (flatten_lecture (n, lec)) as [items | e]; cbn [bind].
    + destruct Hs as (-> & Hs). cbn [orb].
      specialize (IH (S n)).
      destruct (mapM flatten_lecture (enumerate_from (S n) lectures)) as [groups | e];
        cbn [bind].
      * destruct IH as (H1 & H2 & H3). split; [exact H1 |]. cbn [concat]. split.
        -- apply Forall2_app; [| exact H2].
           eapply Forall2_impl; [| exact Hs]. intros it seg [(_ & Ht & _) _]. exact Ht.
        -- apply Forall_app. split.
           ++ apply Forall_forall. intros it Hit.
              destruct (Forall2_In_left _ _ _ Hs it Hit) as (seg & Hseg & Hp & _).
              exists lec, seg. cbn [In]. auto.
           ++ eapply Forall_impl; [| exact H3].
              intros a (lc & sg & Hl & Hrest). exists lc, sg. cbn [In]. auto.
      * exact IH.
    + destruct Hs as (-> & ->). split; reflexivity.
Qed.

(** The outcome of the flattener: it raises, and then [TypeError],
    exactly on the documents described by [document_type_error]. *)
Lemma flatten_segments_outcome (lectures : list lecture_doc) :
  match flatten_segments lectures with
  | Raise e => e = TypeError /\ document_type_error lectures = true
  | Ok items =>
      document_type_error lectures = false /\
      Forall2 (fun it seg => topic it = dict_get (seg_topic seg)) items (all_segments lectures)
  end.
Proof.
  unfold flatten_segments, enumerate.
  pose proof (flatten_lectures_from 0 lectures) as H.
  destruct (mapM flatten_lecture (enumerate_from 0 lectures)); cbn [bind].
  - destruct H as (H1 & H2 & _). auto.
  - exact H.
Qed.

Lemma lacks_mins_type_error lectures lec seg :
  In lec lectures -> In seg (segments_of lec) -> lacks_mins seg ->
  document_type_error lectures = true.
Proof.
  intros Hl Hs Hm. apply existsb_exists. exists lec. split; [exact Hl |].
  unfold lecture_type_error. apply orb_true_iff. right.
  apply existsb_exists. exists seg. split; [exact Hs |].
  unfold segment_type_error. red in Hm. rewrite Hm. reflexivity.
Qed.

(** C3, amended: a segment that lacks [mins] makes [flatten_segments]
    fail, with the [TypeError] of [float(None)]; the flattener raises no
    other error, so never a [MalformedSegmentError]; a segment that
    lacks [topic] is defaulted silently: whenever the flattener returns,
    the item of such a segment has the topic [None]. *)
Theorem flatten_segments_missing_fields (lectures : list lecture_doc) :
  (forall lec seg, In lec lectures -> In seg (segments_of lec) -> lacks_mins seg ->
                   flatten_segments lectures = Raise TypeError)
  /\ (forall e, flatten_segments lectures = Raise e -> e = TypeError)
  /\ (forall items, flatten_segments lectures = Ok items ->
        Forall2 (fun it seg => topic it = dict_get (seg_topic seg)
                               /\ (lacks_topic seg -> topic it = None))
                items (all_segments lectures)).
Proof.
  pose proof (flatten_segments_outcome lectures) as H.
  split; [| split].
  - intros lec seg Hl Hs Hm.
    pose proof (lacks_mins_type_error _ _ _ Hl Hs Hm) as Hd.
    destruct (flatten_segments lectures) as [items | e].
    + destruct H as [H _]. congruence.
    + destruct H as [-> _]. reflexivity.
  - intros e E. rewrite E in H. apply H.
  - intros items E. rewrite E in H. destruct H as [_ H].
    eapply Forall2_impl; [| exact H].
    intros it seg Ht. split; [exact Ht |].
    unfold lacks_topic. intros Ha. rewrite Ht, Ha. reflexivity.
Qed.

Lemma flatten_segments_origin lectures items :
  flatten_segments lectures = Ok items ->
  forall it, In it items ->
  exists lec seg,
    In lec lectures /\ In seg (segments_of lec) /\ flattened_from lec seg it.
Proof.
  unfold flatten_segments, enumerate. intros H.
  pose proof (flatten_lectures_from 0 lectures) as Hf.
  destruct (mapM flatten_lecture (enumerate_from 0 lectures)); cbn [bind] in H; [| discriminate].
  injection H as <-. destruct Hf as (_ & _ & Hf).
  rewrite Forall_forall in Hf. exact Hf.
Qed.

(** C3, as stated, fails: a segment without [topic] is flattened, with
    the topic [None], and a segment without [mins] raises [TypeError]. *)
Lemma flatten_segments_no_malformed_error :
  flatten_segments [lecture_of "L" [segment_without_topic]]
  = Ok [item_of 0 (lecture_of "L" [segment_without_topic]) 0 segment_without_topic f5_0 2 1]
  /\ topic (item_of 0 (lecture_of "L" [segment_without_topic]) 0 segment_without_topic f5_0 2 1)
     = None
  /\ flatten_segments [lecture_of "L" [segment_without_mins]] = Raise TypeError.
Proof. repeat split. Qed.

Lemma opt_string_eqb_eq a b : opt_string_eqb a b = true <-> a = b.
Proof.
  destruct a as [x |], b as [y |]; cbn; try (split; congruence).
  rewrite String.eqb_eq. split; congruence.
Qed.

Lemma opt_string_eqb_refl a : opt_string_eqb a a = true.
Proof. apply opt_string_eqb_eq. reflexivity. Qed.

Lemma mem_order_In o l : mem_order o l = true <-> In o l.
Proof.
  unfold mem_order. rewrite existsb_exists. split.
  - intros (x & Hx & E). apply Z.eqb_eq in E. now subst.
  - intros H. exists o. split; [exact H | apply Z.eqb_refl].
Qed.

(** *** Sorting by order *)

Lemma insert_by_order_perm x l : Permutation (insert_by_order x l) (x :: l).
Proof.
  induction l as [| y l IH]; cbn; [reflexivity |].
  destruct (order x <=? order y); [reflexivity |].
  rewrite IH. apply perm_swap.
Qed.

Lemma sort_by_order_perm segs : Permutation (sort_by_order segs) segs.
Proof.
  induction segs as [| x l IH]; cbn; [reflexivity |].
  rewrite insert_by_order_perm. now constructor.
Qed.

Lemma insert_by_order_sorted x l :
  StronglySorted order_le l -> StronglySorted order_le (insert_by_order x l).
Proof.
  induction 1 as [| y l Hs IH Hall]; cbn.
  - constructor; constructor.
  - destruct (Z.leb_spec (order x) (order y)) as [Hle | Hgt].
    + constructor; [constructor; assumption |].
      constructor; [exact Hle |].
      eapply Forall_impl; [| exact Hall]. unfold order_le. intros; lia.
    + constructor; [exact IH |].
      apply Forall_forall. intros z Hz.
      apply (Permutation_in _ (insert_by_order_perm x l)) in Hz.
      destruct Hz as [<- | Hz]; [unfold order_le; lia |].
      rewrite Forall_forall in Hall. auto.
Qed.

Lemma sort_by_order_sorted segs : StronglySorted order_le (sort_by_order segs).
Proof.
  induction segs as [| x l IH]; cbn; [constructor |].
  now apply insert_by_order_sorted.
Qed.

Lemma sort_by_order_In segs x : In x (sort_by_order segs) <-> In x segs.
Proof.
  split; apply Permutation_in; [| symmetry]; apply sort_by_order_perm.
Qed.

(** *** The gate loop *)





Lemma gate_loop_In avail segs x : In x (gate_loop avail segs) -> In x segs.
Proof.
  revert avail. induction segs as [| s segs IH]; intros avail; cbn [gate_loop]; [auto |].
  destruct ((order s =? 1) || mem_order (order s) avail); cbn [In]; intros H.
  - destruct H as [H | H]; eauto.
  - eauto.
Qed.

(** A retained segment has order 1, or the order after that of a
    retained segment (or after one that was available from the start). *)
Lemma gate_loop_kept avail segs x :
  In x (gate_loop avail segs) ->
  order x = 1 \/ In (order x) avail
  \/ exists y, In y (gate_loop avail segs) /\ order x = order y + 1.
Proof.
  revert avail. induction segs as [| s segs IH]; intros avail; cbn [gate_loop]; [intros [] |].
  destruct (order s =? 1) eqn:E1; cbn [orb].
  - intros [<- | H]; [left; lia |].
    destruct (IH _ H) as [H1 | [[H2 | H2] | (y & Hy & Ey)]]; cbn [In]; eauto 7.
  - destruct (mem_order (order s) avail) eqn:Em.
    + intros [<- | H]; [right; left; now apply mem_order_In |].
      destruct (IH _ H) as [H1 | [[H2 | H2] | (y & Hy & Ey)]]; cbn [In]; eauto 7.
    + apply IH.
Qed.

Lemma gate_loop_needs_order_1 segs :
  (forall x, In x segs -> order x <> 1) -> gate_loop [1] segs = [].
Proof.
  induction segs as [| s segs IH]; intros H; cbn [gate_loop]; [reflexivity |].
  assert (Hs : order s <> 1) by (apply H; left; reflexivity).
  unfold mem_order. cbn [existsb]. rewrite orb_false_r, orb_diag.
  apply Z.eqb_neq in Hs. rewrite Hs. apply IH. intros x Hx. apply H. now right.
Qed.

Lemma bind_Ok_inv {A B : Type} (c : result A) (k : A -> result B) (r : B) :
  bind c k = Ok r -> exists v, c = Ok v /\ k v = Ok r.
Proof. destruct c as [v | e]; cbn; [eauto | discriminate]. Qed.

Lemma mapM_In {A B : Type} (f : A -> result B) (xs : list A) (ys : list B) :
  mapM f xs = Ok ys -> forall y, In y ys -> exists x, In x xs /\ f x = Ok y.
Proof.
  revert ys. induction xs as [| x xs IH]; intros ys H y Hy; cbn [mapM] in H.
  - injection H as <-. destruct Hy.
  - apply bind_Ok_inv in H as (b & Hb & H).
    apply bind_Ok_inv in H as (bs & Hbs & H). injection H as <-.
    destruct Hy as [<- | Hy].
    + exists x. split; [left; reflexivity | exact Hb].
    + destruct (IH _ Hbs _ Hy) as (a & Ha & Hfa). exists a. split; [right |]; assumption.
Qed.

Lemma mapM_length {A B : Type} (f : A -> result B) (xs : list A) (ys : list B) :
  mapM f xs = Ok ys -> List.length ys = List.length xs.
Proof.
  revert ys. induction xs as [| x xs IH]; intros ys H; cbn [mapM] in H.
  - injection H as <-. reflexivity.
  - apply bind_Ok_inv in H as (b & Hb & H).
    apply bind_Ok_inv in H as (bs & Hbs & H). injection H as <-.
    cbn. f_equal. now apply IH.
Qed.

Lemma py_getitem_In {A : Type} (l : list A) (i : Z) (x : A) :
  py_getitem l i = Ok x -> In x l.
Proof.
  unfold py_getitem. intros H. apply bind_Ok_inv in H as (n & _ & H).
  destruct (nth_error l n) eqn:E; [| discriminate].
  injection H as <-. eapply nth_error_In; eassumption.
Qed.

(** *** Grouping by title *)

Lemma order_map_add_within seen m it :
  groups_within seen m -> groups_within (it :: seen) (order_map_add it m).
Proof.
  induction m as [| [k0 segs0] m IH]; intros Hm k segs Hin s Hs; cbn [order_map_add] in Hin.
  - destruct Hin as [E | []]. injection E as <- <-.
    destruct Hs as [<- | []]. split; [reflexivity | left; reflexivity].
  - destruct (opt_string_eqb k0 (lecture_title it)) eqn:Ek.
    + destruct Hin as [E | Hin].
      * injection E as <- <-. apply in_app_or in Hs as [Hs | [<- | []]].
        -- destruct (Hm k0 segs0 (or_introl eq_refl) s Hs). split; [| right]; assumption.
        -- apply opt_string_eqb_eq in Ek. split; [now symmetry | left; reflexivity].
      * destruct (Hm k segs (or_intror Hin) s Hs). split; [| right]; assumption.
    + destruct Hin as [E | Hin].
      * injection E as <- <-.
        destruct (Hm k0 segs0 (or_introl eq_refl) s Hs). split; [| right]; assumption.
      * apply (IH (fun k segs H => Hm k segs (or_intror H)) k segs Hin s Hs).
Qed.

Lemma order_map_within items : groups_within items (order_map items).
Proof.
  unfold order_map.
  assert (G : forall l seen m, groups_within seen m ->
              groups_within (rev l ++ seen)
                            (fold_left (fun m it => order_map_add it m) l m)).
  { induction l as [| x l IH]; intros seen m Hm; cbn [fold_left rev app]; [exact Hm |].
    rewrite <- app_assoc. cbn [app]. apply IH. now apply order_map_add_within. }
  specialize (G items [] [] ltac:(intros k segs [])).
  rewrite app_nil_r in G.
  intros k segs Hin s Hs. destruct (G k segs Hin s Hs) as [H1 H2].
  split; [exact H1 | now apply in_rev].
Qed.

(** An item that passes the gate is one of the items, and its lecture
    title carries an item of order 1 among them. *)
Lemma soft_order_gate_In items x :
  In x (soft_order_gate items) ->
  In x items /\
  exists y, In y items /\ lecture_title y = lecture_title x /\ order y = 1.
Proof.
  unfold soft_order_gate. rewrite in_flat_map. intros ([k segs] & Hin & Hx). cbn [snd] in Hx.
  unfold gate_lecture in Hx.
  pose proof (order_map_within items k segs Hin) as Hg.
  assert (Hxs : In x segs) by (apply sort_by_order_In; eapply gate_loop_In; eassumption).
  split; [apply (Hg x Hxs) |].
  destruct (existsb (fun y => order y =? 1) (sort_by_order segs)) eqn:E.
  - apply existsb_exists in E as (y & Hy & Ey). apply Z.eqb_eq in Ey.
    apply (proj1 (sort_by_order_In _ _)) in Hy. exists y.
    destruct (Hg y Hy) as [Ty Iy]. destruct (Hg x Hxs) as [Tx _].
    repeat split; congruence.
  - rewrite gate_loop_needs_order_1 in Hx; [destruct Hx |].
    intros y Hy Ey.
    assert (existsb (fun y => order y =? 1) (sort_by_order segs) = true); [| congruence].
    apply existsb_exists. exists y. split; [exact Hy | now apply Z.eqb_eq].
Qed.

Lemma exclude_completed_In completed items x :
  In x (exclude_completed completed items) <-> In x items /\ is_completed completed x = false.
Proof.
  unfold exclude_completed. rewrite filter_In, negb_true_iff. reflexivity.
Qed.

Lemma restrict_scope_In selected items x :
  In x (restrict_scope selected items) -> In x items.
Proof.
  unfold restrict_scope. destruct selected as [[| t ts] |]; auto.
  rewrite filter_In. tauto.
Qed.

Lemma eligible_items_In lectures completed selected items :
  eligible_items lectures completed selected = Ok items ->
  exists flat, flatten_segments lectures = Ok flat /\
  forall x, In x items ->
    In x flat /\ is_completed completed x = false /\
    exists y, In y flat /\ is_completed completed y = false /\
              lecture_title y = lecture_title x /\ order y = 1.
Proof.
  unfold eligible_items. intros H. apply bind_Ok_inv in H as (flat & Hflat & H).
  exists flat. split; [exact Hflat |].
  assert (G : forall x, In x (soft_order_gate
                (restrict_scope selected (exclude_completed completed flat))) ->
              In x flat /\ is_completed completed x = false /\
              exists y, In y flat /\ is_completed completed y = false /\
                        lecture_title y = lecture_title x /\ order y = 1).
  { intros x Hx. apply soft_order_gate_In in Hx as (Hx & y & Hy & Ty & Oy).
    apply restrict_scope_In, exclude_completed_In in Hx as [Hx Cx].
    apply restrict_scope_In, exclude_completed_In in Hy as [Hy Cy].
    repeat split; auto. exists y. auto. }
  destruct (is_empty flat); [injection H as <-; intros x [] |].
  destruct (is_empty _); [injection H as <-; intros x [] |].
  injection H as <-. exact G.
Qed.

(** Every record a selection returns is the [chosen_record] of one of the
    items it was given. *)
Lemma select_with_In choose items low_u high_u chosen total :
  select_with choose items low_u high_u = Ok (chosen, total) ->
  forall c, In c chosen -> exists it, In it items /\ c = chosen_record it.
Proof.
  unfold select_with, set_new. intros H.
  apply bind_Ok_inv in H as (scaled & Hsc & H).
  apply bind_Ok_inv in H as (dp0 & _ & H).
  apply bind_Ok_inv in H as (dp & _ & H).
  apply bind_Ok_inv in H as (best & _ & H).
  destruct (best <=? 0); [injection H as <- _; intros c [] |].
  apply bind_Ok_inv in H as (bt & _ & H).
  apply bind_Ok_inv in H as (ch & Hch & H). injection H as <- _.
  intros c Hc.
  destruct (mapM_In _ _ _ Hch c Hc) as (i & _ & Hi).
  apply bind_Ok_inv in Hi as (entry & Hentry & Hi). injection Hi as <-.
  apply py_getitem_In in Hentry.
  destruct (mapM_In _ _ _ Hsc entry Hentry) as (it & Hit & Hs).
  unfold scale_item in Hs. apply bind_Ok_inv in Hs as (w & _ & Hs). injection Hs as <-.
  exists it. split; [exact Hit | reflexivity].
Qed.

Lemma recommend_with_In choose lectures daily fatigue completed selected chosen total :
  recommend_with choose lectures daily fatigue completed selected = Ok (chosen, total) ->
  exists items, eligible_items lectures completed selected = Ok items /\
  forall c, In c chosen -> exists it, In it items /\ (c = it \/ c = chosen_record it).
Proof.
  unfold recommend_with. intros H.
  apply bind_Ok_inv in H as (items & Hitems & H). exists items. split; [exact Hitems |].
  destruct (is_empty items); [injection H as <- _; intros c [] |].
  apply bind_Ok_inv in H as ([low_u high_u] & _ & H).
  apply bind_Ok_inv in H as (low_mins & _ & H).
  destruct (flt _ low_mins).
  - injection H as <- _. intros c Hc. exists c. auto.
  - intros c Hc. destruct (select_with_In _ _ _ _ _ _ H c Hc) as (it & Hit & E). eauto.
Qed.

Lemma is_completed_true completed x :
  is_completed completed x = true
  <-> exists c, In c completed /\ c_lecture_title c = lecture_title x /\ c_topic c = topic x.
Proof.
  unfold is_completed. rewrite existsb_exists. split.
  - intros (c & Hc & E). apply andb_true_iff in E as [E1 E2].
    apply opt_string_eqb_eq in E1, E2. eauto.
  - intros (c & Hc & E1 & E2). exists c. split; [exact Hc |].
    rewrite E1, E2, !opt_string_eqb_refl. reflexivity.
Qed.

(** C6, amended: when every segment of order 1 of every lecture titled
    [title] is in [completed_courses], no returned segment carries that
    title.  Lectures are told apart by title only. *)
Theorem completed_first_segments_lock_title
        lectures daily_mins fatigue_score completed_courses selected_lectures
        (title : option string) chosen total :
  (forall lec seg,
      In lec lectures -> In seg (segments_of lec) ->
      dict_get (lec_title lec) = title -> dict_get_default (seg_order seg) 1 = Some 1 ->
      exists c, In c completed_courses
                /\ c_lecture_title c = title /\ c_topic c = dict_get (seg_topic seg)) ->
  recommend_segments lectures daily_mins fatigue_score completed_courses selected_lectures
  = Ok (chosen, total) ->
  forall c, In c chosen -> lecture_title c <> title.
Proof.
  intros Hdone Hrec c Hc Ht.
  apply recommend_with_In in Hrec as (items & Hitems & Hch).
  destruct (Hch c Hc) as (it & Hit & E).
  assert (Tit : lecture_title it = title) by (destruct E as [-> | ->]; exact Ht).
  apply eligible_items_In in Hitems as (flat & Hflat & Hel).
  destruct (Hel it Hit) as (_ & _ & y & Hy & Cy & Ty & Oy).
  destruct (flatten_segments_origin _ _ Hflat y Hy)
    as (lec & seg & Hl & Hs & Tl & Tp & _ & _ & Os).
  destruct (Hdone lec seg Hl Hs) as (d & Hd & D1 & D2); [congruence | congruence |].
  assert (is_completed completed_courses y = true); [| congruence].
  apply is_completed_true. exists d. repeat split; congruence.
Qed.

(** *** Ranges and indexing *)

Lemma range_up_nil a b : b <= a -> range_up a b = [].
Proof. intros H. unfold range_up. replace (Z.to_nat (b - a)) with O by lia. reflexivity. Qed.

Lemma range_up_cons a b : a < b -> range_up a b = a :: range_up (a + 1) b.
Proof.
  intros H. unfold range_up.
  replace (Z.to_nat (b - a)) with (S (Z.to_nat (b - (a + 1)))) by lia.
  cbn [seq map]. f_equal; [lia |].
  rewrite <- seq_shift, map_map. apply map_ext. intros k. lia.
Qed.

Lemma range_down_nil a b : a <= b -> range_down a b = [].
Proof. intros H. unfold range_down. replace (Z.to_nat (a - b)) with O by lia. reflexivity. Qed.

Lemma range_down_cons a b : b < a -> range_down a b = a :: range_down (a - 1) b.
Proof.
  intros H. unfold range_down.
  replace (Z.to_nat (a - b)) with (S (Z.to_nat (a - 1 - b))) by lia.
  cbn [seq map]. f_equal; [lia |].
  rewrite <- seq_shift, map_map. apply map_ext. intros k. lia.
Qed.

Lemma range_up_In a b x : In x (range_up a b) <-> a <= x < b.
Proof.
  unfold range_up. rewrite in_map_iff. split.
  - intros (k & <- & Hk). apply in_seq in Hk. lia.
  - intros H. exists (Z.to_nat (x - a)). split; [lia | apply in_seq; lia].
Qed.


Lemma py_index_in len i : 0 <= i < len -> py_index len i = Ok (Z.to_nat i).
Proof.
  intros H. unfold py_index.
  destruct (Z.leb_spec 0 i); [| lia]. destruct (Z.ltb_spec i len); [| lia]. reflexivity.
Qed.

Lemma py_index_above len i : 0 <= i -> len <= i -> py_index len i = Raise IndexError.
Proof.
  intros H0 H. unfold py_index.
  destruct (Z.leb_spec 0 i); [| lia]. destruct (Z.ltb_spec i len); [lia |].
  destruct (Z.ltb_spec i 0); [lia |]. reflexivity.
Qed.

Lemma py_index_Ok len i n : py_index len i = Ok n -> (n < Z.to_nat len)%nat.
Proof.
  unfold py_index.
  destruct (Z.leb_spec 0 i); destruct (Z.ltb_spec i len); cbn [andb];
    try (intros E; injection E as <-; lia);
    destruct (Z.ltb_spec i 0); destruct (Z.leb_spec (- len) i); cbn [andb];
    try discriminate; intros E; injection E as <-; lia.
Qed.

Lemma py_getitem_in {A : Type} (l : list A) (i : Z) (d : A) :
  0 <= i < Z.of_nat (List.length l) -> py_getitem l i = Ok (nth (Z.to_nat i) l d).
Proof.
  intros H. unfold py_getitem. rewrite py_index_in by exact H. cbn [bind].
  rewrite (nth_error_nth' l d) by lia. reflexivity.
Qed.

Lemma py_getitem_above {A : Type} (l : list A) (i : Z) :
  Z.of_nat (List.length l) <= i -> py_getitem l i = Raise IndexError.
Proof.
  intros H. unfold py_getitem. rewrite py_index_above by lia. reflexivity.
Qed.

Lemma py_setitem_in {A : Type} (l : list A) (i : Z) (v : A) :
  0 <= i < Z.of_nat (List.length l) -> py_setitem l i v = Ok (list_set (Z.to_nat i) v l).
Proof. intros H. unfold py_setitem. rewrite py_index_in by exact H. reflexivity. Qed.

Lemma list_set_length {A : Type} (n : nat) (v : A) (l : list A) :
  List.length (list_set n v l) = List.length l.
Proof.
  revert n. induction l as [| x l IH]; intros n; [destruct n; reflexivity |].
  destruct n; cbn; [reflexivity | now rewrite IH].
Qed.

Lemma nth_list_set {A : Type} (n p : nat) (v d : A) (l : list A) :
  (n < List.length l)%nat ->
  nth p (list_set n v l) d = if Nat.eqb p n then v else nth p l d.
Proof.
  revert n p. induction l as [| x l IH]; intros n p H; [cbn in H; lia |].
  destruct n, p; cbn; try reflexivity.
  apply IH. cbn in H. lia.
Qed.

Lemma nth_error_list_set_other {A : Type} (n p : nat) (v : A) (l : list A) :
  p <> n -> nth_error (list_set n v l) p = nth_error l p.
Proof.
  revert n p. induction l as [| x l IH]; intros n p H; [destruct n; reflexivity |].
  destruct n, p; cbn; try reflexivity; try lia.
  apply IH. lia.
Qed.

Lemma dp_at_list_set dp s p v :
  0 <= s < Z.of_nat (List.length dp) -> 0 <= p ->
  dp_at (list_set (Z.to_nat s) v dp) p = if p =? s then v else dp_at dp p.
Proof.
  intros Hs Hp. unfold dp_at. rewrite nth_list_set by lia.
  destruct (Z.eqb_spec p s) as [-> | Hne].
  - now rewrite Nat.eqb_refl.
  - destruct (Nat.eqb_spec (Z.to_nat p) (Z.to_nat s)); [lia | reflexivity].
Qed.

(** *** The table never loses its base entry *)




Lemma init_dp_Ok cap dp :
  init_dp cap = Ok dp ->
  0 <= cap /\ dp = -2 :: repeat (-1) (Z.to_nat cap).
Proof.
  unfold init_dp, py_setitem. intros H. apply bind_Ok_inv in H as (n & Hn & H).
  rewrite repeat_length in Hn. unfold py_index in Hn.
  destruct (Z.ltb_spec 0 (Z.of_nat (Z.to_nat (cap + 1)))) as [Hlt | Hge]; cbn in Hn.
  - injection Hn as <-. injection H as <-.
    replace (Z.to_nat (cap + 1)) with (S (Z.to_nat cap)) by lia.
    split; [lia | reflexivity].
  - destruct (Z.leb_spec (- Z.of_nat (Z.to_nat (cap + 1))) 0); cbn in Hn; discriminate.
Qed.

Lemma init_dp_nonneg cap :
  0 <= cap -> init_dp cap = Ok (-2 :: repeat (-1) (Z.to_nat cap)).
Proof.
  intros H. unfold init_dp. rewrite py_setitem_in by (rewrite repeat_length; lia).
  replace (Z.to_nat (cap + 1)) with (S (Z.to_nat cap)) by lia. reflexivity.
Qed.

(** *** The scans *)

Lemma scan_last_fold_found dp ss b r :
  foldM (scan_last dp) b ss = Ok r ->
  r = b \/ exists a, py_getitem dp r = Ok a /\ a <> -1.
Proof.
  revert b. induction ss as [| s ss IH]; intros b H; cbn [foldM] in H.
  - injection H as <-. now left.
  - apply bind_Ok_inv in H as (b1 & H1 & H).
    unfold scan_last in H1. apply bind_Ok_inv in H1 as (a & Ha & H1). injection H1 as <-.
    destruct (IH _ H) as [-> | Hr]; [| now right].
    destruct (Z.eqb_spec a (-1)); cbn [negb]; [now left | right; eauto].
Qed.

Lemma scan_first_found dp ss b r :
  scan_first dp b ss = Ok r ->
  (r = b /\ forall s, In s ss -> py_getitem dp s = Ok (-1))
  \/ (In r ss /\ exists a, py_getitem dp r = Ok a /\ a <> -1).
Proof.
  induction ss as [| s ss IH]; intros H; cbn [scan_first] in H.
  - injection H as <-. left. split; [reflexivity | intros s []].
  - apply bind_Ok_inv in H as (a & Ha & H).
    destruct (Z.eqb_spec a (-1)) as [-> | Hne]; cbn [negb] in H.
    + destruct (IH H) as [[-> Hall] | [Hin Hr]].
      * left. split; [reflexivity |]. intros s' [<- | Hs']; auto.
      * right. split; [now right | exact Hr].
    + injection H as <-. right. split; [now left | eauto].
Qed.




(** *** The chain invariant of the table *)

Lemma dp_chain_mono us n m dp : n <= m -> dp_chain us n dp -> dp_chain us m dp.
Proof.
  intros Hnm [Hh Hs]. split; [exact Hh |]. intros s Hr.
  destruct (Hs s Hr) as [H | (H1 & H2 & H3 & H4)]; [now left | right].
  repeat split; try assumption; lia.
Qed.

Lemma dp_head_at dp : dp_head dp -> dp_at dp 0 = -2.
Proof.
  unfold dp_head, dp_at. destruct dp as [| x dp]; [discriminate |].
  cbn. congruence.
Qed.

Lemma dp_chain_bound us n dp p :
  0 <= n -> dp_chain us n dp -> 0 <= p -> dp_at dp p < n.
Proof.
  intros Hn [Hh Hs] Hp.
  destruct (Z.eq_dec p 0) as [-> | Hp0]; [rewrite dp_head_at by exact Hh; lia |].
  destruct (Z_lt_le_dec p (Z.of_nat (List.length dp))) as [Hlt | Hge].
  - destruct (Hs p ltac:(lia)) as [-> | (H1 & _)]; lia.
  - unfold dp_at. rewrite nth_overflow by lia. lia.
Qed.

(** One pass of the inner loop, from [start] downward. *)
Lemma relax_pass us i w (Hi : 0 <= i) (Hw : 0 < w) (Hwi : weight us i = w) :
  forall n start dp,
    Z.to_nat (start - (w - 1)) = n ->
    start < Z.of_nat (List.length dp) ->
    dp_chain us (i + 1) dp ->
    (forall p, 0 <= p <= start -> dp_at dp p < i) ->
    exists dp',
      foldM (relax i w) dp (range_down start (w - 1)) = Ok dp'
      /\ List.length dp' = List.length dp
      /\ dp_chain us (i + 1) dp'.
Proof.
  induction n as [| n IH]; intros start dp Hn Hlen Hc Hlow.
  - rewrite range_down_nil by lia. exists dp. repeat split; try reflexivity; apply Hc.
  - rewrite range_down_cons by lia. cbn [foldM].
    assert (Hs : 0 <= start < Z.of_nat (List.length dp)) by lia.
    assert (Hsw : 0 <= start - w < Z.of_nat (List.length dp)) by lia.
    unfold relax at 1.
    rewrite (py_getitem_in dp start (-1)) by exact Hs. cbn [bind].
    fold (dp_at dp start).
    assert (Hsame : exists dp', foldM (relax i w) dp (range_down (start - 1) (w - 1)) = Ok dp'
                                /\ List.length dp' = List.length dp
                                /\ dp_chain us (i + 1) dp').
    { apply (IH (start - 1) dp); [lia | lia | exact Hc |]. intros p Hp. apply Hlow. lia. }
    destruct (Z.eqb_spec (dp_at dp start) (-1)) as [Es | Es]; [| exact Hsame].
    rewrite (py_getitem_in dp (start - w) (-1)) by exact Hsw. cbn [bind].
    fold (dp_at dp (start - w)).
    destruct (Z.eqb_spec (dp_at dp (start - w)) (-1)) as [Eb | Eb]; cbn [negb]; [exact Hsame |].
    rewrite py_setitem_in by exact Hs. cbn [bind].
    set (dp1 := list_set (Z.to_nat start) i dp).
    assert (Hl1 : List.length dp1 = List.length dp) by apply list_set_length.
    assert (Hat : forall p, 0 <= p -> dp_at dp1 p = if p =? start then i else dp_at dp p)
      by (intros p Hp; apply dp_at_list_set; assumption).
    destruct (IH (start - 1) dp1) as (dp' & Hf & Hl & Hc'); [lia | lia | | |].
    + destruct Hc as [Hh Hstep]. split.
      * unfold dp_head, dp1. rewrite nth_error_list_set_other by lia. exact Hh.
      * intros s Hsr. rewrite Hl1 in Hsr. rewrite (Hat s) by lia.
        destruct (Z.eqb_spec s start) as [-> | Hne].
        -- right. rewrite Hwi. rewrite (Hat (start - w)) by lia.
           destruct (Z.eqb_spec (start - w) start); [lia |].
           repeat split; try lia; try assumption.
           apply Hlow. lia.
        -- destruct (Hstep s Hsr) as [H | (H1 & H2 & H3 & H4)]; [now left | right].
           rewrite (Hat (s - weight us (dp_at dp s))) by lia.
           destruct (Z.eqb_spec (s - weight us (dp_at dp s)) start) as [E | _].
           ++ rewrite E in H3. contradiction.
           ++ repeat split; try assumption; lia.
    + intros p Hp. rewrite (Hat p) by lia.
      destruct (Z.eqb_spec p start); [lia |]. apply Hlow. lia.
    + exists dp'. repeat split; [exact Hf | congruence | apply Hc' | apply Hc'].
Qed.

Lemma fill_item_chain us cap i w dp :
  nth_error us i = Some w ->
  Z.of_nat (List.length dp) = cap + 1 ->
  dp_chain us (Z.of_nat i) dp ->
  exists dp',
    fill_item cap dp (i, w) = Ok dp'
    /\ List.length dp' = List.length dp
    /\ dp_chain us (Z.of_nat i + 1) dp'.
Proof.
  intros Hw Hlen Hc. unfold fill_item.
  destruct (Z.leb_spec w 0) as [Hle | Hgt].
  - exists dp. split; [reflexivity | split; [reflexivity |]].
    apply (dp_chain_mono us (Z.of_nat i)); [lia | exact Hc].
  - apply (relax_pass us (Z.of_nat i) w ltac:(lia) Hgt) with (n := Z.to_nat (cap - (w - 1))).
    + unfold weight. rewrite Nat2Z.id. now apply nth_error_nth.
    + reflexivity.
    + lia.
    + apply (dp_chain_mono us (Z.of_nat i)); [lia | exact Hc].
    + intros p Hp. apply (dp_chain_bound us); [lia | exact Hc | lia].
Qed.

Lemma fill_from_chain us cap :
  forall suf pre dp,
    us = pre ++ suf ->
    Z.of_nat (List.length dp) = cap + 1 ->
    dp_chain us (Z.of_nat (List.length pre)) dp ->
    exists dp',
      foldM (fill_item cap) dp (enumerate_from (List.length pre) suf) = Ok dp'
      /\ List.length dp' = List.length dp
      /\ dp_chain us (Z.of_nat (List.length us)) dp'.
Proof.
  induction suf as [| w suf IH]; intros pre dp Hus Hlen Hc; cbn [enumerate_from foldM].
  - exists dp. split; [reflexivity | split; [reflexivity |]].
    rewrite Hus at 2. rewrite app_nil_r. exact Hc.
  - destruct (fill_item_chain us cap (List.length pre) w dp) as (dp1 & H1 & Hl1 & Hc1);
      [| exact Hlen | exact Hc |].
    { rewrite Hus, nth_error_app2 by lia. rewrite Nat.sub_diag. reflexivity. }
    rewrite H1. cbn [bind].
    destruct (IH (pre ++ [w]) dp1) as (dp' & H2 & Hl2 & Hc2).
    + rewrite Hus, <- app_assoc. reflexivity.
    + lia.
    + rewrite length_app. cbn [List.length]. rewrite Nat2Z.inj_add. exact Hc1.
    + rewrite length_app in H2. cbn [List.length] in H2.
      replace (List.length pre + 1)%nat with (S (List.length pre)) in H2 by lia.
      exists dp'. repeat split; [exact H2 | congruence | apply Hc2 | apply Hc2].
Qed.

Lemma init_dp_chain us cap :
  0 <= cap -> exists dp0,
    init_dp cap = Ok dp0 /\ Z.of_nat (List.length dp0) = cap + 1 /\ dp_chain us 0 dp0.
Proof.
  intros Hcap. exists (-2 :: repeat (-1) (Z.to_nat cap)).
  split; [now apply init_dp_nonneg |]. split.
  - cbn [List.length]. rewrite repeat_length. lia.
  - split; [reflexivity |]. intros s Hs. left.
    unfold dp_at. replace (Z.to_nat s) with (S (Z.to_nat (s - 1))) by lia. cbn [nth].
    apply nth_repeat.
Qed.

(** Filling the table never raises, and establishes the invariant. *)
Lemma fill_dp_chain us cap :
  0 <= cap ->
  exists dp0 dp,
    init_dp cap = Ok dp0 /\ fill_dp cap us dp0 = Ok dp
    /\ Z.of_nat (List.length dp) = cap + 1
    /\ dp_chain us (Z.of_nat (List.length us)) dp.
Proof.
  intros Hcap. destruct (init_dp_chain us cap Hcap) as (dp0 & H0 & Hl0 & Hc0).
  destruct (fill_from_chain us cap us [] dp0 eq_refl Hl0 Hc0) as (dp & H1 & Hl1 & Hc1).
  exists dp0, dp. repeat split; [exact H0 | exact H1 | congruence | apply Hc1 | apply Hc1].
Qed.

(** *** The chosen capacity *)

Lemma choose_best_found dp low_u cap r :
  choose_best dp low_u cap = Ok r ->
  r = -1 \/ exists a, py_getitem dp r = Ok a /\ a <> -1.
Proof.
  unfold choose_best. intros H.
  apply bind_Ok_inv in H as (b1 & H1 & H).
  apply scan_last_fold_found in H1.
  destruct (Z.eqb_spec b1 (-1)) as [-> | Hne].
  - apply bind_Ok_inv in H as (b2 & H2 & H).
    apply scan_first_found in H2.
    destruct (Z.eqb_spec b2 (-1)) as [-> | Hne2].
    + apply scan_first_found in H as [[-> _] | [_ Hr]]; auto.
    + injection H as <-. destruct H2 as [[-> _] | [_ Hr]]; auto.
  - injection H as <-. destruct H1 as [-> | Hr]; auto.
Qed.

Lemma choose_best_positive dp low_u cap best :
  choose_best dp low_u cap = Ok best -> 0 < best ->
  best < Z.of_nat (List.length dp) /\ dp_at dp best <> -1.
Proof.
  intros H Hpos. apply choose_best_found in H as [-> | (a & Ha & Hne)]; [lia |].
  destruct (Z_lt_le_dec best (Z.of_nat (List.length dp))) as [Hlt | Hge].
  - split; [exact Hlt |].
    rewrite (py_getitem_in dp best (-1)) in Ha by lia. injection Ha as <-. exact Hne.
  - rewrite py_getitem_above in Ha by exact Hge. discriminate.
Qed.

(** *** The reconstruction *)

Lemma py_getitem_scaled (scaled : list (Z * item)) i :
  0 <= i < Z.of_nat (List.length scaled) ->
  exists entry, py_getitem scaled i = Ok entry
                /\ fst entry = weight (map fst scaled) i
                /\ nth_error scaled (Z.to_nat i) = Some entry.
Proof.
  intros Hi. destruct (nth_error scaled (Z.to_nat i)) as [entry |] eqn:E.
  - exists entry. unfold py_getitem. rewrite py_index_in by exact Hi. cbn [bind].
    rewrite E. split; [reflexivity |]. split; [| reflexivity].
    unfold weight. symmetry. apply nth_error_nth.
    rewrite nth_error_map, E. reflexivity.
  - apply nth_error_None in E. lia.
Qed.

Lemma backtrack_chain scaled dp :
  dp_chain (map fst scaled) (Z.of_nat (List.length scaled)) dp ->
  forall fuel chosen cur bound,
    0 <= cur < Z.of_nat (List.length dp) ->
    cur = 0 \/ (dp_at dp cur <> -1 /\ dp_at dp cur < bound) ->
    Forall (fun c => bound <= c) chosen ->
    0 <= bound < Z.of_nat fuel ->
    exists chain,
      backtrack fuel dp scaled chosen cur
      = Ok {| bt_chosen := chosen ++ chain; bt_cur := 0; bt_exit := ExitCondition |}
      /\ StronglySorted Z.gt chain
      /\ Forall (fun i => 0 <= i < bound) chain
      /\ chain_weight (map fst scaled) chain = cur.
Proof.
  intros [Hh Hstep]. induction fuel as [| fuel IH]; intros chosen cur bound Hcur Hreach Hch Hb;
    [lia |].
  cbn [backtrack]. unfold set_contains, set_add. destruct (Z.leb_spec cur 0) as [H0 | Hpos].
  - assert (cur = 0) as -> by lia. exists []. rewrite app_nil_r.
    repeat split; constructor.
  - destruct Hreach as [-> | [Hne Hlt]]; [lia |].
    destruct (Hstep cur ltac:(lia)) as [E | (Hi & Hw & Hp1 & Hp2)]; [contradiction |].
    set (i := dp_at dp cur) in *. set (w := weight (map fst scaled) i) in *.
    rewrite (py_getitem_in dp cur (-1)) by lia. fold (dp_at dp cur). fold i. cbn [bind].
    assert (Hnot : existsb (Z.eqb i) chosen = false).
    { apply not_true_is_false. intros Hex. apply existsb_exists in Hex as (c & Hc & Ec).
      apply Z.eqb_eq in Ec. subst c. rewrite Forall_forall in Hch. specialize (Hch i Hc). lia. }
    rewrite Hnot.
    destruct (py_getitem_scaled scaled i Hi) as (entry & -> & Hfst & _). cbn [bind].
    rewrite Hfst. fold w.
    destruct (IH (chosen ++ [i]) (cur - w) i) as (chain & Hbt & Hs & Hall & Hsum).
    + lia.
    + destruct (Z.eq_dec (cur - w) 0); [now left | right]. split; assumption.
    + apply Forall_app. split.
      * eapply Forall_impl; [| exact Hch]. cbn. intros; lia.
      * constructor; [lia | constructor].
    + lia.
    + exists (i :: chain). rewrite <- app_assoc in Hbt. cbn [app] in Hbt.
      split; [exact Hbt |]. split; [| split].
      * constructor; [exact Hs |]. eapply Forall_impl; [| exact Hall]. cbn. intros; lia.
      * constructor; [lia |]. eapply Forall_impl; [| exact Hall]. cbn. intros; lia.
      * unfold chain_weight in *. cbn [map fold_right]. fold w. lia.
Qed.

(** C10: whenever a positive capacity [best] has been chosen, the
    reconstruction leaves its loop because [cur] has reached 0 exactly,
    never through the repeated-index guard and within the iteration
    bound; the item indices it collects are strictly decreasing, valid,
    and their weights add up to [best]. *)
Theorem backtrack_never_revisits (scaled : list (Z * item)) (low_u high_u : Z)
        (dp0 dp : list Z) (best : Z) :
  init_dp (Z.min (sum_units scaled) high_u) = Ok dp0 ->
  fill_dp (Z.min (sum_units scaled) high_u) (map fst scaled) dp0 = Ok dp ->
  choose_best dp low_u (Z.min (sum_units scaled) high_u) = Ok best ->
  0 < best ->
  exists chain,
    backtrack (S (List.length scaled)) dp scaled [] best
    = Ok {| bt_chosen := chain; bt_cur := 0; bt_exit := ExitCondition |}
    /\ StronglySorted Z.gt chain
    /\ Forall (fun i => 0 <= i < Z.of_nat (List.length scaled)) chain
    /\ chain_weight (map fst scaled) chain = best.
Proof.
  intros H0 H1 Hbest Hpos.
  set (cap := Z.min (sum_units scaled) high_u) in *.
  destruct (init_dp_Ok _ _ H0) as [Hcap _].
  destruct (fill_dp_chain (map fst scaled) cap Hcap) as (dp0' & dp' & E0 & E1 & Hlen & Hc).
  rewrite H0 in E0. injection E0 as <-. rewrite H1 in E1. injection E1 as <-.
  rewrite length_map in Hc.
  destruct (choose_best_positive _ _ _ _ Hbest Hpos) as [Hlt Hne].
  destruct (backtrack_chain scaled dp Hc (S (List.length scaled)) [] best
              (Z.of_nat (List.length scaled))) as (chain & Hbt & Hs & Hall & Hsum).
  - lia.
  - right. split; [exact Hne |].
    apply (dp_chain_bound (map fst scaled)); [lia | exact Hc | lia].
  - constructor.
  - lia.
  - exists chain. cbn [app] in Hbt. auto.
Qed.

(** *** Sets of integers *)

Lemma table_keys_app t1 t2 : table_keys (t1 ++ t2) = table_keys t1 ++ table_keys t2.
Proof. unfold table_keys. apply flat_map_app. Qed.

Lemma table_keys_unused n : table_keys (repeat None n) = [].
Proof. induction n as [| n IH]; [reflexivity | exact IH]. Qed.

Lemma table_keys_set t n k :
  nth_error t n = Some None ->
  Permutation (table_keys (list_set n (Some k) t)) (k :: table_keys t).
Proof.
  revert n. induction t as [| slot t IH]; intros n Hn.
  - destruct n; discriminate.
  - destruct n as [| n]; cbn in Hn.
    + injection Hn as ->. reflexivity.
    + cbn [list_set]. change (table_keys (slot :: list_set n (Some k) t))
        with (match slot with Some k0 => [k0] | None => [] end
              ++ table_keys (list_set n (Some k) t)).
      change (table_keys (slot :: t))
        with (match slot with Some k0 => [k0] | None => [] end ++ table_keys t).
      rewrite (IH n Hn). symmetry. apply Permutation_middle.
Qed.

Lemma linear_probe_unused t probes : forall i slot,
  linear_probe t i probes = Some slot -> nth_error t (Z.to_nat slot) = Some None.
Proof.
  induction probes as [| probes IH]; intros i slot; cbn [linear_probe];
    destruct (nth_error t (Z.to_nat i)) as [[k |] |] eqn:E; intros H;
    try discriminate; try (injection H as <-; exact E); eauto.
Qed.

Lemma find_slot_unused t mask fuel : forall perturb i slot,
  find_slot fuel t mask perturb i = Some slot -> nth_error t (Z.to_nat slot) = Some None.
Proof.
  induction fuel as [| fuel IH]; intros perturb i slot; cbn [find_slot]; [discriminate |].
  destruct (linear_probe t i _) as [s |] eqn:E.
  - intros H. injection H as <-. eapply linear_probe_unused; exact E.
  - apply IH.
Qed.

Lemma set_insert_clean_keys t k :
  Permutation (table_keys (set_insert_clean t k)) (k :: table_keys t).
Proof.
  unfold set_insert_clean.
  destruct (find_slot _ t _ _ _) as [slot |] eqn:E.
  - apply table_keys_set. eapply find_slot_unused; exact E.
  - rewrite table_keys_app. symmetry. apply Permutation_cons_append.
Qed.

Lemma set_insert_all_keys ks : forall t,
  Permutation (table_keys (fold_left set_insert_clean ks t)) (table_keys t ++ ks).
Proof.
  induction ks as [| k ks IH]; intros t; cbn [fold_left].
  - rewrite app_nil_r. reflexivity.
  - rewrite IH, set_insert_clean_keys. cbn [app]. apply Permutation_middle.
Qed.

Lemma set_table_resize_keys t minused :
  Permutation (table_keys (set_table_resize t minused)) (table_keys t).
Proof.
  unfold set_table_resize. rewrite set_insert_all_keys, table_keys_unused. reflexivity.
Qed.

Lemma set_add_entry_keys t k :
  ~ In k (table_keys t) ->
  Permutation (table_keys (set_add_entry t k)) (k :: table_keys t).
Proof.
  intros Hk. unfold set_add_entry.
  destruct (existsb (Z.eqb k) (table_keys t)) eqn:E.
  - apply existsb_exists in E as (x & Hx & Ex). apply Z.eqb_eq in Ex. subst x. contradiction.
  - destruct (_ <? _).
    + apply set_insert_clean_keys.
    + rewrite set_table_resize_keys. apply set_insert_clean_keys.
Qed.

Lemma set_add_all_keys ks : forall t,
  NoDup ks -> (forall k, In k ks -> ~ In k (table_keys t)) ->
  Permutation (table_keys (fold_left set_add_entry ks t)) (table_keys t ++ ks).
Proof.
  induction ks as [| k ks IH]; intros t Hnd Hfresh; cbn [fold_left].
  - rewrite app_nil_r. reflexivity.
  - inversion Hnd as [| ? ? Hk Hnd']; subst.
    pose proof (set_add_entry_keys t k (Hfresh k (or_introl eq_refl))) as Hp.
    rewrite IH; [| exact Hnd' |].
    + rewrite Hp. cbn [app]. apply Permutation_middle.
    + intros x Hx Hin. apply (Permutation_in _ Hp) in Hin. destruct Hin as [<- | Hin].
      * contradiction.
      * exact (Hfresh x (or_intror Hx) Hin).
Qed.

(** Iterating over a set goes once through each key that was inserted. *)
Lemma set_iter_Permutation insertions :
  NoDup insertions -> Permutation (set_iter insertions) insertions.
Proof.
  intros Hnd. unfold set_iter.
  rewrite set_add_all_keys; [| exact Hnd |].
  - rewrite table_keys_unused. reflexivity.
  - intros k _. rewrite table_keys_unused. intros [].
Qed.

(** *** The probe sequence reaches every slot *)

Lemma odd_mul_divide (n : nat) : forall o x,
  Z.odd o = true -> (2 ^ Z.of_nat n | o * x) -> (2 ^ Z.of_nat n | x).
Proof.
  induction n as [| n IH]; intros o x Ho Hd.
  - apply Z.divide_1_l.
  - rewrite Nat2Z.inj_succ, Z.pow_succ_r in * by lia.
    assert (Hx : Z.even x = true).
    { destruct Hd as [q Hq].
      assert (He : Z.even (o * x) = true)
        by (rewrite Hq; replace (q * (2 * 2 ^ Z.of_nat n)) with (2 * (q * 2 ^ Z.of_nat n)) by ring;
            apply Z.even_even).
      rewrite Z.even_mul, <- Z.negb_odd, Ho in He. exact He. }
    apply Z.even_spec in Hx as [x' ->].
    replace (o * (2 * x')) with (2 * (o * x')) in Hd by ring.
    apply Z.mul_divide_cancel_l in Hd; [| lia].
    apply Z.mul_divide_mono_l. now apply (IH o).
Qed.

Lemma pow_mod_one b m e : 1 < m -> b mod m = 1 -> 0 <= e -> b ^ e mod m = 1.
Proof.
  intros Hm Hb He. pattern e. apply natlike_ind; [| | exact He].
  - change (b ^ 0) with 1. apply Z.mod_small. lia.
  - intros x Hx IH. rewrite Z.pow_succ_r by exact Hx.
    rewrite Z.mul_mod, Hb, IH by lia. apply Z.mod_small. lia.
Qed.

Lemma five_pow_mod_4 e : 0 <= e -> 5 ^ e mod 4 = 1.
Proof. apply pow_mod_one; [lia | reflexivity]. Qed.

Lemma five_pow_odd_mod_8 e : 0 <= e -> 5 ^ (2 * e + 1) mod 8 = 5.
Proof.
  intros He. rewrite Z.pow_add_r, Z.pow_mul_r, Z.pow_1_r by lia.
  change (5 ^ 2) with 25. rewrite <- Z.mul_mod_idemp_l by lia.
  rewrite (pow_mod_one 25 8 e) by (try reflexivity; lia). reflexivity.
Qed.

(** No power of 5 with an exponent below [2^k] is 1 modulo [2^(k+2)]. *)
Lemma five_order (k : nat) : forall d,
  0 < d < 2 ^ Z.of_nat k -> ~ (2 ^ Z.of_nat (k + 2) | 5 ^ d - 1).
Proof.
  induction k as [| k IH]; intros d Hd Hdiv.
  - cbn in Hd. lia.
  - rewrite Nat2Z.inj_succ, Z.pow_succ_r in Hd by lia.
    change (S k + 2)%nat with (S (k + 2)) in Hdiv.
    rewrite Nat2Z.inj_succ, Z.pow_succ_r in Hdiv by lia.
    destruct (Z.even d) eqn:Ed.
    + apply Z.even_spec in Ed as [e ->].
      assert (He : 0 < e < 2 ^ Z.of_nat k) by lia.
      pose proof (five_pow_mod_4 e ltac:(lia)) as H4.
      pose proof (Z.div_mod (5 ^ e) 4 ltac:(lia)) as Hq. rewrite H4 in Hq.
      set (q := 5 ^ e / 4) in *.
      assert (E : 5 ^ (2 * e) - 1 = 2 * ((2 * q + 1) * (5 ^ e - 1))).
      { replace (2 * e) with (e + e) by lia. rewrite Z.pow_add_r by lia.
        rewrite Hq. ring. }
      rewrite E in Hdiv. apply Z.mul_divide_cancel_l in Hdiv; [| lia].
      apply odd_mul_divide in Hdiv; [| apply Z.odd_odd].
      exact (IH e He Hdiv).
    + assert (Ho : Z.odd d = true) by (rewrite <- Z.negb_even, Ed; reflexivity).
      apply Z.odd_spec in Ho as [e ->].
      pose proof (five_pow_odd_mod_8 e ltac:(lia)) as H8.
      assert (H8' : (8 | 5 ^ (2 * e + 1) - 1)).
      { eapply Z.divide_trans; [| exact Hdiv].
        exists (2 ^ Z.of_nat k). rewrite Nat2Z.inj_add, Z.pow_add_r by lia.
        change (2 ^ Z.of_nat 2) with 4. ring. }
      apply Z.mod_divide in H8'; [| lia].
      rewrite Zminus_mod, H8 in H8'. discriminate H8'.
Qed.

Lemma jump_closed_form (k : nat) (a : Z) (n : nat) :
  (4 * Nat.iter n (jump k) a + 1) mod 2 ^ Z.of_nat (k + 2)
  = (5 ^ Z.of_nat n * (4 * a + 1)) mod 2 ^ Z.of_nat (k + 2).
Proof.
  assert (HM : 2 ^ Z.of_nat (k + 2) = 4 * 2 ^ Z.of_nat k).
  { rewrite Nat2Z.inj_add, Z.pow_add_r by lia. change (2 ^ Z.of_nat 2) with 4. ring. }
  assert (Hk : 0 < 2 ^ Z.of_nat k) by (apply Z.pow_pos_nonneg; lia).
  induction n as [| n IH].
  - cbn [Nat.iter]. change (5 ^ Z.of_nat 0) with 1. rewrite Z.mul_1_l. reflexivity.
  - change (Nat.iter (S n) (jump k) a) with (jump k (Nat.iter n (jump k) a)).
    set (g := Nat.iter n (jump k) a) in *. unfold jump.
    pose proof (Z.div_mod (g * 5 + 1) (2 ^ Z.of_nat k) ltac:(lia)) as Hq.
    set (q := (g * 5 + 1) / 2 ^ Z.of_nat k) in *.
    replace (4 * ((g * 5 + 1) mod 2 ^ Z.of_nat k) + 1)
      with (5 * (4 * g + 1) + (- q) * 2 ^ Z.of_nat (k + 2)) by (rewrite HM; lia).
    rewrite Z.mod_add by lia.
    rewrite <- Z.mul_mod_idemp_r, IH, Z.mul_mod_idemp_r by lia.
    rewrite Nat2Z.inj_succ, Z.pow_succ_r by lia. f_equal. ring.
Qed.

Lemma jump_iter_range (k : nat) (a : Z) (n : nat) :
  0 <= a < 2 ^ Z.of_nat k -> 0 <= Nat.iter n (jump k) a < 2 ^ Z.of_nat k.
Proof.
  intros Ha. destruct n as [| n]; [exact Ha |].
  change (Nat.iter (S n) (jump k) a) with (jump k (Nat.iter n (jump k) a)). unfold jump.
  apply Z.mod_pos_bound. apply Z.pow_pos_nonneg; lia.
Qed.

Lemma jump_iter_injective (k : nat) (a : Z) (s t : nat) :
  (s < t)%nat -> Z.of_nat t < 2 ^ Z.of_nat k + Z.of_nat s ->
  Nat.iter s (jump k) a <> Nat.iter t (jump k) a.
Proof.
  intros Hst Ht E.
  pose proof (jump_closed_form k a s) as Hs. pose proof (jump_closed_form k a t) as Htt.
  rewrite E, Htt in Hs.
  set (M := 2 ^ Z.of_nat (k + 2)) in *.
  assert (HM : 0 < M) by (apply Z.pow_pos_nonneg; lia).
  set (c := 4 * a + 1) in *.
  set (d := Z.of_nat t - Z.of_nat s).
  assert (Hdiv : (M | 5 ^ Z.of_nat s * c * (5 ^ d - 1))).
  { replace (5 ^ Z.of_nat s * c * (5 ^ d - 1))
      with (5 ^ Z.of_nat t * c - 5 ^ Z.of_nat s * c).
    - apply Z.mod_divide; [lia |]. rewrite Zminus_mod, Hs, Z.sub_diag. reflexivity.
    - replace (Z.of_nat t) with (Z.of_nat s + d) by (unfold d; lia).
      rewrite Z.pow_add_r by (unfold d; lia). ring. }
  apply odd_mul_divide in Hdiv.
  - apply (five_order k d); [unfold d; lia | exact Hdiv].
  - rewrite Z.odd_mul. apply andb_true_intro. split.
    + destruct s as [| s]; [reflexivity |]. rewrite Z.odd_pow by lia. reflexivity.
    + unfold c. replace (4 * a + 1) with (2 * (2 * a) + 1) by ring. apply Z.odd_odd.
Qed.

Lemma NoDup_map_seq {A : Type} (f : nat -> A) (n : nat) :
  (forall s t, (s < t < n)%nat -> f s <> f t) -> NoDup (map f (seq 0 n)).
Proof.
  intros Hinj. induction n as [| n IH].
  - constructor.
  - rewrite seq_S, map_app. cbn [map plus]. apply NoDup_app.
    + apply IH. intros s t Hst. apply Hinj. lia.
    + constructor; [intros [] | constructor].
    + intros x Hx [<- | []]. apply in_map_iff in Hx as (s & Es & Hs).
      apply in_seq in Hs. apply (Hinj s n); [lia | exact Es].
Qed.

(** From any slot the jumps reach every slot within [2^k] steps. *)
Lemma jump_reaches (k : nat) (a j : Z) :
  0 <= a < 2 ^ Z.of_nat k -> 0 <= j < 2 ^ Z.of_nat k ->
  exists n, (n < 2 ^ k)%nat /\ Nat.iter n (jump k) a = j.
Proof.
  intros Ha Hj.
  assert (HN : Z.of_nat (2 ^ k) = 2 ^ Z.of_nat k).
  { rewrite Nat2Z.inj_pow. reflexivity. }
  set (L := map (fun n => Nat.iter n (jump k) a) (seq 0 (2 ^ k))).
  set (R := map Z.of_nat (seq 0 (2 ^ k))).
  assert (Hnd : NoDup L).
  { apply NoDup_map_seq. intros s t Hst. apply jump_iter_injective; lia. }
  assert (Hincl : incl L R).
  { intros x Hx. apply in_map_iff in Hx as (n & <- & _).
    pose proof (jump_iter_range k a n Ha) as Hr.
    apply in_map_iff. exists (Z.to_nat (Nat.iter n (jump k) a)).
    split; [lia |]. apply in_seq. lia. }
  assert (Hlen : (List.length R <= List.length L)%nat)
    by (unfold L, R; rewrite !length_map; lia).
  pose proof (NoDup_length_incl Hnd Hlen Hincl) as Hback.
  assert (HjR : In j R).
  { apply in_map_iff. exists (Z.to_nat j). split; [lia |]. apply in_seq. lia. }
  apply Hback in HjR. apply in_map_iff in HjR as (n & En & Hn).
  apply in_seq in Hn. exists n. split; [lia | exact En].
Qed.

Lemma linear_probe_first t i probes :
  linear_probe t i probes = None -> nth_error t (Z.to_nat i) <> Some None.
Proof.
  destruct probes; cbn [linear_probe];
    destruct (nth_error t (Z.to_nat i)) as [[k |] |]; intros H; congruence.
Qed.

Lemma find_slot_none t mask fuel : forall perturb i,
  find_slot fuel t mask perturb i = None ->
  forall n, (n < fuel)%nat -> nth_error t (Z.to_nat (slot_at n mask perturb i)) <> Some None.
Proof.
  induction fuel as [| fuel IH]; intros perturb i H n Hn; [lia |].
  cbn [find_slot] in H.
  destruct (linear_probe t i _) as [slot |] eqn:E; [discriminate |].
  destruct n as [| n]; cbn [slot_at].
  - eapply linear_probe_first; exact E.
  - apply (IH _ _ H). lia.
Qed.

Lemma slot_at_add mask a : forall b perturb i,
  slot_at (a + b) mask perturb i
  = slot_at b mask (Z.shiftr perturb (5 * Z.of_nat a)) (slot_at a mask perturb i).
Proof.
  induction a as [| a IH]; intros b perturb i.
  - cbn [plus slot_at]. change (5 * Z.of_nat 0) with 0. rewrite Z.shiftr_0_r. reflexivity.
  - cbn [plus slot_at]. rewrite IH. unfold PERTURB_SHIFT.
    rewrite Z.shiftr_shiftr by lia. f_equal. f_equal. lia.
Qed.

Lemma slot_at_jump (k : nat) n : forall i,
  slot_at n (2 ^ Z.of_nat k - 1) 0 i = Nat.iter n (jump k) i.
Proof.
  induction n as [| n IH]; intros i; [reflexivity |].
  cbn [slot_at]. rewrite Z.shiftr_0_l, Z.add_0_r, IH.
  rewrite Nat.iter_succ_r. f_equal. unfold jump.
  rewrite <- Z.land_ones by lia. f_equal. rewrite Z.ones_equiv. lia.
Qed.

Lemma slot_at_range (k : nat) n : forall perturb i,
  0 <= perturb -> 0 <= i < 2 ^ Z.of_nat k ->
  0 <= slot_at n (2 ^ Z.of_nat k - 1) perturb i < 2 ^ Z.of_nat k.
Proof.
  induction n as [| n IH]; intros perturb i Hp Hi; cbn [slot_at]; [exact Hi |].
  apply IH; [apply Z.shiftr_nonneg; exact Hp |].
  replace (2 ^ Z.of_nat k - 1) with (Z.ones (Z.of_nat k)) by (rewrite Z.ones_equiv; lia).
  rewrite Z.land_ones by lia. apply Z.mod_pos_bound. apply Z.pow_pos_nonneg; lia.
Qed.

(** The probe loop finds a slot: in a table of [2^k] slots one of which
    is unused, it ends within [14 + 2^k] jumps. *)
Lemma find_slot_total (t : table) (k : nat) (perturb i : Z) (j : nat) :
  List.length t = (2 ^ k)%nat ->
  0 <= perturb < 2 ^ 64 -> 0 <= i < 2 ^ Z.of_nat k ->
  nth_error t j = Some None ->
  exists slot, find_slot (insert_fuel t) t (Z.of_nat (List.length t) - 1) perturb i
               = Some slot.
Proof.
  intros Hlen Hp Hi Hj.
  assert (HN : Z.of_nat (2 ^ k) = 2 ^ Z.of_nat k) by (rewrite Nat2Z.inj_pow; reflexivity).
  rewrite Hlen, HN.
  destruct (find_slot _ t _ perturb i) as [slot |] eqn:E; [eauto | exfalso].
  assert (Hjr : 0 <= Z.of_nat j < 2 ^ Z.of_nat k).
  { assert (j < List.length t)%nat by (apply nth_error_Some; congruence). lia. }
  pose proof (slot_at_range k 13 perturb i ltac:(lia) Hi) as Ha.
  destruct (jump_reaches k _ (Z.of_nat j) Ha Hjr) as (n & Hn & En).
  apply (find_slot_none _ _ _ _ _ E (13 + n)%nat).
  - unfold insert_fuel. rewrite Hlen. lia.
  - rewrite slot_at_add.
    replace (Z.shiftr perturb (5 * Z.of_nat 13)) with 0.
    + rewrite slot_at_jump, En, Nat2Z.id. exact Hj.
    + rewrite Z.shiftr_div_pow2 by lia. symmetry. apply Z.div_small.
      change (5 * Z.of_nat 13) with 65.
      assert (2 ^ 64 < 2 ^ 65) by reflexivity. lia.
Qed.

Lemma py_hash_range key : 0 <= py_hash key < 2 ^ 64.
Proof. unfold py_hash. apply Z.mod_pos_bound. reflexivity. Qed.

Lemma table_keys_length t : (List.length (table_keys t) <= List.length t)%nat.
Proof.
  induction t as [| [k |] t IH]; [apply Nat.le_refl | |].
  - change (table_keys (Some k :: t)) with (k :: table_keys t). cbn [List.length]. lia.
  - change (table_keys (None :: t)) with (table_keys t). cbn [List.length]. lia.
Qed.

Lemma table_unused_slot t :
  (List.length (table_keys t) < List.length t)%nat -> exists j, nth_error t j = Some None.
Proof.
  induction t as [| [k |] t IH]; intros H.
  - cbn in H. lia.
  - change (table_keys (Some k :: t)) with (k :: table_keys t) in H. cbn [List.length] in H.
    destruct (IH ltac:(lia)) as [j Hj]. exists (S j). exact Hj.
  - exists 0%nat. reflexivity.
Qed.

(** An insertion stores the key in a slot that was unused: the slot
    added at the end is never needed. *)
Lemma set_insert_clean_slot t key :
  table_shape t -> (List.length (table_keys t) < List.length t)%nat ->
  exists slot, nth_error t slot = Some None
               /\ set_insert_clean t key = list_set slot (Some key) t.
Proof.
  intros (k & Hk & Hlen) Hfree. unfold set_insert_clean.
  destruct (table_unused_slot t Hfree) as [j Hj].
  pose proof (py_hash_range key) as Hh.
  assert (HN : Z.of_nat (2 ^ k) = 2 ^ Z.of_nat k) by (rewrite Nat2Z.inj_pow; reflexivity).
  destruct (find_slot_total t k (py_hash key)
              (Z.land (py_hash key) (Z.of_nat (List.length t) - 1)) j Hlen Hh)
    as [slot E]; [| exact Hj |].
  - rewrite Hlen, HN.
    replace (2 ^ Z.of_nat k - 1) with (Z.ones (Z.of_nat k)) by (rewrite Z.ones_equiv; lia).
    rewrite Z.land_ones by lia. apply Z.mod_pos_bound. apply Z.pow_pos_nonneg; lia.
  - rewrite E. exists (Z.to_nat slot). split; [| reflexivity].
    eapply find_slot_unused. exact E.
Qed.

Lemma set_insert_clean_inv t key :
  table_shape t -> (List.length (table_keys t) < List.length t)%nat ->
  List.length (set_insert_clean t key) = List.length t
  /\ List.length (table_keys (set_insert_clean t key)) = S (List.length (table_keys t)).
Proof.
  intros Hs Hfree. split.
  - destruct (set_insert_clean_slot t key Hs Hfree) as (slot & _ & ->).
    apply list_set_length.
  - apply (Permutation_length (set_insert_clean_keys t key)).
Qed.

Lemma set_insert_all_inv ks : forall t,
  table_shape t ->
  (List.length (table_keys t) + List.length ks <= List.length t)%nat ->
  List.length (fold_left set_insert_clean ks t) = List.length t
  /\ List.length (table_keys (fold_left set_insert_clean ks t))
     = (List.length (table_keys t) + List.length ks)%nat.
Proof.
  induction ks as [| key ks IH]; intros t Hs Hfree; cbn [fold_left List.length] in *.
  - split; [reflexivity | lia].
  - destruct (set_insert_clean_inv t key Hs ltac:(lia)) as [Hl Hu].
    destruct (IH (set_insert_clean t key)) as [Hl' Hu'].
    + destruct Hs as (k & Hk & Hlen). exists k. split; [exact Hk | congruence].
    + rewrite Hl, Hu. lia.
    + split; [congruence | rewrite Hu', Hu; lia].
Qed.

Lemma table_size_shape (m : nat) :
  exists k : nat, (3 <= k)%nat /\ Nat.max PySet_MINSIZE (2 ^ m) = (2 ^ k)%nat.
Proof.
  unfold PySet_MINSIZE. destruct (Nat.le_gt_cases m 3) as [Hle | Hgt].
  - exists 3%nat. split; [lia |].
    assert (2 ^ m <= 2 ^ 3)%nat by (apply Nat.pow_le_mono_r; lia).
    change (2 ^ 3)%nat with 8%nat in *. lia.
  - exists m. split; [lia |].
    assert (2 ^ 3 <= 2 ^ m)%nat by (apply Nat.pow_le_mono_r; lia).
    change (2 ^ 3)%nat with 8%nat in *. lia.
Qed.

Lemma set_table_resize_inv t minused :
  (0 < List.length (table_keys t))%nat ->
  2 * Z.of_nat (List.length (table_keys t)) <= minused ->
  table_inv (set_table_resize t minused).
Proof.
  intros Hpos Hmin. unfold set_table_resize.
  set (m := Z.to_nat (Z.log2 minused + 1)).
  destruct (table_size_shape m) as (k & Hk & Esize). rewrite Esize.
  assert (Hbig : minused < Z.of_nat (2 ^ k)).
  { rewrite <- Esize. destruct (Z.log2_spec minused ltac:(lia)) as [_ Hlt].
    assert (Z.of_nat (2 ^ m) = 2 ^ Z.succ (Z.log2 minused)).
    { rewrite Nat2Z.inj_pow. unfold m. rewrite Z2Nat.id; [reflexivity |].
      pose proof (Z.log2_nonneg minused). lia. }
    lia. }
  assert (Hshape : table_shape (repeat None (2 ^ k))).
  { exists k. split; [exact Hk | apply repeat_length]. }
  destruct (set_insert_all_inv (table_keys t) (repeat None (2 ^ k)) Hshape) as [Hl Hu].
  - rewrite table_keys_unused, repeat_length. cbn [List.length plus]. lia.
  - rewrite table_keys_unused, repeat_length in *. cbn [List.length plus] in Hu.
    split.
    + exists k. split; [exact Hk | exact Hl].
    + rewrite Hl, Hu. lia.
Qed.

Lemma set_add_entry_inv t key : table_inv t -> table_inv (set_add_entry t key).
Proof.
  intros [Hs Hfill]. unfold set_add_entry.
  destruct (existsb (Z.eqb key) (table_keys t)); [split; assumption |].
  destruct (set_insert_clean_inv t key Hs ltac:(lia)) as [Hl Hu].
  destruct (Z.ltb_spec (Z.of_nat (List.length (table_keys (set_insert_clean t key))) * 5)
              ((Z.of_nat (List.length (set_insert_clean t key)) - 1) * 3)) as [Hlt | Hge].
  - split; [| exact Hlt].
    destruct Hs as (k & Hk & Hlen). exists k. split; [exact Hk | congruence].
  - apply set_table_resize_inv; [rewrite Hu; lia |].
    destruct (50000 <? _); lia.
Qed.

(** Every table that the additions to a set build keeps the shape under
    which an insertion finds its slot. *)
Lemma set_iter_table_inv (s : int_set) :
  table_inv (fold_left set_add_entry s (repeat None PySet_MINSIZE)).
Proof.
  assert (H0 : table_inv (repeat None PySet_MINSIZE)).
  { split; [exists 3%nat; split; [lia | reflexivity] | cbn; lia]. }
  revert H0. generalize (repeat (@None Z) PySet_MINSIZE).
  induction s as [| key s IH]; intros t Ht; cbn [fold_left]; [exact Ht |].
  apply IH. apply set_add_entry_inv. exact Ht.
Qed.

(** *** Signs of binary64 products *)

Lemma iter_pos_preserves {A : Type} (P : A -> Prop) (f : A -> A) :
  (forall x, P x -> P (f x)) -> forall n x, P x -> P (iter_pos f n x).
Proof.
  intros Hf. induction n as [n IH | n IH |]; intros x Hx; cbn [iter_pos]; auto.
Qed.

Lemma shr_1_nonneg mrs : 0 <= shr_m mrs -> 0 <= shr_m (shr_1 mrs).
Proof.
  destruct mrs as [m r s]. cbn [shr_m shr_1].
  destruct m as [| [p | p |] | p]; cbn [shr_m]; lia.
Qed.

Lemma shr_fexp_nonneg m e l :
  0 <= m -> 0 <= shr_m (fst (shr_fexp prec emax m e l)).
Proof.
  intros Hm. unfold shr_fexp, shr.
  assert (H0 : 0 <= shr_m (shr_record_of_loc m l)) by (destruct l as [| []]; exact Hm).
  destruct (fexp prec emax (Zdigits2 m + e) - e) as [| p | p]; cbn [fst]; try exact H0.
  apply (iter_pos_preserves (fun r => 0 <= shr_m r)); [apply shr_1_nonneg | exact H0].
Qed.

Lemma round_nearest_even_nonneg m l : 0 <= m -> 0 <= round_nearest_even m l.
Proof.
  intros Hm. unfold round_nearest_even.
  destruct l as [| []]; try lia. destruct (Z.even m); lia.
Qed.

Lemma binary_round_aux_sign sx mx ex lx :
  0 <= mx ->
  binary_round_aux prec emax sx mx ex lx = S754_zero sx \/
  binary_round_aux prec emax sx mx ex lx = S754_infinity sx \/
  exists m e, binary_round_aux prec emax sx mx ex lx = S754_finite sx m e.
Proof.
  intros Hm. unfold binary_round_aux.
  pose proof (shr_fexp_nonneg mx ex lx Hm) as H1.
  destruct (shr_fexp prec emax mx ex lx) as [mrs e1]. cbn [fst] in H1.
  pose proof (shr_fexp_nonneg (round_nearest_even (shr_m mrs) (loc_of_shr_record mrs))
                e1 loc_Exact (round_nearest_even_nonneg _ _ H1)) as H2.
  destruct (shr_fexp prec emax _ e1 loc_Exact) as [mrs2 e2]. cbn [fst] in H2.
  destruct (shr_m mrs2) as [| p | p]; [auto | | lia].
  destruct (e2 <=? emax - prec); eauto.
Qed.

Lemma fle_zero_nonpositive x : fle x f0_0 = true <-> nonpositive x.
Proof.
  destruct x as [s | [] | | [] m e]; cbn; split; intros H; auto; discriminate.
Qed.

Lemma fmul_nonpositive x m e :
  nonpositive x -> nonpositive (fmul x (S754_finite false m e)).
Proof.
  destruct x as [s | [] | | [] mx ex]; cbn [nonpositive]; intros H; try contradiction;
    try exact I.
  unfold fmul, SFmul. cbn [xorb].
  destruct (binary_round_aux_sign true (Z.pos (mx * m)) (ex + e) loc_Exact ltac:(lia))
    as [E | [E | (p & q & E)]]; rewrite E; exact I.
Qed.

Lemma py_round_nonpositive x :
  nonpositive x ->
  py_round x = Raise OverflowError \/ exists r, py_round x = Ok r /\ r <= 0.
Proof.
  destruct x as [s | [] | | [] m e]; cbn [nonpositive py_round apply_sign]; intros H;
    try contradiction; auto.
  - right. exists 0. split; [reflexivity | lia].
  - right. eexists. split; [reflexivity |].
    destruct (Z.leb_spec 0 e).
    + assert (0 <= Z.pos m * 2 ^ e) by (apply Z.mul_nonneg_nonneg; [lia | apply Z.pow_nonneg; lia]).
      lia.
    + pose proof (round_half_even_nonneg (Z.pos m) (- e) ltac:(lia) ltac:(lia)). lia.
Qed.

Lemma to_units_nonpositive x :
  nonpositive x -> to_units x = Ok 0 \/ to_units x = Raise OverflowError.
Proof.
  intros H. unfold to_units. rewrite int_to_float_SCALE. cbn [bind].
  destruct (py_round_nonpositive (fmul x f10_0) (fmul_nonpositive x _ _ H))
    as [-> | (r & -> & Hr)]; cbn [bind]; [now right | left].
  f_equal. lia.
Qed.

Lemma to_units_nonneg x u : to_units x = Ok u -> 0 <= u.
Proof.
  unfold to_units. intros H.
  apply bind_Ok_inv in H as (s & _ & H). apply bind_Ok_inv in H as (r & _ & H).
  injection H as <-. lia.
Qed.

Lemma to_units_raises x e : to_units x = Raise e -> e = ValueError \/ e = OverflowError.
Proof.
  unfold to_units. rewrite int_to_float_SCALE. cbn [bind].
  destruct (fmul x f10_0); cbn; intros H; try discriminate; injection H as <-; auto.
Qed.

Lemma budget_window_nonpositive daily_mins fatigue_score :
  fle daily_mins f0_0 = true ->
  budget_window daily_mins fatigue_score = Ok (0, 0)
  \/ budget_window daily_mins fatigue_score = Raise OverflowError.
Proof.
  intros H. apply fle_zero_nonpositive in H. unfold budget_window.
  destruct (to_units_nonpositive _ (fmul_nonpositive daily_mins _ _ H : nonpositive (fmul daily_mins f0_7)))
    as [-> | ->]; cbn [bind]; [| now right].
  destruct (to_units_nonpositive _ (fmul_nonpositive daily_mins _ _ H : nonpositive (fmul daily_mins f1_3)))
    as [-> | ->]; cbn [bind]; [| now right].
  left. destruct (flt f0_6 fatigue_score), (flt f0_8 fatigue_score); reflexivity.
Qed.

(** *** A zero window selects nothing *)

Lemma mapM_scale_item_units items scaled :
  mapM scale_item items = Ok scaled ->
  Forall (fun entry => 0 <= fst entry) scaled /\ map snd scaled = items.
Proof.
  revert scaled. induction items as [| it items IH]; intros scaled H; cbn [mapM] in H.
  - injection H as <-. split; constructor.
  - apply bind_Ok_inv in H as (y & Hy & H). apply bind_Ok_inv in H as (ys & Hys & H).
    injection H as <-. unfold scale_item in Hy.
    apply bind_Ok_inv in Hy as (w & Hw & Hy). injection Hy as <-.
    destruct (IH _ Hys) as [H1 H2]. split.
    + constructor; [cbn; eapply to_units_nonneg; eassumption | exact H1].
    + cbn. now rewrite H2.
Qed.

Lemma mapM_scale_item_raises items e :
  mapM scale_item items = Raise e -> e = ValueError \/ e = OverflowError.
Proof.
  induction items as [| it items IH]; cbn [mapM]; [discriminate |].
  unfold scale_item at 1.
  destruct (to_units (mins it)) as [w |] eqn:E; cbn [bind].
  - destruct (mapM scale_item items); cbn [bind]; [discriminate |].
    intros H. injection H as <-. now apply IH.
  - intros H. injection H as <-. eapply to_units_raises; eassumption.
Qed.

Lemma fold_left_add_nonneg l a : Forall (fun x => 0 <= x) l -> 0 <= a -> 0 <= fold_left Z.add l a.
Proof.
  revert a. induction l as [| x l IH]; intros a Hl Ha; cbn; [exact Ha |].
  inversion Hl; subst. apply IH; [assumption | lia].
Qed.

Lemma sum_units_nonneg scaled :
  Forall (fun entry => 0 <= fst entry) scaled -> 0 <= sum_units scaled.
Proof.
  intros H. unfold sum_units. apply fold_left_add_nonneg; [| lia].
  apply Forall_map. exact H.
Qed.

Lemma select_with_zero_window items :
  (exists e, select_segments items 0 0 = Raise e /\ (e = ValueError \/ e = OverflowError))
  \/ select_segments items 0 0 = Ok ([], f0_0).
Proof.
  unfold select_segments, select_with, set_new.
  destruct (mapM scale_item items) as [scaled | e] eqn:Es; cbn [bind].
  - right. destruct (mapM_scale_item_units _ _ Es) as [Hu _].
    pose proof (sum_units_nonneg _ Hu) as Hsum.
    rewrite Z.min_r by lia.
    destruct (fill_dp_chain (map fst scaled) 0 ltac:(lia)) as (dp0 & dp & E0 & E1 & Hl & Hh & _).
    rewrite E0. cbn [bind]. rewrite E1. cbn [bind].
    destruct dp as [| x [| y dp]]; cbn [List.length] in Hl; try lia.
    unfold dp_head in Hh. cbn in Hh. injection Hh as ->.
    reflexivity.
  - left. exists e. split; [reflexivity |]. eapply mapM_scale_item_raises; eassumption.
Qed.

Lemma eligible_items_raises lectures completed selected e :
  eligible_items lectures completed selected = Raise e -> e = TypeError.
Proof.
  unfold eligible_items. pose proof (flatten_segments_outcome lectures) as H.
  destruct (flatten_segments lectures) as [flat | e']; cbn [bind].
  - destruct (is_empty flat); [discriminate |]. destruct (is_empty _); discriminate.
  - intros E. injection E as <-. apply H.
Qed.

(** C4, amended: a daily target [<= 0] is not rejected.  Both bounds are
    clamped to 0 units (a target so negative that its scaled value is
    infinite raises [OverflowError] in [round]), and the recommendation
    goes on: it is empty, or it is every eligible segment when their
    minutes sum below zero.  No [InvalidBudgetError] is raised. *)
Theorem nonpositive_target_not_rejected
        lectures daily_mins fatigue_score completed_courses selected_lectures :
  fle daily_mins f0_0 = true ->
  (budget_window daily_mins fatigue_score = Ok (0, 0)
   \/ budget_window daily_mins fatigue_score = Raise OverflowError)
  /\ match recommend_segments lectures daily_mins fatigue_score
                              completed_courses selected_lectures with
     | Raise e => e = TypeError \/ e = ValueError \/ e = OverflowError
     | Ok (chosen, total) =>
         (chosen = [] /\ total = f0_0)
         \/ (eligible_items lectures completed_courses selected_lectures = Ok chosen
             /\ total = py_sum (map mins chosen) /\ flt total f0_0 = true)
     end.
Proof.
  intros Hle. pose proof (budget_window_nonpositive daily_mins fatigue_score Hle) as Hb.
  split; [exact Hb |].
  unfold recommend_segments, recommend_with.
  destruct (eligible_items lectures completed_courses selected_lectures) as [items | e] eqn:Ei;
    cbn [bind].
  - destruct (is_empty items); [left; split; reflexivity |].
    destruct Hb as [-> | ->]; cbn [bind]; [| auto].
    change (from_units 0) with (Ok f0_0). cbn [bind].
    destruct (flt (py_sum (map mins items)) f0_0) eqn:El.
    + right. repeat split. exact El.
    + destruct (select_with_zero_window items) as [(e & He & Hv) | He];
        unfold select_segments in He; rewrite He; [tauto | left; split; reflexivity].
  - left. eapply eligible_items_raises; eassumption.
Qed.


(** C1: with four segments of 1.25 minutes and a daily target of 7.1
    minutes the window starts at 50 units while the four weights of 12
    units give a capacity of 48; the downward scan then starts at index 49
    of a table of 49 entries and the call raises [IndexError] instead of
    selecting the largest reachable capacity below [low_units]. *)
Theorem downward_scan_index_error :
  budget_window f7_1 f0_0 = Ok (50, 92)
  /\ eligible_items [lecture_four_quarters] [] None = Ok four_quarter_items
  /\ mapM scale_item four_quarter_items = Ok (map (fun it => (12, it)) four_quarter_items)
  /\ select_segments four_quarter_items 50 92 = Raise IndexError
  /\ recommend_segments [lecture_four_quarters] f7_1 f0_0 [] None = Raise IndexError.
Proof. repeat split; vm_compute; reflexivity. Qed.

Lemma update_streak_same_day today target cur m lf inc :
  update_streak today
    {| settings_daily_mins := Some target;
       store_streak := Some {| current := cur; last_date := Some today;
                               minutes_today := m; last_fatigue := lf |} |} inc
  = let total := fadd m inc in
    let streak' :=
      {| current := if fle target total && flt (fsub total inc) target
                    then cur + 1 else cur;
         last_date := Some today; minutes_today := total; last_fatigue := lf |} in
    ({| settings_daily_mins := Some target; store_streak := Some streak' |}, streak').
Proof.
  unfold update_streak.
  cbn [get_default settings_daily_mins store_streak last_date opt_string_eqb
       current minutes_today last_fatigue].
  rewrite String.eqb_refl. reflexivity.
Qed.

(** C8: on one day, with a target of 15 minutes and 10 minutes already
    recorded, a session of 5 minutes and then one of 1.9 minutes each
    bring the total to at least the target, and the streak counter is
    incremented by both: in binary64, (15 + 1.9) - 1.9 is below 15. *)
Theorem update_streak_increments_twice (today : string) :
  let s0 := store_same_day today in
  let s1 := fst (update_streak today s0 f5_0) in
  let k1 := snd (update_streak today s0 f5_0) in
  let k2 := snd (update_streak today s1 f1_9) in
  last_date k1 = Some today /\ last_date k2 = Some today
  /\ fle f15_0 (minutes_today k1) = true /\ fle f15_0 (minutes_today k2) = true
  /\ flt (fsub (minutes_today k2) f1_9) f15_0 = true
  /\ current k1 = 1 /\ current k2 = 2.
Proof.
  cbn zeta. unfold store_same_day.
  rewrite update_streak_same_day. cbn zeta. cbn [fst snd].
  rewrite update_streak_same_day. cbn zeta.
  cbn [fst snd last_date minutes_today current].
  repeat split; vm_compute; reflexivity.
Qed.

(** C6, as stated: the first lecture titled T has its order-1 segment
    completed, yet its order-2 segment is recommended, unlocked by the
    order-1 segment of the other lecture with the same title. *)
Lemma shared_title_unlocks_segment :
  (forall seg, In seg (segments_of lecture_T_first) ->
               dict_get_default (seg_order seg) 1 = Some 1 ->
               exists c, In c [completed_T_a]
                         /\ c_lecture_title c = dict_get (lec_title lecture_T_first)
                         /\ c_topic c = dict_get (seg_topic seg))
  /\ recommend_segments [lecture_T_first; lecture_T_second] f10_0 f0_0
                        [completed_T_a] None
     = Ok ([chosen_record (eligible_of 1 0 "T" "c" f5_0 1);
            chosen_record (eligible_of 0 1 "T" "b" f5_0 2)], f10_0)
  /\ lecture_title (chosen_record (eligible_of 0 1 "T" "b" f5_0 2))
     = dict_get (lec_title lecture_T_first)
  /\ order (chosen_record (eligible_of 0 1 "T" "b" f5_0 2)) = 2.
Proof.
  split.
  - intros seg [<- | [<- | []]] Ho; [| discriminate Ho].
    exists completed_T_a. repeat split. now left.
  - repeat split; vm_compute; reflexivity.
Qed.

Lemma completed_first_segments_lock_title_witness :
  lecture_title (chosen_record (eligible_of 1 0 "U" "c" f5_0 1)) <> Some "T"%string.
Proof.
  apply (completed_first_segments_lock_title
           [lecture_T_first; lecture_of "U" [segment_of "c" f5_0 1]]
           f5_0 f0_0 [completed_T_a] None (Some "T"%string)
           [chosen_record (eligible_of 1 0 "U" "c" f5_0 1)] f5_0).
  - intros lec seg Hl Hs Ht Ho. destruct Hl as [<- | [<- | []]]; [| discriminate Ht].
    destruct Hs as [<- | [<- | []]]; [| discriminate Ho].
    exists completed_T_a. repeat split. now left.
  - vm_compute. reflexivity.
  - left. reflexivity.
Defined.

(** C4, as stated: a target of 0 minutes is not rejected. *)
Lemma zero_target_is_accepted :
  fle f0_0 f0_0 = true
  /\ budget_window f0_0 f0_0 = Ok (0, 0)
  /\ recommend_segments [lecture_four_quarters] f0_0 f0_0 [] None = Ok ([], f0_0).
Proof. repeat split; vm_compute; reflexivity. Qed.

Lemma nonpositive_target_not_rejected_witness :
  (budget_window f0_0 f0_8 = Ok (0, 0) \/ budget_window f0_0 f0_8 = Raise OverflowError)
  /\ match recommend_segments [lecture_four_quarters] f0_0 f0_8 [] None with
     | Raise e => e = TypeError \/ e = ValueError \/ e = OverflowError
     | Ok (chosen, total) =>
         (chosen = [] /\ total = f0_0)
         \/ (eligible_items [lecture_four_quarters] [] None = Ok chosen
             /\ total = py_sum (map mins chosen) /\ flt total f0_0 = true)
     end.
Proof.
  apply (nonpositive_target_not_rejected [lecture_four_quarters] f0_0 f0_8 [] None).
  vm_compute. reflexivity.
Defined.

Lemma backtrack_never_revisits_witness :
  exists chain,
    backtrack 3 [-2; 0; 1; 1] scaled_1_2 [] 3
    = Ok {| bt_chosen := chain; bt_cur := 0; bt_exit := ExitCondition |}
    /\ StronglySorted Z.gt chain
    /\ Forall (fun i => 0 <= i < 2) chain
    /\ chain_weight [1; 2] chain = 3.
Proof.
  apply (backtrack_never_revisits scaled_1_2 2 3 [-2; -1; -1; -1] [-2; 0; 1; 1] 3);
    try (vm_compute; reflexivity).
Defined.

(** *** Subset sums *)

Lemma subset_sum_snoc us w s :
  subset_sum (us ++ [w]) s <-> subset_sum us s \/ subset_sum us (s - w).
Proof.
  revert s. induction us as [| a us IH]; intros s; cbn [app].
  - split.
    + intros H. inversion H as [| w' us' s' H' | w' us' s' H']; subst;
        inversion H'; subst.
      * left. constructor.
      * right. replace (w + 0 - w) with 0 by lia. constructor.
    + intros [H | H]; inversion H; subst.
      * apply subset_sum_skip. constructor.
      * replace s with (w + 0) by lia. apply subset_sum_take. constructor.
  - split.
    + intros H. inversion H as [| w' us' s' H' | w' us' s' H']; subst.
      * apply IH in H' as [H' | H']; [left | right]; now apply subset_sum_skip.
      * apply IH in H' as [H' | H'].
        -- left. now apply subset_sum_take.
        -- right. replace (a + s' - w) with (a + (s' - w)) by lia.
           now apply subset_sum_take.
    + intros [H | H]; inversion H as [| w' us' s' H' | w' us' s' H' E]; subst.
      * apply subset_sum_skip. apply IH. now left.
      * apply subset_sum_take. apply IH. now left.
      * apply subset_sum_skip. apply IH. now right.
      * replace s with (a + (s' + w)) by lia. apply subset_sum_take. apply IH. right.
        replace (s' + w - w) with s' by lia. exact H'.
Qed.

Lemma subset_sum_nonneg us s :
  Forall (fun w => 0 <= w) us -> subset_sum us s -> 0 <= s.
Proof.
  intros Hus H. induction H as [| w us s H IH | w us s H IH]; [lia | |];
    inversion Hus; subst; [auto |]. specialize (IH ltac:(assumption)). lia.
Qed.

Lemma subset_sum_le_total us s :
  Forall (fun w => 0 <= w) us -> subset_sum us s -> s <= fold_right Z.add 0 us.
Proof.
  intros Hus H. induction H as [| w us s H IH | w us s H IH]; cbn [fold_right]; [lia | |];
    inversion Hus; subst; specialize (IH ltac:(assumption)); lia.
Qed.

Lemma subset_sum_zero us : subset_sum us 0.
Proof. induction us; constructor; assumption. Qed.

(** *** What one pass of the inner loop marks *)

Lemma relax_pass_marks i w dp (Hi : 0 <= i) (Hw : 0 < w) :
  forall n start cur,
    Z.to_nat (start - (w - 1)) = n ->
    start < Z.of_nat (List.length cur) ->
    (forall p, 0 <= p <= start -> dp_at cur p = dp_at dp p) ->
    exists dp',
      foldM (relax i w) cur (range_down start (w - 1)) = Ok dp'
      /\ List.length dp' = List.length cur
      /\ (forall p, 0 <= p <= start ->
            (dp_at dp' p <> -1 <-> dp_at dp p <> -1 \/ (w <= p /\ dp_at dp (p - w) <> -1)))
      /\ (forall p, start < p -> dp_at dp' p = dp_at cur p).
Proof.
  induction n as [| n IH]; intros start cur Hn Hlen Heq.
  - rewrite range_down_nil by lia. exists cur.
    split; [reflexivity |]. split; [reflexivity |]. split; [| reflexivity].
    intros p Hp. rewrite (Heq p Hp). split; [tauto |].
    intros [Hm | [Hm _]]; [exact Hm | lia].
  - rewrite range_down_cons by lia. cbn [foldM].
    assert (Hs : 0 <= start < Z.of_nat (List.length cur)) by lia.
    assert (Hsw : 0 <= start - w < Z.of_nat (List.length cur)) by lia.
    unfold relax at 1.
    rewrite (py_getitem_in cur start (-1)) by exact Hs. cbn [bind]. fold (dp_at cur start).
    assert (Hkeep : dp_at cur start <> -1 \/ dp_at cur (start - w) = -1 ->
              exists dp',
                foldM (relax i w) cur (range_down (start - 1) (w - 1)) = Ok dp'
                /\ List.length dp' = List.length cur
                /\ (forall p, 0 <= p <= start ->
                      (dp_at dp' p <> -1
                       <-> dp_at dp p <> -1 \/ (w <= p /\ dp_at dp (p - w) <> -1)))
                /\ (forall p, start < p -> dp_at dp' p = dp_at cur p)).
    { intros Hcase.
      destruct (IH (start - 1) cur) as (dp' & Hf & Hl & Hin & Hout); [lia | lia | |].
      { intros p Hp. apply Heq. lia. }
      exists dp'. split; [exact Hf |]. split; [exact Hl |]. split.
      - intros p Hp. destruct (Z.eq_dec p start) as [-> | Hne]; [| apply Hin; lia].
        rewrite Hout by lia. rewrite <- (Heq start) by lia. rewrite <- (Heq (start - w)) by lia.
        split; [tauto |]. intros [H | [_ H]]; [exact H |].
        destruct Hcase as [Hc | Hc]; [exact Hc | contradiction].
      - intros p Hp. apply Hout. lia. }
    destruct (Z.eqb_spec (dp_at cur start) (-1)) as [Es | Es]; [| apply Hkeep; now left].
    rewrite (py_getitem_in cur (start - w) (-1)) by exact Hsw. cbn [bind].
    fold (dp_at cur (start - w)).
    destruct (Z.eqb_spec (dp_at cur (start - w)) (-1)) as [Eb | Eb]; cbn [negb];
      [apply Hkeep; now right |].
    rewrite py_setitem_in by exact Hs. cbn [bind].
    set (cur1 := list_set (Z.to_nat start) i cur).
    assert (Hl1 : List.length cur1 = List.length cur) by apply list_set_length.
    assert (Hat : forall p, 0 <= p -> dp_at cur1 p = if p =? start then i else dp_at cur p)
      by (intros p Hp; apply dp_at_list_set; assumption).
    destruct (IH (start - 1) cur1) as (dp' & Hf & Hl & Hin & Hout); [lia | lia | |].
    { intros p Hp. rewrite Hat by lia. destruct (Z.eqb_spec p start); [lia |]. apply Heq. lia. }
    exists dp'. split; [exact Hf |]. split; [congruence |]. split.
    + intros p Hp. destruct (Z.eq_dec p start) as [-> | Hne]; [| apply Hin; lia].
      rewrite Hout by lia. rewrite Hat by lia. rewrite Z.eqb_refl.
      split; [| intros _; lia].
      intros _. right. split; [lia |]. rewrite <- Heq by lia. exact Eb.
    + intros p Hp. rewrite Hout by lia. rewrite Hat by lia.
      destruct (Z.eqb_spec p start); [lia | reflexivity].
Qed.

Lemma fill_item_marks cap pre i w dp :
  Forall (fun x => 0 <= x) pre -> 0 <= w ->
  Z.of_nat (List.length dp) = cap + 1 ->
  dp_marks pre dp ->
  exists dp',
    fill_item cap dp (i, w) = Ok dp'
    /\ List.length dp' = List.length dp
    /\ dp_marks (pre ++ [w]) dp'.
Proof.
  intros Hpre Hw Hlen Hm. unfold fill_item.
  destruct (Z.leb_spec w 0) as [Hle | Hgt].
  - exists dp. split; [reflexivity |]. split; [reflexivity |].
    assert (w = 0) as -> by lia.
    intros s Hs. rewrite subset_sum_snoc, Z.sub_0_r. rewrite (Hm s Hs). tauto.
  - destruct (relax_pass_marks (Z.of_nat i) w dp ltac:(lia) Hgt _ cap dp eq_refl ltac:(lia)
                ltac:(reflexivity)) as (dp' & Hf & Hl & Hin & _).
    exists dp'. split; [exact Hf |]. split; [exact Hl |].
    intros s Hs. rewrite Hl in Hs. rewrite (Hin s ltac:(lia)), subset_sum_snoc.
    rewrite (Hm s Hs). split.
    + intros [H | [Hws H]]; [now left | right]. apply Hm; [lia | exact H].
    + intros [H | H]; [now left | right].
      pose proof (subset_sum_nonneg _ _ Hpre H).
      split; [lia |]. apply Hm; [lia | exact H].
Qed.

Lemma fill_from_marks us cap :
  Forall (fun x => 0 <= x) us ->
  forall suf pre dp,
    us = pre ++ suf ->
    Z.of_nat (List.length dp) = cap + 1 ->
    dp_marks pre dp ->
    exists dp',
      foldM (fill_item cap) dp (enumerate_from (List.length pre) suf) = Ok dp'
      /\ List.length dp' = List.length dp
      /\ dp_marks us dp'.
Proof.
  intros Hus. induction suf as [| w suf IH]; intros pre dp Eus Hlen Hm;
    cbn [enumerate_from foldM].
  - exists dp. split; [reflexivity |]. split; [reflexivity |].
    rewrite Eus, app_nil_r. exact Hm.
  - assert (Hpre : Forall (fun x => 0 <= x) pre /\ 0 <= w).
    { rewrite Eus in Hus. apply Forall_app in Hus as [H1 H2]. inversion H2; auto. }
    destruct (fill_item_marks cap pre (List.length pre) w dp) as (dp1 & H1 & Hl1 & Hm1);
      try tauto.
    rewrite H1. cbn [bind].
    destruct (IH (pre ++ [w]) dp1) as (dp' & H2 & Hl2 & Hm2).
    + rewrite Eus, <- app_assoc. reflexivity.
    + lia.
    + exact Hm1.
    + rewrite length_app in H2. cbn [List.length] in H2.
      replace (List.length pre + 1)%nat with (S (List.length pre)) in H2 by lia.
      exists dp'. split; [exact H2 |]. split; [congruence | exact Hm2].
Qed.

Lemma fill_dp_marks us cap dp0 dp :
  Forall (fun x => 0 <= x) us ->
  init_dp cap = Ok dp0 -> fill_dp cap us dp0 = Ok dp ->
  Z.of_nat (List.length dp) = cap + 1 /\ dp_marks us dp.
Proof.
  intros Hus H0 H1. destruct (init_dp_Ok _ _ H0) as [Hcap ->].
  assert (Hl0 : Z.of_nat (List.length (-2 :: repeat (-1) (Z.to_nat cap))) = cap + 1)
    by (cbn [List.length]; rewrite repeat_length; lia).
  destruct (fill_from_marks us cap Hus us [] _ eq_refl Hl0) as (dp' & H2 & Hl2 & Hm2).
  - intros s Hs. destruct (Z.eq_dec s 0) as [-> | Hne].
    + split; [intros _; constructor | intros _; cbn; lia].
    + unfold dp_at. replace (Z.to_nat s) with (S (Z.to_nat (s - 1))) by lia. cbn [nth].
      rewrite nth_repeat. split; [lia |]. intros H. inversion H; lia.
  - unfold fill_dp, enumerate in H1. cbn [List.length] in H2. rewrite H1 in H2.
    injection H2 as <-. split; [lia | exact Hm2].
Qed.

(** *** The scans, on a table of [cap + 1] entries *)

Lemma scan_last_max dp cap :
  Z.of_nat (List.length dp) = cap + 1 ->
  forall n lo b,
    Z.to_nat (cap + 1 - lo) = n -> 0 <= lo ->
    exists r,
      foldM (scan_last dp) b (range_up lo (cap + 1)) = Ok r
      /\ ((r = b /\ forall s, lo <= s <= cap -> dp_at dp s = -1)
          \/ (lo <= r <= cap /\ dp_at dp r <> -1
              /\ forall s, r < s <= cap -> dp_at dp s = -1)).
Proof.
  intros Hlen. induction n as [| n IH]; intros lo b Hn Hlo.
  - rewrite range_up_nil by lia. exists b. split; [reflexivity |]. left.
    split; [reflexivity | intros; lia].
  - rewrite range_up_cons by lia. cbn [foldM]. unfold scan_last at 1.
    rewrite (py_getitem_in dp lo (-1)) by lia. cbn [bind]. fold (dp_at dp lo).
    destruct (IH (lo + 1) (if negb (dp_at dp lo =? -1) then lo else b) ltac:(lia) ltac:(lia))
      as (r & Hr & Hcase).
    exists r. split; [exact Hr |].
    destruct Hcase as [[-> Hall] | (Hin & Hne & Hall)].
    + destruct (Z.eqb_spec (dp_at dp lo) (-1)) as [E | E]; cbn [negb].
      * left. split; [reflexivity |]. intros s Hs.
        destruct (Z.eq_dec s lo) as [-> | Hd]; [exact E | apply Hall; lia].
      * right. split; [lia |]. split; [exact E |]. intros s Hs. apply Hall. lia.
    + right. split; [lia |]. split; [exact Hne | exact Hall].
Qed.

Lemma scan_first_down dp :
  forall n hi b,
    Z.to_nat (hi + 1) = n -> hi < Z.of_nat (List.length dp) ->
    (exists s, 0 <= s <= hi /\ dp_at dp s <> -1) ->
    exists r,
      scan_first dp b (range_down hi (-1)) = Ok r
      /\ 0 <= r <= hi /\ dp_at dp r <> -1
      /\ forall s, r < s <= hi -> dp_at dp s = -1.
Proof.
  induction n as [| n IH]; intros hi b Hn Hlen (s0 & Hs0 & Hne0); [lia |].
  rewrite range_down_cons by lia. cbn [scan_first].
  rewrite (py_getitem_in dp hi (-1)) by lia. cbn [bind]. fold (dp_at dp hi).
  destruct (Z.eqb_spec (dp_at dp hi) (-1)) as [E | E]; cbn [negb].
  - destruct (IH (hi - 1) b ltac:(lia) ltac:(lia)) as (r & Hr & Hin & Hne & Hall).
    + exists s0. split; [| exact Hne0].
      destruct (Z.eq_dec s0 hi) as [-> | Hd]; [contradiction | lia].
    + replace (hi - 1 - -1) with hi in * by lia.
      exists r. split; [exact Hr |]. split; [lia |]. split; [exact Hne |].
      intros s Hs. destruct (Z.eq_dec s hi) as [-> | Hd]; [exact E | apply Hall; lia].
  - exists hi. split; [reflexivity |]. split; [lia |]. split; [exact E |]. intros; lia.
Qed.

Lemma scan_first_down_outside dp hi b :
  Z.of_nat (List.length dp) <= hi ->
  scan_first dp b (range_down hi (-1)) = Raise IndexError.
Proof.
  intros H. rewrite range_down_cons by lia. cbn [scan_first].
  rewrite py_getitem_above by exact H. reflexivity.
Qed.

(** The chosen capacity is the largest marked one, whatever [low_u] is,
    as long as the downward scan stays inside the table. *)
Lemma choose_best_largest dp cap low_u :
  Z.of_nat (List.length dp) = cap + 1 -> dp_head dp ->
  0 <= low_u <= cap + 1 ->
  exists best,
    choose_best dp low_u cap = Ok best
    /\ 0 <= best <= cap /\ dp_at dp best <> -1
    /\ forall s, best < s <= cap -> dp_at dp s = -1.
Proof.
  intros Hlen Hh Hlow. unfold choose_best.
  assert (Hcap : 0 <= cap)
    by (destruct dp; [discriminate Hh | cbn [List.length] in Hlen; lia]).
  destruct (scan_last_max dp cap Hlen _ low_u (-1) eq_refl ltac:(lia)) as (r & -> & Hcase).
  cbn [bind]. destruct Hcase as [[-> Hall] | (Hin & Hne & Hall)].
  - cbn [Z.eqb].
    assert (Hpos : 0 < low_u).
    { destruct (Z.eq_dec low_u 0) as [-> | Hd]; [| lia].
      specialize (Hall 0 ltac:(lia)). rewrite (dp_head_at _ Hh) in Hall. lia. }
    destruct (scan_first_down dp _ (low_u - 1) (-1) eq_refl ltac:(lia))
      as (r & Hr & Hin & Hne & Hbelow).
    { exists 0. split; [lia |]. rewrite (dp_head_at _ Hh). lia. }
    rewrite Hr. cbn [bind].
    destruct (Z.eqb_spec r (-1)); [lia |].
    exists r. split; [reflexivity |]. split; [lia |]. split; [exact Hne |].
    intros s Hs. destruct (Z_lt_le_dec s low_u); [apply Hbelow | apply Hall]; lia.
  - destruct (Z.eqb_spec r (-1)); [lia |].
    exists r. split; [reflexivity |]. split; [lia |]. split; [exact Hne | exact Hall].
Qed.

Lemma choose_best_outside dp cap low_u :
  Z.of_nat (List.length dp) = cap + 1 -> cap + 1 < low_u ->
  choose_best dp low_u cap = Raise IndexError.
Proof.
  intros Hlen Hlow. unfold choose_best. rewrite range_up_nil by lia. cbn [foldM bind Z.eqb].
  rewrite scan_first_down_outside by lia. reflexivity.
Qed.

(** *** Running the selector *)

Lemma fold_left_add_fold_right l a : fold_left Z.add l a = a + fold_right Z.add 0 l.
Proof.
  revert a. induction l as [| x l IH]; intros a; cbn; [lia |]. rewrite IH. lia.
Qed.

Lemma mapM_scale_item_nth items scaled :
  mapM scale_item items = Ok scaled ->
  forall n entry, nth_error scaled n = Some entry ->
    nth_error items n = Some (snd entry) /\ to_units (mins (snd entry)) = Ok (fst entry).
Proof.
  revert scaled. induction items as [| it items IH]; intros scaled H n entry Hn;
    cbn [mapM] in H.
  - injection H as <-. destruct n; discriminate.
  - apply bind_Ok_inv in H as (y & Hy & H). apply bind_Ok_inv in H as (ys & Hys & H).
    injection H as <-. unfold scale_item in Hy.
    apply bind_Ok_inv in Hy as (w & Hw & Hy). injection Hy as <-.
    destruct n as [| n]; cbn in Hn.
    + injection Hn as <-. split; [reflexivity | exact Hw].
    + cbn. eapply IH; eassumption.
Qed.

Lemma mapM_chosen_records items scaled chain :
  mapM scale_item items = Ok scaled ->
  Forall (fun i => 0 <= i < Z.of_nat (List.length scaled)) chain ->
  exists chosen,
    mapM (fun i => entry <- py_getitem scaled i ;; Ok (chosen_record (snd entry))) chain
    = Ok chosen
    /\ Forall2 (chosen_from items (map fst scaled)) chosen chain.
Proof.
  intros Hsc. induction 1 as [| i chain Hi _ IH]; cbn [mapM].
  - exists []. split; [reflexivity | constructor].
  - destruct (py_getitem_scaled scaled i Hi) as (entry & -> & Hfst & Hnth). cbn [bind].
    destruct IH as (chosen & -> & Hall). cbn [bind].
    exists (chosen_record (snd entry) :: chosen). split; [reflexivity |].
    constructor; [| exact Hall].
    destruct (mapM_scale_item_nth _ _ Hsc _ _ Hnth) as [H1 H2].
    exists (snd entry). rewrite <- Hfst. auto.
Qed.

Lemma chosen_from_units items us chosen chain :
  Forall2 (chosen_from items us) chosen chain ->
  mapM (fun c => to_units (mins c)) chosen = Ok (map (weight us) chain).
Proof.
  induction 1 as [| c i chosen chain (it & _ & -> & Hu) _ IH]; cbn [mapM map]; [reflexivity |].
  cbn [chosen_record mins]. rewrite Hu. cbn [bind]. rewrite IH. reflexivity.
Qed.

Lemma StronglySorted_gt_NoDup chain : StronglySorted Z.gt chain -> NoDup chain.
Proof.
  induction 1 as [| i chain _ IH Hall]; constructor; [| exact IH].
  intros Hin. rewrite Forall_forall in Hall. specialize (Hall i Hin). lia.
Qed.

Lemma chain_weight_Permutation us l l' :
  Permutation l l' -> chain_weight us l = chain_weight us l'.
Proof.
  unfold chain_weight. induction 1; cbn [map fold_right]; lia.
Qed.

(** The positions the selection is rebuilt from: the set of the item
    indices of the walk, in the order of its iteration. *)
Lemma set_iter_chain (P : Z -> Prop) us chain :
  StronglySorted Z.gt chain -> Forall P chain ->
  NoDup (set_iter chain) /\ Forall P (set_iter chain)
  /\ chain_weight us (set_iter chain) = chain_weight us chain.
Proof.
  intros Hs Hall. pose proof (StronglySorted_gt_NoDup _ Hs) as Hnd.
  pose proof (set_iter_Permutation _ Hnd) as Hp.
  split; [| split].
  - eapply Permutation_NoDup; [symmetry; exact Hp | exact Hnd].
  - eapply Permutation_Forall; [symmetry; exact Hp | exact Hall].
  - apply chain_weight_Permutation. exact Hp.
Qed.

(** Whatever the selector returns was rebuilt from pairwise distinct
    item positions. *)
Lemma select_segments_chain items low_u high_u chosen total :
  select_segments items low_u high_u = Ok (chosen, total) ->
  exists scaled positions,
    mapM scale_item items = Ok scaled
    /\ NoDup positions
    /\ Forall (fun i => 0 <= i < Z.of_nat (List.length scaled)) positions
    /\ Forall2 (chosen_from items (map fst scaled)) chosen positions
    /\ total = py_sum (map mins chosen)
    /\ chain_weight (map fst scaled) positions <= Z.min (sum_units scaled) high_u.
Proof.
  unfold select_segments, select_with, set_new. intros H.
  apply bind_Ok_inv in H as (scaled & Hsc & H).
  exists scaled.
  set (cap := Z.min (sum_units scaled) high_u) in *.
  apply bind_Ok_inv in H as (dp0 & H0 & H).
  apply bind_Ok_inv in H as (dp & H1 & H).
  apply bind_Ok_inv in H as (best & Hbest & H).
  destruct (init_dp_Ok _ _ H0) as [Hcap _].
  destruct (Z.leb_spec best 0) as [Hle | Hpos].
  - injection H as <- <-. exists []. split; [exact Hsc |].
    split; [constructor |]. split; [constructor |]. split; [constructor |].
    split; [reflexivity |]. unfold chain_weight. cbn. lia.
  - destruct (fill_dp_chain (map fst scaled) cap Hcap) as (dp0' & dp' & E0 & E1 & Hlen & Hc).
    rewrite H0 in E0. injection E0 as <-. rewrite H1 in E1. injection E1 as <-.
    rewrite length_map in Hc.
    destruct (choose_best_positive _ _ _ _ Hbest Hpos) as [Hlt Hne].
    destruct (backtrack_chain scaled dp Hc (S (List.length scaled)) [] best
                (Z.of_nat (List.length scaled))) as (chain & Hbt & Hs & Hall & Hsum).
    + lia.
    + right. split; [exact Hne |].
      apply (dp_chain_bound (map fst scaled)); [lia | exact Hc | lia].
    + constructor.
    + lia.
    + rewrite Hbt in H. cbn [bind app bt_chosen] in H.
      destruct (set_iter_chain _ (map fst scaled) chain Hs Hall) as (Hnd & Hall' & Hw).
      destruct (mapM_chosen_records items scaled _ Hsc Hall') as (ch & Hch & Hf2).
      rewrite Hch in H. cbn [bind] in H. injection H as <- <-.
      exists (set_iter chain). split; [exact Hsc |]. split; [exact Hnd |].
      split; [exact Hall' |]. split; [exact Hf2 |].
      split; [reflexivity |]. lia.
Qed.

(** The table of a selection, once the weights are known. *)
Lemma select_table scaled high_u :
  Forall (fun entry => 0 <= fst entry) scaled -> 0 <= high_u ->
  exists dp0 dp,
    init_dp (Z.min (sum_units scaled) high_u) = Ok dp0
    /\ fill_dp (Z.min (sum_units scaled) high_u) (map fst scaled) dp0 = Ok dp
    /\ Z.of_nat (List.length dp) = Z.min (sum_units scaled) high_u + 1
    /\ dp_chain (map fst scaled) (Z.of_nat (List.length scaled)) dp
    /\ dp_marks (map fst scaled) dp.
Proof.
  intros Hu Hhigh. pose proof (sum_units_nonneg _ Hu) as Hsum.
  set (cap := Z.min (sum_units scaled) high_u).
  destruct (fill_dp_chain (map fst scaled) cap ltac:(lia)) as (dp0 & dp & E0 & E1 & Hlen & Hc).
  exists dp0, dp. rewrite length_map in Hc.
  split; [exact E0 |]. split; [exact E1 |]. split; [exact Hlen |]. split; [exact Hc |].
  apply (fill_dp_marks _ cap dp0 dp); [| exact E0 | exact E1].
  apply Forall_map. exact Hu.
Qed.

Lemma select_segments_run items low_u high_u scaled dp0 dp best :
  mapM scale_item items = Ok scaled ->
  init_dp (Z.min (sum_units scaled) high_u) = Ok dp0 ->
  fill_dp (Z.min (sum_units scaled) high_u) (map fst scaled) dp0 = Ok dp ->
  dp_chain (map fst scaled) (Z.of_nat (List.length scaled)) dp ->
  choose_best dp low_u (Z.min (sum_units scaled) high_u) = Ok best ->
  0 <= best < Z.of_nat (List.length dp) -> dp_at dp best <> -1 ->
  exists chosen positions,
    select_segments items low_u high_u = Ok (chosen, py_sum (map mins chosen))
    /\ NoDup positions
    /\ Forall2 (chosen_from items (map fst scaled)) chosen positions
    /\ chain_weight (map fst scaled) positions = best.
Proof.
  intros Hsc E0 E1 Hc Hbest Hin Hne.
  unfold select_segments, select_with, set_new. rewrite Hsc. cbn [bind].
  rewrite E0. cbn [bind]. rewrite E1. cbn [bind]. rewrite Hbest. cbn [bind].
  destruct (Z.leb_spec best 0) as [Hle | Hpos].
  - exists [], []. split; [reflexivity |]. split; [constructor |]. split; [constructor |].
    unfold chain_weight. cbn. lia.
  - destruct (backtrack_chain scaled dp Hc (S (List.length scaled)) [] best
                (Z.of_nat (List.length scaled))) as (chain & Hbt & Hs & Hall & Hsum).
    + lia.
    + right. split; [exact Hne |].
      apply (dp_chain_bound (map fst scaled)); [lia | exact Hc | lia].
    + constructor.
    + lia.
    + rewrite Hbt. cbn [bind app bt_chosen].
      destruct (set_iter_chain _ (map fst scaled) chain Hs Hall) as (Hnd & Hall' & Hw).
      destruct (mapM_chosen_records items scaled _ Hsc Hall') as (ch & Hch & Hf2).
      rewrite Hch. cbn [bind].
      exists ch, (set_iter chain). split; [reflexivity |].
      split; [exact Hnd |]. split; [exact Hf2 | lia].
Qed.

(** X1: the selector returns a largest subset sum.  When the minutes of
    every item can be scaled and [0 <= low_u <= cap + 1], the selection
    is returned with the sum of its true minutes, its unit weights add up
    to a subset sum of the weights that is at most [cap], and no subset
    sum that is at most [cap] is larger. *)
Theorem select_segments_largest_subset_sum
        (items : list item) (low_u high_u : Z) (scaled : list (Z * item)) :
  mapM scale_item items = Ok scaled ->
  0 <= high_u ->
  0 <= low_u <= Z.min (sum_units scaled) high_u + 1 ->
  exists chosen ws,
    select_segments items low_u high_u = Ok (chosen, py_sum (map mins chosen))
    /\ mapM (fun c => to_units (mins c)) chosen = Ok ws
    /\ subset_sum (map fst scaled) (sum_list ws)
    /\ sum_list ws <= Z.min (sum_units scaled) high_u
    /\ forall s, subset_sum (map fst scaled) s ->
                 s <= Z.min (sum_units scaled) high_u -> s <= sum_list ws.
Proof.
  intros Hsc Hhigh Hlow.
  destruct (mapM_scale_item_units _ _ Hsc) as [Hu _].
  destruct (select_table scaled high_u Hu Hhigh) as (dp0 & dp & E0 & E1 & Hlen & Hc & Hm).
  set (cap := Z.min (sum_units scaled) high_u) in *.
  destruct (choose_best_largest dp cap low_u Hlen (proj1 Hc) Hlow)
    as (best & Hbest & Hin & Hne & Hmax).
  destruct (select_segments_run items low_u high_u scaled dp0 dp best Hsc E0 E1 Hc Hbest
              ltac:(lia) Hne) as (chosen & chain & Hsel & _ & Hf2 & Hsum).
  exists chosen, (map (weight (map fst scaled)) chain).
  split; [exact Hsel |]. split; [now apply (chosen_from_units items) |].
  change (sum_list (map (weight (map fst scaled)) chain))
    with (chain_weight (map fst scaled) chain).
  rewrite Hsum. split; [apply Hm; [lia | exact Hne] |]. split; [lia |].
  intros s Hs Hle.
  assert (Hs0 : 0 <= s).
  { eapply subset_sum_nonneg; [| exact Hs]. apply Forall_map. exact Hu. }
  destruct (Z_le_gt_dec s best) as [H | H]; [exact H | exfalso].
  assert (Hmk : dp_at dp s <> -1) by (apply Hm; [lia | exact Hs]).
  apply Hmk. apply Hmax. lia.
Qed.

Lemma select_index_error_iff
        (items : list item) (low_u high_u : Z) (scaled : list (Z * item)) :
  mapM scale_item items = Ok scaled ->
  0 <= high_u -> 0 <= low_u ->
  (select_segments items low_u high_u = Raise IndexError
   <-> Z.min (sum_units scaled) high_u + 1 < low_u).
Proof.
  intros Hsc Hhigh Hlow.
  destruct (mapM_scale_item_units _ _ Hsc) as [Hu _].
  destruct (select_table scaled high_u Hu Hhigh) as (dp0 & dp & E0 & E1 & Hlen & Hc & Hm).
  set (cap := Z.min (sum_units scaled) high_u) in *.
  split.
  - intros Herr. destruct (Z_lt_le_dec (cap + 1) low_u) as [H | H]; [exact H | exfalso].
    destruct (choose_best_largest dp cap low_u Hlen (proj1 Hc) ltac:(lia))
      as (best & Hbest & Hin & Hne & _).
    destruct (select_segments_run items low_u high_u scaled dp0 dp best Hsc E0 E1 Hc Hbest
                ltac:(lia) Hne) as (chosen & chain & Hsel & _).
    rewrite Hsel in Herr. discriminate.
  - intros Hout. unfold select_segments, select_with, set_new. rewrite Hsc. cbn [bind].
    fold cap. rewrite E0. cbn [bind]. rewrite E1. cbn [bind].
    rewrite (choose_best_outside dp cap low_u Hlen Hout). reflexivity.
Qed.

(** X2: the selector raises [IndexError] exactly when [low_u] is more than
    one above the capacity. *)
Theorem select_segments_index_error
        (items : list item) (low_u high_u : Z) (scaled : list (Z * item)) :
  mapM scale_item items = Ok scaled ->
  0 <= high_u -> 0 <= low_u ->
  (select_segments items low_u high_u = Raise IndexError
   <-> Z.min (sum_units scaled) high_u + 1 < low_u).
Proof. apply select_index_error_iff. Qed.

(** X3: inside the range where the selector does not raise, [low_u] has no
    influence on what it returns. *)
Theorem select_segments_ignores_low_u
        (items : list item) (low_u low_u' high_u : Z) (scaled : list (Z * item)) :
  mapM scale_item items = Ok scaled ->
  0 <= high_u ->
  0 <= low_u <= Z.min (sum_units scaled) high_u + 1 ->
  0 <= low_u' <= Z.min (sum_units scaled) high_u + 1 ->
  select_segments items low_u high_u = select_segments items low_u' high_u.
Proof.
  intros Hsc Hhigh Hlow Hlow'.
  destruct (mapM_scale_item_units _ _ Hsc) as [Hu _].
  destruct (select_table scaled high_u Hu Hhigh) as (dp0 & dp & E0 & E1 & Hlen & Hc & Hm).
  set (cap := Z.min (sum_units scaled) high_u) in *.
  destruct (choose_best_largest dp cap low_u Hlen (proj1 Hc) Hlow)
    as (b1 & Hb1 & Hin1 & Hne1 & Hmax1).
  destruct (choose_best_largest dp cap low_u' Hlen (proj1 Hc) Hlow')
    as (b2 & Hb2 & Hin2 & Hne2 & Hmax2).
  assert (b1 = b2).
  { destruct (Z.lt_trichotomy b1 b2) as [H | [H | H]]; [exfalso | exact H | exfalso].
    - apply Hne2. apply Hmax1. lia.
    - apply Hne1. apply Hmax2. lia. }
  subst b2.
  unfold select_segments, select_with, set_new. rewrite Hsc. cbn [bind].
  fold cap. rewrite E0. cbn [bind]. rewrite E1. cbn [bind]. rewrite Hb1, Hb2. reflexivity.
Qed.

(** X4: a selection takes each item at most once and stays within the
    upper bound.  Whatever the selector returns is the list of the
    [chosen_record]s of the items at pairwise distinct positions, their
    total is the sum of their minutes, and their unit weights add up to at
    most [high_u]. *)
Theorem select_segments_within_budget
        (items : list item) (low_u high_u : Z) (chosen : list item) (total : float) :
  select_segments items low_u high_u = Ok (chosen, total) ->
  exists positions ws,
    NoDup positions
    /\ Forall2 (fun c i => 0 <= i /\ exists it, nth_error items (Z.to_nat i) = Some it
                                                /\ c = chosen_record it) chosen positions
    /\ total = py_sum (map mins chosen)
    /\ mapM (fun c => to_units (mins c)) chosen = Ok ws
    /\ sum_list ws <= high_u.
Proof.
  intros H. destruct (select_segments_chain _ _ _ _ _ H)
    as (scaled & positions & Hsc & Hnd & Hall & Hf2 & Ht & Hle).
  exists positions, (map (weight (map fst scaled)) positions).
  split; [exact Hnd |]. split.
  - clear - Hall Hf2. induction Hf2 as [| c i chosen positions (it & H1 & H2 & _) _ IH];
      [constructor |].
    inversion Hall; subst. constructor; [split; [lia | eauto] | auto].
  - split; [exact Ht |]. split; [now apply (chosen_from_units items) |].
    change (sum_list (map (weight (map fst scaled)) positions))
      with (chain_weight (map fst scaled) positions). lia.
Qed.






(** *** What is returned *)

Lemma is_completed_chosen_record completed it :
  is_completed completed (chosen_record it) = is_completed completed it.
Proof. reflexivity. Qed.

Lemma in_scope_chosen_record selected it :
  in_scope selected (chosen_record it) = in_scope selected it.
Proof. reflexivity. Qed.

Lemma eligible_items_scope lectures completed t ts items :
  eligible_items lectures completed (Some (t :: ts)) = Ok items ->
  forall x, In x items -> in_scope (t :: ts) x = true.
Proof.
  unfold eligible_items. intros H. apply bind_Ok_inv in H as (flat & _ & H).
  destruct (is_empty flat); [injection H as <-; intros x [] |].
  destruct (is_empty _); [injection H as <-; intros x [] |].
  injection H as <-. intros x Hx.
  apply soft_order_gate_In in Hx as [Hx _]. cbn [restrict_scope] in Hx.
  apply filter_In in Hx. tauto.
Qed.

(** X7: completion exclusion.  No returned segment has its pair (lecture
    title, topic) in [completed_courses], whatever the budget. *)
Theorem recommend_segments_excludes_completed
        lectures daily_mins fatigue_score completed_courses selected_lectures chosen total :
  recommend_segments lectures daily_mins fatigue_score completed_courses selected_lectures
  = Ok (chosen, total) ->
  forall c, In c chosen -> is_completed completed_courses c = false.
Proof.
  intros H c Hc. apply recommend_with_In in H as (items & Hitems & Hch).
  destruct (Hch c Hc) as (it & Hit & E).
  apply eligible_items_In in Hitems as (flat & _ & Hel).
  destruct (Hel it Hit) as (_ & Hnot & _).
  destruct E as [-> | ->]; [exact Hnot | rewrite is_completed_chosen_record; exact Hnot].
Qed.

(** X8: scope restriction.  With a non-empty list of selected lectures,
    every returned segment belongs to a lecture whose title is in the
    list. *)
Theorem recommend_segments_within_scope
        lectures daily_mins fatigue_score completed_courses t ts chosen total :
  recommend_segments lectures daily_mins fatigue_score completed_courses (Some (t :: ts))
  = Ok (chosen, total) ->
  forall c, In c chosen -> exists title, In title (t :: ts) /\ lecture_title c = Some title.
Proof.
  intros H c Hc. apply recommend_with_In in H as (items & Hitems & Hch).
  destruct (Hch c Hc) as (it & Hit & E).
  pose proof (eligible_items_scope _ _ _ _ _ Hitems it Hit) as Hs.
  assert (Hsc : in_scope (t :: ts) c = true)
    by (destruct E as [-> | ->]; [exact Hs | rewrite in_scope_chosen_record; exact Hs]).
  unfold in_scope in Hsc. apply existsb_exists in Hsc as (title & Hin & Heq).
  apply opt_string_eqb_eq in Heq. exists title. split; [exact Hin | now symmetry].
Qed.

(** X9: the total that is returned is the sum of the minutes of the
    segments that are returned, on every path. *)
Theorem recommend_segments_total
        lectures daily_mins fatigue_score completed_courses selected_lectures chosen total :
  recommend_segments lectures daily_mins fatigue_score completed_courses selected_lectures
  = Ok (chosen, total) ->
  total = py_sum (map mins chosen).
Proof.
  unfold recommend_segments, recommend_with. intros H.
  apply bind_Ok_inv in H as (items & _ & H).
  destruct (is_empty items); [injection H as <- <-; reflexivity |].
  apply bind_Ok_inv in H as ([low_u high_u] & _ & H).
  apply bind_Ok_inv in H as (low_mins & _ & H).
  destruct (flt _ low_mins).
  - injection H as <- <-. reflexivity.
  - destruct (select_segments_chain _ _ _ _ _ H) as (_ & _ & _ & _ & _ & _ & Ht & _). exact Ht.
Qed.

(** X10: nothing is invented.  Every returned segment is a segment of the
    document: same lecture title, topic, minutes and order (1 when the
    document gives none). *)
Theorem recommend_segments_from_document
        lectures daily_mins fatigue_score completed_courses selected_lectures chosen total :
  recommend_segments lectures daily_mins fatigue_score completed_courses selected_lectures
  = Ok (chosen, total) ->
  forall c, In c chosen ->
  exists lec seg,
    In lec lectures /\ In seg (segments_of lec)
    /\ lecture_title c = dict_get (lec_title lec) /\ topic c = dict_get (seg_topic seg)
    /\ seg_mins seg = Present (mins c)
    /\ dict_get_default (seg_order seg) 1 = Some (order c).
Proof.
  intros H c Hc. apply recommend_with_In in H as (items & Hitems & Hch).
  destruct (Hch c Hc) as (it & Hit & E).
  apply eligible_items_In in Hitems as (flat & Hflat & Hel).
  destruct (Hel it Hit) as (Hin & _).
  destruct (flatten_segments_origin _ _ Hflat it Hin)
    as (lec & seg & H1 & H2 & H3 & H4 & H5 & _ & H6).
  exists lec, seg. destruct E as [-> | ->]; cbn [chosen_record lecture_title topic mins order];
    auto 7.
Qed.

(** *** What is raised *)

Lemma raises_only_bind {A B : Type} (P : exn -> Prop) (c : result A) (k : A -> result B) :
  raises_only P c -> (forall v, c = Ok v -> raises_only P (k v)) ->
  raises_only P (bind c k).
Proof.
  intros Hc Hk e. destruct c as [v | e']; cbn [bind].
  - apply (Hk v eq_refl).
  - intros E. injection E as <-. now apply Hc.
Qed.

Lemma raises_only_Ok {A : Type} (P : exn -> Prop) (v : A) : raises_only P (Ok v).
Proof. intros e H. discriminate. Qed.

Lemma raises_only_mapM {A B : Type} (P : exn -> Prop) (f : A -> result B) xs :
  (forall x, raises_only P (f x)) -> raises_only P (mapM f xs).
Proof.
  intros Hf. induction xs as [| x xs IH]; cbn [mapM]; [apply raises_only_Ok |].
  apply raises_only_bind; [apply Hf |]. intros y _.
  apply raises_only_bind; [exact IH |]. intros ys _. apply raises_only_Ok.
Qed.

Lemma raises_only_foldM {A S : Type} (P : exn -> Prop) (f : S -> A -> result S) xs :
  (forall s x, raises_only P (f s x)) -> forall s, raises_only P (foldM f s xs).
Proof.
  intros Hf. induction xs as [| x xs IH]; intros s; cbn [foldM]; [apply raises_only_Ok |].
  apply raises_only_bind; [apply Hf |]. intros s' _. apply IH.
Qed.

Lemma raises_only_impl {A : Type} (P Q : exn -> Prop) (c : result A) :
  (forall e, P e -> Q e) -> raises_only P c -> raises_only Q c.
Proof. intros HPQ Hc e He. apply HPQ. now apply Hc. Qed.

Lemma py_index_raises len i : raises_only (eq IndexError) (py_index len i).
Proof.
  intros e. unfold py_index.
  destruct ((0 <=? i) && (i <? len)); [discriminate |].
  destruct ((i <? 0) && (- len <=? i)); [discriminate |]. congruence.
Qed.

Lemma py_getitem_raises {A : Type} (l : list A) i : raises_only (eq IndexError) (py_getitem l i).
Proof.
  unfold py_getitem. apply raises_only_bind; [apply py_index_raises |].
  intros n _ e. destruct (nth_error l n); [discriminate | congruence].
Qed.

Lemma py_setitem_raises {A : Type} (l : list A) i v :
  raises_only (eq IndexError) (py_setitem l i v).
Proof.
  unfold py_setitem. apply raises_only_bind; [apply py_index_raises |].
  intros n _. apply raises_only_Ok.
Qed.

Lemma relax_raises i w dp s : raises_only (eq IndexError) (relax i w dp s).
Proof.
  unfold relax. apply raises_only_bind; [apply py_getitem_raises |]. intros a _.
  destruct (a =? -1); [| apply raises_only_Ok].
  apply raises_only_bind; [apply py_getitem_raises |]. intros b _.
  destruct (negb (b =? -1)); [apply py_setitem_raises | apply raises_only_Ok].
Qed.

Lemma fill_dp_raises cap us dp : raises_only (eq IndexError) (fill_dp cap us dp).
Proof.
  unfold fill_dp. apply raises_only_foldM. intros d [i w]. unfold fill_item.
  destruct (w <=? 0); [apply raises_only_Ok |].
  apply raises_only_foldM. intros. apply relax_raises.
Qed.

Lemma scan_first_raises dp b ss : raises_only (eq IndexError) (scan_first dp b ss).
Proof.
  induction ss as [| s ss IH]; cbn [scan_first]; [apply raises_only_Ok |].
  apply raises_only_bind; [apply py_getitem_raises |]. intros a _.
  destruct (negb (a =? -1)); [apply raises_only_Ok | exact IH].
Qed.

Lemma choose_best_raises dp low_u cap : raises_only (eq IndexError) (choose_best dp low_u cap).
Proof.
  unfold choose_best. apply raises_only_bind.
  - apply raises_only_foldM. intros b s. unfold scan_last.
    apply raises_only_bind; [apply py_getitem_raises |]. intros. apply raises_only_Ok.
  - intros b _. destruct (b =? -1); [| apply raises_only_Ok].
    apply raises_only_bind; [apply scan_first_raises |]. intros b2 _.
    destruct (b2 =? -1); [apply scan_first_raises | apply raises_only_Ok].
Qed.

Lemma backtrack_raises fuel dp scaled chosen cur :
  raises_only (eq IndexError) (backtrack fuel dp scaled chosen cur).
Proof.
  revert chosen cur. induction fuel as [| fuel IH]; intros chosen cur; cbn [backtrack]; unfold set_contains, set_add;
    [apply raises_only_Ok |].
  destruct (cur <=? 0); [apply raises_only_Ok |].
  apply raises_only_bind; [apply py_getitem_raises |]. intros i _.
  destruct (existsb (Z.eqb i) chosen); [apply raises_only_Ok |].
  apply raises_only_bind; [apply py_getitem_raises |]. intros entry _. apply IH.
Qed.

Lemma select_segments_raises items low_u high_u :
  raises_only selector_error (select_segments items low_u high_u).
Proof.
  assert (Hidx : forall e, IndexError = e -> selector_error e)
    by (intros e <-; right; right; reflexivity).
  unfold select_segments, select_with, set_new. apply raises_only_bind.
  - intros e He. apply mapM_scale_item_raises in He as [-> | ->];
      [left | right; left]; reflexivity.
  - intros scaled _. apply raises_only_bind.
    { eapply raises_only_impl; [exact Hidx | apply py_setitem_raises]. }
    intros dp0 _. apply raises_only_bind.
    { eapply raises_only_impl; [exact Hidx | apply fill_dp_raises]. }
    intros dp _. apply raises_only_bind.
    { eapply raises_only_impl; [exact Hidx | apply choose_best_raises]. }
    intros best _. destruct (best <=? 0); [apply raises_only_Ok |].
    apply raises_only_bind.
    { eapply raises_only_impl; [exact Hidx | apply backtrack_raises]. }
    intros bt _. apply raises_only_bind; [| intros; apply raises_only_Ok].
    apply raises_only_mapM. intros i.
    apply raises_only_bind; [| intros; apply raises_only_Ok].
    eapply raises_only_impl; [exact Hidx | apply py_getitem_raises].
Qed.

Lemma py_int_raises x : raises_only conversion_error (py_int x).
Proof.
  intros e. destruct x; cbn; intros H; try discriminate; injection H as <-;
    [right | left]; reflexivity.
Qed.

Lemma int_to_float_raises n : raises_only conversion_error (int_to_float n).
Proof.
  intros e. unfold int_to_float.
  destruct (binary_normalize prec emax n 0 false); intros H; try discriminate.
  injection H as <-. right. reflexivity.
Qed.

Lemma derate_raises u f : raises_only conversion_error (derate u f).
Proof.
  unfold derate. apply raises_only_bind; [apply int_to_float_raises |].
  intros x _. apply py_int_raises.
Qed.

Lemma budget_window_raises daily_mins fatigue_score :
  raises_only conversion_error (budget_window daily_mins fatigue_score).
Proof.
  assert (Hd : forall l h f g, raises_only conversion_error
            (l' <- derate l f ;; h' <- derate h g ;; Ok (l', h'))).
  { intros. apply raises_only_bind; [apply derate_raises |]. intros l' _.
    apply raises_only_bind; [apply derate_raises |]. intros. apply raises_only_Ok. }
  unfold budget_window.
  apply raises_only_bind; [intros e He; exact (to_units_raises _ _ He) |]. intros low _.
  apply raises_only_bind; [intros e He; exact (to_units_raises _ _ He) |]. intros high _.
  apply raises_only_bind.
  - destruct (flt f0_6 fatigue_score); [apply Hd | apply raises_only_Ok].
  - intros [l h] _. destruct (flt f0_8 fatigue_score); [apply Hd | apply raises_only_Ok].
Qed.

Lemma from_units_raises u : raises_only (eq OverflowError) (from_units u).
Proof.
  intros e. unfold from_units, int_true_div.
  destruct u as [| p | p]; [discriminate | |];
    destruct (fdiv _ _); intros H; try discriminate; injection H as <-; reflexivity.
Qed.

(** X6: the errors of a recommendation.  It raises [TypeError] exactly
    on the documents that the flattener cannot read, whatever the other
    arguments are: a segment whose [mins] is absent or [None], or whose
    [difficulty] or [order] is [None], or a lecture whose [segments] is
    [None].  On any other document an error is a [ValueError], an
    [OverflowError] or an [IndexError]. *)
Theorem recommend_segments_errors
        lectures daily_mins fatigue_score completed_courses selected_lectures :
  match recommend_segments lectures daily_mins fatigue_score
                           completed_courses selected_lectures with
  | Raise e =>
      if document_type_error lectures
      then e = TypeError
      else e = ValueError \/ e = OverflowError \/ e = IndexError
  | Ok _ => document_type_error lectures = false
  end.
Proof.
  unfold recommend_segments, recommend_with, eligible_items.
  pose proof (flatten_segments_outcome lectures) as Hf.
  destruct (flatten_segments lectures) as [flat | e]; cbn [bind].
  - destruct Hf as [Hf _]. rewrite Hf.
    assert (G : forall items,
      match (if is_empty items then Ok ([], f0_0)
             else ' (low_u, high_u) <- budget_window daily_mins fatigue_score ;;
                  low_mins <- from_units low_u ;;
                  if flt (py_sum (map mins items)) low_mins
                  then Ok (items, py_sum (map mins items))
                  else select_with choose_best items low_u high_u) with
      | Raise e => e = ValueError \/ e = OverflowError \/ e = IndexError
      | Ok _ => false = false
      end).
    { intros items. destruct (is_empty items); [reflexivity |].
      match goal with |- match ?c with _ => _ end =>
        assert (Hr : raises_only selector_error c); [| destruct c; [reflexivity | now apply Hr]]
      end.
      apply raises_only_bind.
      { eapply raises_only_impl; [| apply budget_window_raises].
        intros e [-> | ->]; [left | right; left]; reflexivity. }
      intros [low_u high_u] _. apply raises_only_bind.
      { eapply raises_only_impl; [| apply from_units_raises].
        intros e <-. right; left; reflexivity. }
      intros low_mins _. destruct (flt _ low_mins); [apply raises_only_Ok |].
      apply select_segments_raises. }
    destruct (is_empty flat); cbn [bind]; [apply (G []) |].
    destruct (is_empty _); cbn [bind]; [apply (G []) | apply G].
  - destruct Hf as [-> ->]. reflexivity.
Qed.

(** *** The gate in closed form *)

Lemma unlocked_succ segs x :
  In x segs -> unlocked segs (order x) -> unlocked segs (order x + 1).
Proof.
  intros Hx [H1 Hall]. split; [lia |]. intros j Hj.
  destruct (Z.eq_dec j (order x)) as [-> | Hne]; [eauto | apply Hall; lia].
Qed.

Lemma StronglySorted_app_right {A : Type} (R : A -> A -> Prop) (l1 l2 : list A) :
  StronglySorted R (l1 ++ l2) -> StronglySorted R l2.
Proof.
  induction l1 as [| a l1 IH]; cbn [app]; [auto |].
  intros H. inversion H; subst. auto.
Qed.

(** The loop over a sorted list: [done] has been processed, [rest] is
    still to come. *)
Lemma gate_loop_sorted_unlocked :
  forall rest done avail,
    StronglySorted order_le (done ++ rest) ->
    (forall o, In o avail
               <-> o = 1 \/ exists y, In y done /\ unlocked (done ++ rest) (order y)
                                       /\ o = order y + 1) ->
    forall x, In x (gate_loop avail rest)
              <-> In x rest /\ unlocked (done ++ rest) (order x).
Proof.
  induction rest as [| s rest IH]; intros done avail Hsorted Havail x; cbn [gate_loop].
  - split; [intros [] | intros [[] _]].
  - assert (Hsplit : done ++ s :: rest = (done ++ [s]) ++ rest)
      by (rewrite <- app_assoc; reflexivity).
    assert (Hkeep : (order s =? 1) || mem_order (order s) avail = true
                    <-> unlocked (done ++ s :: rest) (order s)).
    { rewrite orb_true_iff, Z.eqb_eq, mem_order_In, Havail. split.
      - intros [E | [E | (y & Hy & Hu & E)]].
        + split; [lia |]. intros j Hj. lia.
        + split; [lia |]. intros j Hj. lia.
        + rewrite E. apply unlocked_succ; [apply in_or_app; now left | exact Hu].
      - intros [H1 Hall]. destruct (Z.eq_dec (order s) 1) as [E | Hne]; [now left |].
        right. right. destruct (Hall (order s - 1) ltac:(lia)) as (y & Hy & Ey).
        exists y. split; [| split; [| lia]].
        + apply in_app_or in Hy as [Hy | Hy]; [exact Hy | exfalso].
          pose proof (StronglySorted_app_right _ _ _ Hsorted) as Hs.
          destruct Hy as [<- | Hy]; [lia |].
          inversion Hs as [| a l _ Hall']; subst.
          rewrite Forall_forall in Hall'. specialize (Hall' y Hy).
          unfold order_le in Hall'. lia.
        + split; [lia |]. intros j Hj. apply Hall. lia. }
    assert (Hnext : forall avail',
              (forall o, In o avail'
                 <-> o = 1 \/ exists y, In y (done ++ [s])
                                        /\ unlocked ((done ++ [s]) ++ rest) (order y)
                                        /\ o = order y + 1) ->
              forall x, In x (gate_loop avail' rest)
                        <-> In x rest /\ unlocked (done ++ s :: rest) (order x)).
    { intros avail' Hav'. rewrite Hsplit. apply IH; [rewrite <- Hsplit; exact Hsorted | exact Hav']. }
    destruct ((order s =? 1) || mem_order (order s) avail) eqn:Ek.
    + assert (Hu : unlocked (done ++ s :: rest) (order s)) by (now apply Hkeep).
      cbn [In]. rewrite (Hnext (order s + 1 :: avail)).
      * split.
        -- intros [<- | [H1 H2]]; [split; [now left | exact Hu] | split; [now right | exact H2]].
        -- intros [[<- | H1] H2]; [now left | right; split; assumption].
      * intros o. cbn [In]. rewrite Havail, <- Hsplit. split.
        -- intros [<- | [E | (y & Hy & Huy & E)]].
           ++ right. exists s. split; [apply in_or_app; right; now left | split; [exact Hu | reflexivity]].
           ++ now left.
           ++ right. exists y. split; [apply in_or_app; now left | split; assumption].
        -- intros [E | (y & Hy & Huy & E)]; [right; now left |].
           apply in_app_or in Hy as [Hy | [<- | []]]; [right; right; eauto | left; now symmetry].
    + assert (Hu : ~ unlocked (done ++ s :: rest) (order s)).
      { intros Hu. apply Hkeep in Hu. congruence. }
      rewrite (Hnext avail).
      * cbn [In]. split; [intros [H1 H2]; split; [now right | exact H2] |].
        intros [[<- | H1] H2]; [contradiction | split; assumption].
      * intros o. rewrite Havail, <- Hsplit. split.
        -- intros [E | (y & Hy & Huy & E)]; [now left |].
           right. exists y. split; [apply in_or_app; now left | split; assumption].
        -- intros [E | (y & Hy & Huy & E)]; [now left |].
           apply in_app_or in Hy as [Hy | [<- | []]]; [right; eauto | contradiction].
Qed.

Lemma unlocked_ext segs segs' o :
  (forall y, In y segs <-> In y segs') -> unlocked segs o <-> unlocked segs' o.
Proof.
  intros H. unfold unlocked. split; intros [H1 Hall]; (split; [exact H1 |]);
    intros j Hj; destruct (Hall j Hj) as (y & Hy & Ey); exists y; (split; [apply H; exact Hy | exact Ey]).
Qed.

Lemma gate_lecture_unlocked segs x :
  In x (gate_lecture segs) <-> In x segs /\ unlocked segs (order x).
Proof.
  unfold gate_lecture.
  rewrite (gate_loop_sorted_unlocked (sort_by_order segs) [] [1]).
  - cbn [app]. rewrite sort_by_order_In.
    rewrite (unlocked_ext (sort_by_order segs) segs); [reflexivity |].
    intros y. apply sort_by_order_In.
  - cbn [app]. apply sort_by_order_sorted.
  - intros o. cbn [In]. split; [intros [<- | []]; now left |].
    intros [-> | (y & [] & _)]. now left.
Qed.

(** *** The groups of [order_map] *)

Lemma opt_string_eqb_neq a b : opt_string_eqb a b = false <-> a <> b.
Proof.
  rewrite <- not_true_iff_false, opt_string_eqb_eq. reflexivity.
Qed.

Lemma filter_none {A : Type} (f : A -> bool) (l : list A) :
  (forall x, In x l -> f x = false) -> filter f l = [].
Proof.
  induction l as [| a l IH]; intros H; cbn [filter]; [reflexivity |].
  rewrite (H a (or_introl eq_refl)). apply IH. intros x Hx. apply H. now right.
Qed.

Lemma order_map_add_keys it m :
  map fst (order_map_add it m)
  = if existsb (fun k => opt_string_eqb k (lecture_title it)) (map fst m)
    then map fst m else map fst m ++ [lecture_title it].
Proof.
  induction m as [| [k segs] m IH]; cbn [order_map_add map fst existsb]; [reflexivity |].
  destruct (opt_string_eqb k (lecture_title it)); cbn [orb map fst]; [reflexivity |].
  rewrite IH. destruct (existsb _ (map fst m)); reflexivity.
Qed.

Lemma order_map_add_groups seen it m :
  NoDup (map fst m) ->
  groups_filter seen m ->
  (forall x, In x seen -> lecture_title x = lecture_title it ->
             In (lecture_title it) (map fst m)) ->
  groups_filter (seen ++ [it]) (order_map_add it m).
Proof.
  unfold groups_filter.
  assert (Hsnoc : forall k, filter (title_is k) (seen ++ [it])
                            = filter (title_is k) seen
                              ++ (if opt_string_eqb k (lecture_title it) then [it] else [])).
  { intros k. rewrite filter_app. reflexivity. }
  induction m as [| [k segs] m IH]; intros Hnd Hg Hcov; cbn [order_map_add].
  - constructor; [| constructor]. cbn [fst snd]. rewrite Hsnoc, opt_string_eqb_refl.
    rewrite filter_none; [reflexivity |].
    intros x Hx. unfold title_is. apply not_true_iff_false. intros E.
    apply opt_string_eqb_eq in E. destruct (Hcov x Hx (eq_sym E)).
  - inversion Hg as [| e l Hhead Htail]; subst e l. cbn [fst snd] in Hhead.
    cbn [map fst] in Hnd. inversion Hnd as [| a l Hnotin Hnd']; subst a l.
    destruct (opt_string_eqb k (lecture_title it)) eqn:Ek.
    + constructor.
      * cbn [fst snd]. rewrite Hsnoc, Ek, <- Hhead. reflexivity.
      * apply Forall_forall. intros [k' segs'] Hin. cbn [fst snd].
        rewrite Forall_forall in Htail. specialize (Htail _ Hin). cbn [fst snd] in Htail.
        rewrite Hsnoc.
        replace (opt_string_eqb k' (lecture_title it)) with false; [now rewrite app_nil_r |].
        symmetry. apply opt_string_eqb_neq. intros ->. apply opt_string_eqb_eq in Ek. subst k.
        apply Hnotin. apply in_map_iff. exists (lecture_title it, segs'). auto.
    + constructor.
      * cbn [fst snd]. rewrite Hsnoc, Ek. now rewrite app_nil_r.
      * apply IH; [exact Hnd' | exact Htail |].
        intros x Hx Ex. destruct (Hcov x Hx Ex) as [E | H]; [| exact H].
        cbn [fst] in E. apply opt_string_eqb_neq in Ek. congruence.
Qed.

Lemma order_map_groups items :
  NoDup (map fst (order_map items))
  /\ groups_filter items (order_map items)
  /\ forall x, In x items -> In (lecture_title x) (map fst (order_map items)).
Proof.
  unfold order_map.
  assert (G : forall l seen m,
            NoDup (map fst m) -> groups_filter seen m ->
            (forall x, In x seen -> In (lecture_title x) (map fst m)) ->
            let m' := fold_left (fun m it => order_map_add it m) l m in
            NoDup (map fst m') /\ groups_filter (seen ++ l) m'
            /\ forall x, In x (seen ++ l) -> In (lecture_title x) (map fst m')).
  { induction l as [| it l IH]; intros seen m Hnd Hg Hcov; cbn [fold_left].
    - rewrite app_nil_r. auto.
    - replace (seen ++ it :: l) with ((seen ++ [it]) ++ l)
        by (rewrite <- app_assoc; reflexivity).
      assert (Hkeys := order_map_add_keys it m).
      destruct (existsb (fun k => opt_string_eqb k (lecture_title it)) (map fst m)) eqn:Ex.
      + apply IH.
        * rewrite Hkeys. exact Hnd.
        * apply order_map_add_groups; [exact Hnd | exact Hg |].
          intros x Hx E. rewrite <- E. now apply Hcov.
        * rewrite Hkeys. intros x Hx. apply in_app_or in Hx as [Hx | [<- | []]]; [now apply Hcov |].
          apply existsb_exists in Ex as (k & Hk & Ek). apply opt_string_eqb_eq in Ek.
          now subst k.
      + assert (Hnot : ~ In (lecture_title it) (map fst m)).
        { intros Hin. apply not_true_iff_false in Ex. apply Ex. apply existsb_exists.
          exists (lecture_title it). split; [exact Hin | apply opt_string_eqb_refl]. }
        apply IH.
        * rewrite Hkeys. apply NoDup_app; [exact Hnd | constructor; [intros [] | constructor] |].
          intros a Ha [<- | []]. contradiction.
        * apply order_map_add_groups; [exact Hnd | exact Hg |].
          intros x Hx E. rewrite <- E. now apply Hcov.
        * rewrite Hkeys. intros x Hx. apply in_or_app.
          apply in_app_or in Hx as [Hx | [<- | []]]; [left; now apply Hcov | right; now left]. }
  apply (G items [] []); [constructor | constructor | intros x []].
Qed.

Lemma soft_order_gate_iff (items : list item) (x : item) :
  In x (soft_order_gate items)
  <-> In x items
      /\ 1 <= order x
      /\ forall j, 1 <= j < order x ->
                   exists y, In y items /\ lecture_title y = lecture_title x /\ order y = j.
Proof.
  destruct (order_map_groups items) as (_ & Hg & Hcov).
  unfold groups_filter in Hg. rewrite Forall_forall in Hg.
  assert (Hun : forall k, lecture_title x = k ->
            (unlocked (filter (title_is k) items) (order x)
             <-> 1 <= order x
                 /\ forall j, 1 <= j < order x ->
                      exists y, In y items /\ lecture_title y = lecture_title x /\ order y = j)).
  { intros k Ek. unfold unlocked. split; intros [H1 Hall]; (split; [exact H1 |]);
      intros j Hj; destruct (Hall j Hj) as (y & Hy & Ey); exists y.
    - apply filter_In in Hy as [Hy Hk]. unfold title_is in Hk. apply opt_string_eqb_eq in Hk.
      repeat split; congruence.
    - destruct Ey as [Ty Oy]. split; [| exact Oy]. apply filter_In. split; [exact Hy |].
      unfold title_is. apply opt_string_eqb_eq. congruence. }
  unfold soft_order_gate. rewrite in_flat_map. split.
  - intros ([k segs] & Hin & Hx). cbn [snd] in Hx.
    specialize (Hg _ Hin). cbn [fst snd] in Hg. subst segs.
    apply gate_lecture_unlocked in Hx as [Hx Hu].
    apply filter_In in Hx as [Hx Hk]. unfold title_is in Hk. apply opt_string_eqb_eq in Hk.
    split; [exact Hx |]. apply (Hun k); [now symmetry | exact Hu].
  - intros (Hx & Hu).
    specialize (Hcov x Hx). apply in_map_iff in Hcov as ([k segs] & Ek & Hin).
    cbn [fst] in Ek. subst k. exists (lecture_title x, segs). split; [exact Hin |].
    cbn [snd]. specialize (Hg _ Hin). cbn [fst snd] in Hg. subst segs.
    apply gate_lecture_unlocked. split.
    + apply filter_In. split; [exact Hx | apply opt_string_eqb_refl].
    + apply (Hun (lecture_title x)); [reflexivity | exact Hu].
Qed.

(** X11: the soft-order gate in closed form.  An item passes the gate iff
    its order is at least 1 and every order below it, down to 1, is the
    order of some item with the same lecture title; items of other
    lectures have no influence. *)
Theorem soft_order_gate_unlocked (items : list item) (x : item) :
  In x (soft_order_gate items)
  <-> In x items
      /\ 1 <= order x
      /\ forall j, 1 <= j < order x ->
                   exists y, In y items /\ lecture_title y = lecture_title x /\ order y = j.
Proof. apply soft_order_gate_iff. Qed.



(** *** Unit converter *)

(** X14: the outcome of [to_units].  It returns a non-negative integer when
    the product [mins * 10] is finite, 0 when that product is not above
    zero; it raises [ValueError] when the product is a NaN and
    [OverflowError] when it is infinite. *)
Theorem to_units_outcome (m : float) :
  match to_units m with
  | Ok u => 0 <= u /\ is_finite (fmul m f10_0) = true
            /\ (fle (fmul m f10_0) f0_0 = true -> u = 0)
  | Raise e => (e = ValueError /\ fmul m f10_0 = S754_nan)
               \/ (e = OverflowError /\ exists s, fmul m f10_0 = S754_infinity s)
  end.
Proof.
  unfold to_units. rewrite int_to_float_SCALE. cbn [bind].
  destruct (fmul m f10_0) as [s | s | | s p e] eqn:E; cbn [py_round bind].
  - repeat split; try lia.
  - right. split; [reflexivity | eauto].
  - left. split; reflexivity.
  - split; [lia |]. split; [reflexivity |].
    intros Hle. apply fle_zero_nonpositive in Hle. destruct s; [| destruct Hle].
    cbn [apply_sign]. destruct (Z.leb_spec 0 e).
    + assert (0 <= Z.pos p * 2 ^ e)
        by (apply Z.mul_nonneg_nonneg; [lia | apply Z.pow_nonneg; lia]). lia.
    + pose proof (round_half_even_nonneg (Z.pos p) (- e) ltac:(lia) ltac:(lia)). lia.
Qed.

Lemma to_units_outcome_witness :
  match to_units f1_25 with
  | Ok u => 0 <= u /\ is_finite (fmul f1_25 f10_0) = true
            /\ (fle (fmul f1_25 f10_0) f0_0 = true -> u = 0)
  | Raise e => (e = ValueError /\ fmul f1_25 f10_0 = S754_nan)
               \/ (e = OverflowError /\ exists s, fmul f1_25 f10_0 = S754_infinity s)
  end.
Proof. exact (to_units_outcome f1_25). Defined.

(** X15: units to minutes and back.  For every unit count from 0 to 14400
    (a whole day), [to_units (from_units u)] is [u]. *)
Theorem units_round_trip_day (u : Z) :
  0 <= u <= 14400 ->
  exists x, from_units u = Ok x /\ to_units x = Ok u.
Proof.
  intros Hu.
  assert (Hall : forallb units_round_trip (range_up 0 14401) = true)
    by (vm_compute; reflexivity).
  rewrite forallb_forall in Hall. specialize (Hall u ltac:(apply range_up_In; lia)).
  unfold units_round_trip in Hall.
  destruct (from_units u) as [x |]; [| discriminate].
  destruct (to_units x) as [v |] eqn:Ev; [| discriminate].
  apply Z.eqb_eq in Hall. subst v. exists x. split; [reflexivity | exact Ev].
Qed.

Lemma units_round_trip_day_witness :
  exists x, from_units 12 = Ok x /\ to_units x = Ok 12.
Proof. apply (units_round_trip_day 12). lia. Defined.

(** *** Fatigue model *)

Lemma fle_zero_nonnegative x : fle f0_0 x = true <-> nonnegative x.
Proof.
  destruct x as [s | [] | | [] m e]; cbn; split; intros H; auto; discriminate.
Qed.

Lemma fmul_nonnegative m e x :
  nonnegative x -> nonnegative (fmul (S754_finite false m e) x).
Proof.
  destruct x as [s | [] | | [] mx ex]; cbn [nonnegative]; intros H; try contradiction;
    try exact I.
  unfold fmul, SFmul. cbn [xorb].
  destruct (binary_round_aux_sign false (Z.pos (m * mx)) (e + ex) loc_Exact ltac:(lia))
    as [E | [E | (p & q & E)]]; rewrite E; exact I.
Qed.

Lemma binary_round_nonnegative m e : nonnegative (binary_round prec emax false m e).
Proof.
  unfold binary_round.
  destruct (shl_align m e _) as [mz ez].
  destruct (binary_round_aux_sign false (Z.pos mz) ez loc_Exact ltac:(lia))
    as [E | [E | (p & q & E)]]; rewrite E; exact I.
Qed.

Lemma fadd_nonnegative x y : nonnegative x -> nonnegative y -> nonnegative (fadd x y).
Proof.
  destruct x as [sx | [] | | [] mx ex]; cbn [nonnegative]; intros Hx; try contradiction;
    destruct y as [sy | [] | | [] my ey]; cbn [nonnegative]; intros Hy; try contradiction;
    try exact I.
  - destruct sx, sy; exact I.
  - unfold fadd, SFadd. cbn [cond_Zopp Z.add binary_normalize].
    apply binary_round_nonnegative.
Qed.

(** Below a positive finite bound, or equal to it, when not above it. *)
Lemma not_above_finite mb eb x :
  nonnegative x -> flt (S754_finite false mb eb) x = false ->
  fle x (S754_finite false mb eb) = true.
Proof.
  unfold flt, fle, SFltb, SFleb.
  destruct x as [s | [] | | [] m e]; cbn [nonnegative SFcompare]; intros Hx; try contradiction;
    try reflexivity; try discriminate.
  rewrite (Z.compare_antisym eb e).
  destruct (eb ?= e); cbn [CompOpp]; try reflexivity; try discriminate.
  pose proof (Pos.compare_cont_antisym mb m Eq) as Ha. cbn [CompOpp] in Ha.
  change (PosDef.Pos.compare_cont Eq m mb) with (Pos.compare_cont Eq m mb).
  change (PosDef.Pos.compare_cont Eq mb m) with (Pos.compare_cont Eq mb m).
  rewrite <- Ha.
  destruct (Pos.compare_cont Eq mb m); cbn [CompOpp]; try reflexivity; discriminate.
Qed.

(** X18: the fatigue increment is never above 1.0, and for inputs that are
    not below zero it lies between 0 and 1.0. *)
Theorem compute_fatigue_bounds (minutes_done avg_difficulty : float) :
  flt f1_0 (compute_fatigue minutes_done avg_difficulty) = false
  /\ (fle f0_0 minutes_done = true -> fle f0_0 avg_difficulty = true ->
      fle f0_0 (compute_fatigue minutes_done avg_difficulty) = true
      /\ fle (compute_fatigue minutes_done avg_difficulty) f1_0 = true).
Proof.
  unfold compute_fatigue, py_min.
  set (score := fadd (fmul f0_007 minutes_done) (fmul f0_02 avg_difficulty)).
  destruct (flt f1_0 score) eqn:E.
  - split; [reflexivity |]. intros _ _. split; reflexivity.
  - split; [exact E |]. intros Hm Hd.
    apply fle_zero_nonnegative in Hm, Hd.
    assert (Hs : nonnegative score).
    { apply fadd_nonnegative; apply fmul_nonnegative; assumption. }
    split; [now apply fle_zero_nonnegative |].
    apply not_above_finite; assumption.
Qed.

Lemma compute_fatigue_bounds_witness :
  fle f0_0 (compute_fatigue f15_0 f5_0) = true
  /\ fle (compute_fatigue f15_0 f5_0) f1_0 = true.
Proof. apply (proj2 (compute_fatigue_bounds f15_0 f5_0)); reflexivity. Defined.

(** *** Streak updater *)

(** X19: one update of the streak.  A counter that is not below zero stays
    so and grows by at most one; the streak is stamped with today's date,
    stored back in the store, and the settings and the stored fatigue are
    left alone. *)
Theorem update_streak_step (today : string) (st : store) (minutes_done : float) :
  let old := get_default (store_streak st) default_streak in
  let st' := fst (update_streak today st minutes_done) in
  let new := snd (update_streak today st minutes_done) in
  0 <= current old ->
  0 <= current new <= current old + 1
  /\ last_date new = Some today
  /\ last_fatigue new = last_fatigue old
  /\ store_streak st' = Some new
  /\ settings_daily_mins st' = settings_daily_mins st.
Proof.
  cbn zeta. intros Hold. unfold update_streak. cbn [fst snd store_streak settings_daily_mins].
  set (old := get_default (store_streak st) default_streak) in *.
  destruct (opt_string_eqb (last_date old) (Some today)) eqn:E; cbn [negb].
  - apply opt_string_eqb_eq in E.
    cbn [current last_date last_fatigue].
    destruct (fle _ _ && flt _ _); repeat split; try lia; exact E.
  - cbn [current last_date last_fatigue].
    destruct (fle _ minutes_done); repeat split; lia.
Qed.

Lemma update_streak_step_witness :
  0 <= current (snd (update_streak "2024-01-02" (store_same_day "2024-01-02") f5_0))
    <= current (get_default (store_streak (store_same_day "2024-01-02")) default_streak) + 1
  /\ last_date (snd (update_streak "2024-01-02" (store_same_day "2024-01-02") f5_0))
     = Some "2024-01-02"%string
  /\ last_fatigue (snd (update_streak "2024-01-02" (store_same_day "2024-01-02") f5_0))
     = last_fatigue (get_default (store_streak (store_same_day "2024-01-02")) default_streak)
  /\ store_streak (fst (update_streak "2024-01-02" (store_same_day "2024-01-02") f5_0))
     = Some (snd (update_streak "2024-01-02" (store_same_day "2024-01-02") f5_0))
  /\ settings_daily_mins (fst (update_streak "2024-01-02" (store_same_day "2024-01-02") f5_0))
     = settings_daily_mins (store_same_day "2024-01-02").
Proof.
  apply (update_streak_step "2024-01-02" (store_same_day "2024-01-02") f5_0).
  cbn. lia.
Defined.

(** *** Segment flattener *)

Lemma flatten_lecture_fields li lec n segs items :
  mapM (flatten_segment li lec) (enumerate_from n segs) = Ok items ->
  map item_fields items = map (segment_fields lec) segs
  /\ map id items = map (fun si => Some (li, si)) (seq n (List.length segs)).
Proof.
  revert n items. induction segs as [| seg segs IH]; intros n items H;
    cbn [enumerate_from mapM] in H.
  - injection H as <-. split; reflexivity.
  - apply bind_Ok_inv in H as (it & Hit & H). apply bind_Ok_inv in H as (its & Hits & H).
    injection H as <-.
    pose proof (flatten_segment_outcome li lec n seg) as Hs. rewrite Hit in Hs.
    destruct Hs as (_ & (Ht & Hp & Hm & Hd & Ho) & Hid & _).
    destruct (IH _ _ Hits) as (H1 & H2).
    split.
    + cbn [map]. rewrite H1. f_equal. unfold item_fields, segment_fields.
      rewrite Ht, Hp, Hm, Hd, Ho. reflexivity.
    + cbn [map List.length seq]. now rewrite H2, Hid.
Qed.

Lemma flatten_lectures_fields n lectures groups :
  mapM flatten_lecture (enumerate_from n lectures) = Ok groups ->
  map item_fields (concat groups) = document_fields lectures
  /\ map id (concat groups) = document_ids n lectures.
Proof.
  revert n groups. induction lectures as [| lec lectures IH]; intros n groups H;
    cbn [enumerate_from mapM] in H.
  - injection H as <-. split; reflexivity.
  - apply bind_Ok_inv in H as (g & Hg & H). apply bind_Ok_inv in H as (gs & Hgs & H).
    injection H as <-. unfold flatten_lecture in Hg.
    apply bind_Ok_inv in Hg as (segs & Hsegs & Hg).
    assert (Esegs : segs = enumerate (segments_of lec)).
    { unfold segments_of.
      destruct (lec_segments lec); cbn [dict_get_default py_enumerate] in Hsegs;
        [injection Hsegs as <- | discriminate | injection Hsegs as <-]; reflexivity. }
    subst segs. unfold enumerate in Hg.
    destruct (flatten_lecture_fields _ _ _ _ _ Hg) as (H1 & H2).
    destruct (IH _ _ Hgs) as (H3 & H4).
    unfold document_fields. cbn [concat flat_map document_ids]. rewrite !map_app.
    fold (document_fields lectures). now rewrite H1, H2, H3, H4.
Qed.

Lemma document_ids_from n lectures x :
  In x (document_ids n lectures) ->
  exists li si, x = Some (li, si) /\ (n <= li)%nat.
Proof.
  revert n. induction lectures as [| lec lectures IH]; intros n Hx; cbn [document_ids] in Hx;
    [destruct Hx |].
  apply in_app_or in Hx as [Hx | Hx].
  - apply in_map_iff in Hx as (si & <- & _). exists n, si. split; [reflexivity | lia].
  - destruct (IH _ Hx) as (li & si & -> & Hle). exists li, si. split; [reflexivity | lia].
Qed.

Lemma document_ids_NoDup n lectures : NoDup (document_ids n lectures).
Proof.
  revert n. induction lectures as [| lec lectures IH]; intros n; cbn [document_ids];
    [constructor |].
  apply NoDup_app.
  - apply Finite.Injective_map_NoDup; [| apply seq_NoDup].
    intros a b E. congruence.
  - apply IH.
  - intros x Hx Hx'. apply in_map_iff in Hx as (si & <- & _).
    destruct (document_ids_from _ _ _ Hx') as (li & si' & E & Hle).
    injection E as <- _. lia.
Qed.

(** X16: the flattener keeps the document.  When it returns, the items are
    the segments of the document in their order (lecture by lecture), with
    the lecture's title, the segment's topic and minutes, and with the
    defaults 3 and 1 for a missing difficulty or order; their identifiers
    are pairwise distinct. *)
Theorem flatten_segments_keeps_document (lectures : list lecture_doc) (items : list item) :
  flatten_segments lectures = Ok items ->
  map item_fields items = document_fields lectures
  /\ map id items = document_ids 0 lectures
  /\ NoDup (map id items).
Proof.
  unfold flatten_segments, enumerate. intros H.
  apply bind_Ok_inv in H as (groups & Hg & H). injection H as <-.
  destruct (flatten_lectures_fields _ _ _ Hg) as [H1 H2].
  split; [exact H1 |]. split; [exact H2 |]. rewrite H2. apply document_ids_NoDup.
Qed.

Lemma flatten_segments_keeps_document_witness :
  map item_fields [eligible_of 0 0 "L" "a" f5_0 1; eligible_of 0 1 "L" "c" f5_0 3]
  = document_fields [lecture_1_3]
  /\ map id [eligible_of 0 0 "L" "a" f5_0 1; eligible_of 0 1 "L" "c" f5_0 3]
     = document_ids 0 [lecture_1_3]
  /\ NoDup (map id [eligible_of 0 0 "L" "a" f5_0 1; eligible_of 0 1 "L" "c" f5_0 3]).
Proof. apply (flatten_segments_keeps_document [lecture_1_3]). reflexivity. Defined.

(** *** Patch of old data *)

Lemma flatten_segment_patch li lec lec' si seg :
  lec_title lec' = lec_title lec ->
  flatten_segment li lec' (si, patch_segment seg) = flatten_segment li lec (si, seg).
Proof.
  intros Ht. unfold flatten_segment, patch_segment.
  cbn [seg_mins seg_topic seg_difficulty seg_order]. rewrite Ht.
  destruct (seg_difficulty seg), (seg_order seg); reflexivity.
Qed.

Lemma flatten_patched_segments li lec lec' segs :
  lec_title lec' = lec_title lec ->
  forall n,
    mapM (flatten_segment li lec') (enumerate_from n (map patch_segment segs))
    = mapM (flatten_segment li lec) (enumerate_from n segs).
Proof.
  intros Ht. induction segs as [| seg segs IH]; intros n; cbn [map enumerate_from mapM];
    [reflexivity |].
  rewrite IH, (flatten_segment_patch _ _ _ _ _ Ht). reflexivity.
Qed.

Lemma flatten_lecture_patch li lec lec' :
  patch_lecture lec = Ok lec' -> flatten_lecture (li, lec') = flatten_lecture (li, lec).
Proof.
  unfold patch_lecture.
  destruct (lec_segments lec) as [| | segs] eqn:Es; intros H; try discriminate;
    injection H as <-; [reflexivity |].
  unfold flatten_lecture. cbn [lec_segments]. rewrite Es.
  cbn [dict_get_default py_enumerate bind]. unfold enumerate.
  apply flatten_patched_segments. reflexivity.
Qed.

Lemma patch_lecture_raises lec e :
  patch_lecture lec = Raise e -> e = TypeError /\ lecture_type_error lec = true.
Proof.
  unfold patch_lecture, lecture_type_error.
  destruct (lec_segments lec); intros H; try discriminate. injection H as <-. auto.
Qed.

Lemma patch_segment_idempotent seg : patch_segment (patch_segment seg) = patch_segment seg.
Proof.
  unfold patch_segment. cbn [seg_topic seg_mins seg_difficulty seg_order].
  destruct (seg_difficulty seg), (seg_order seg); reflexivity.
Qed.

Lemma patch_lecture_idempotent lec lec' :
  patch_lecture lec = Ok lec' -> patch_lecture lec' = Ok lec'.
Proof.
  unfold patch_lecture.
  destruct (lec_segments lec) as [| | segs] eqn:Es; intros H; try discriminate;
    injection H as <-.
  - rewrite Es. reflexivity.
  - cbn [lec_title lec_segments]. rewrite map_map.
    rewrite (map_ext _ patch_segment); [reflexivity | apply patch_segment_idempotent].
Qed.

Lemma patch_lecture_fields lec lec' :
  patch_lecture lec = Ok lec' ->
  forall seg, In seg (segments_of lec') ->
              seg_difficulty seg <> Absent /\ seg_order seg <> Absent.
Proof.
  unfold patch_lecture, segments_of.
  destruct (lec_segments lec) as [| | segs] eqn:Es; intros H; try discriminate;
    injection H as <-.
  - rewrite Es. intros seg [].
  - cbn [lec_segments]. intros seg Hin. apply in_map_iff in Hin as (seg0 & <- & _).
    unfold patch_segment. cbn [seg_difficulty seg_order].
    destruct (seg_difficulty seg0), (seg_order seg0); split; discriminate.
Qed.

Lemma patch_lectures_outcome lectures :
  match patch_lectures lectures with
  | Ok patched =>
      (forall n, mapM flatten_lecture (enumerate_from n patched)
                 = mapM flatten_lecture (enumerate_from n lectures))
      /\ patch_lectures patched = Ok patched
      /\ (forall seg, In seg (all_segments patched) ->
                      seg_difficulty seg <> Absent /\ seg_order seg <> Absent)
  | Raise e => e = TypeError /\ document_type_error lectures = true
  end.
Proof.
  unfold patch_lectures. induction lectures as [| lec lectures IH]; cbn [mapM].
  - split; [reflexivity |]. split; [reflexivity |]. intros seg [].
  - destruct (patch_lecture lec) as [lec' |] eqn:El; cbn [bind].
    + destruct (mapM patch_lecture lectures) as [patched |]; cbn [bind].
      * destruct IH as (Hf & Hi & Hs). split; [| split].
        -- intros n. cbn [enumerate_from mapM].
           rewrite (flatten_lecture_patch n _ _ El), Hf. reflexivity.
        -- cbn [mapM]. rewrite (patch_lecture_idempotent _ _ El). cbn [bind].
           rewrite Hi. reflexivity.
        -- intros seg Hin. unfold all_segments in Hin. cbn [flat_map] in Hin.
           apply in_app_or in Hin as [Hin | Hin];
             [eapply patch_lecture_fields; eassumption | now apply Hs].
      * destruct IH as [-> IH]. split; [reflexivity |].
        unfold document_type_error in *. cbn [existsb]. rewrite IH. apply orb_true_r.
    + apply patch_lecture_raises in El as [-> El]. split; [reflexivity |].
      unfold document_type_error. cbn [existsb]. rewrite El. reflexivity.
Qed.

(** X17: the patch of old data is invisible to the engine.  Storing the
    defaults in the segments that lack [difficulty] or [order] changes
    neither the flattened segments nor any recommendation, leaves no
    segment without the two keys, and patching twice is patching once.
    The patch raises on a lecture whose [segments] is [None], a document
    on which the flattener raises as well. *)
Theorem patch_lectures_invisible (lectures : list lecture_doc) :
  match patch_lectures lectures with
  | Ok patched =>
      flatten_segments patched = flatten_segments lectures
      /\ (forall daily_mins fatigue_score completed_courses selected_lectures,
            recommend_segments patched daily_mins fatigue_score
                               completed_courses selected_lectures
            = recommend_segments lectures daily_mins fatigue_score
                                 completed_courses selected_lectures)
      /\ patch_lectures patched = Ok patched
      /\ (forall seg, In seg (all_segments patched) ->
                      seg_difficulty seg <> Absent /\ seg_order seg <> Absent)
  | Raise e => e = TypeError /\ flatten_segments lectures = Raise TypeError
  end.
Proof.
  pose proof (patch_lectures_outcome lectures) as H.
  destruct (patch_lectures lectures) as [patched | e].
  - destruct H as (Hf & Hi & Hs).
    assert (E : flatten_segments patched = flatten_segments lectures).
    { unfold flatten_segments, enumerate. rewrite Hf. reflexivity. }
    split; [exact E |]. split; [| split; assumption].
    intros. unfold recommend_segments, recommend_with, eligible_items.
    rewrite E. reflexivity.
  - destruct H as [-> Hd]. split; [reflexivity |].
    pose proof (flatten_segments_outcome lectures) as Ho.
    destruct (flatten_segments lectures) as [items | e].
    + destruct Ho as [Ho _]. congruence.
    + destruct Ho as [-> _]. reflexivity.
Qed.

(** *** Eligibility, in closed form *)

Lemma eligible_items_gate lectures completed selected flat :
  flatten_segments lectures = Ok flat ->
  eligible_items lectures completed selected
  = Ok (soft_order_gate (restrict_scope selected (exclude_completed completed flat))).
Proof.
  intros Hf. unfold eligible_items. rewrite Hf. cbn [bind].
  destruct flat as [| a flat]; [destruct selected as [[| t ts] |]; reflexivity |].
  cbn [is_empty].
  destruct (restrict_scope selected (exclude_completed completed (a :: flat))); reflexivity.
Qed.

Lemma candidate_In flat completed selected x :
  In x (restrict_scope selected (exclude_completed completed flat))
  <-> candidate flat completed selected x.
Proof.
  unfold candidate, restrict_scope.
  destruct selected as [[| t ts] |]; rewrite ?filter_In, exclude_completed_In; tauto.
Qed.

(** X12: eligibility in closed form.  When the document can be flattened,
    the eligible items are the candidates (flattened, not completed, in
    scope) whose order is at least 1 and below which every order, down to
    1, is the order of a candidate of the same lecture title. *)
Theorem eligible_items_closed_form
        lectures completed_courses selected_lectures (flat : list item) :
  flatten_segments lectures = Ok flat ->
  exists items,
    eligible_items lectures completed_courses selected_lectures = Ok items
    /\ forall x,
         In x items
         <-> candidate flat completed_courses selected_lectures x
             /\ 1 <= order x
             /\ forall j, 1 <= j < order x ->
                  exists y, candidate flat completed_courses selected_lectures y
                            /\ lecture_title y = lecture_title x /\ order y = j.
Proof.
  intros Hf. eexists. split; [apply eligible_items_gate; exact Hf |].
  intros x. rewrite soft_order_gate_iff, candidate_In.
  split; intros (H1 & H2 & H3); (split; [exact H1 |]); (split; [exact H2 |]);
    intros j Hj; destruct (H3 j Hj) as (y & Hy & Ey); exists y;
    (split; [apply candidate_In; exact Hy | exact Ey]).
Qed.

(** *** The budget window is never negative *)

Lemma int_to_float_nonnegative n x :
  0 <= n -> int_to_float n = Ok x -> nonnegative x.
Proof.
  unfold int_to_float. intros Hn.
  destruct n as [| p | p]; [| | lia]; cbn [binary_normalize].
  - intros H. injection H as <-. exact I.
  - pose proof (binary_round_nonnegative p 0) as Hr.
    destruct (binary_round prec emax false p 0); intros H; try discriminate;
      injection H as <-; exact Hr.
Qed.

Lemma fmul_nonnegative_right x m e :
  nonnegative x -> nonnegative (fmul x (S754_finite false m e)).
Proof.
  destruct x as [s | [] | | [] mx ex]; cbn [nonnegative]; intros H; try contradiction;
    try exact I.
  unfold fmul, SFmul. cbn [xorb].
  destruct (binary_round_aux_sign false (Z.pos (mx * m)) (ex + e) loc_Exact ltac:(lia))
    as [E | [E | (p & q & E)]]; rewrite E; exact I.
Qed.

Lemma truncation_nonneg (m : positive) (e : Z) :
  0 <= (if 0 <=? e then Z.pos m * 2 ^ e else Z.pos m / 2 ^ (- e)).
Proof.
  destruct (Z.leb_spec 0 e).
  - apply Z.mul_nonneg_nonneg; [lia | apply Z.pow_nonneg; lia].
  - apply Z.div_pos; [lia | apply Z.pow_pos_nonneg; lia].
Qed.

Lemma py_int_nonnegative x r : nonnegative x -> py_int x = Ok r -> 0 <= r.
Proof.
  destruct x as [s | [] | | [] m e]; cbn [nonnegative]; intros Hx H;
    try contradiction.
  - injection H as <-. lia.
  - discriminate H.
  - assert (E : r = (if 0 <=? e then Z.pos m * 2 ^ e else Z.pos m / 2 ^ (- e)))
      by (unfold py_int, apply_sign in H; congruence).
    rewrite E. apply truncation_nonneg.
Qed.

Lemma derate_nonneg u m e r :
  0 <= u -> derate u (S754_finite false m e) = Ok r -> 0 <= r.
Proof.
  unfold derate. intros Hu H. apply bind_Ok_inv in H as (x & Hx & H).
  eapply py_int_nonnegative; [| exact H].
  apply fmul_nonnegative_right. eapply int_to_float_nonnegative; eassumption.
Qed.

Lemma budget_window_bounds daily_mins fatigue_score low_u high_u :
  budget_window daily_mins fatigue_score = Ok (low_u, high_u) ->
  0 <= low_u /\ 0 <= high_u.
Proof.
  unfold budget_window. intros H.
  apply bind_Ok_inv in H as (l0 & Hl0 & H). apply bind_Ok_inv in H as (h0 & Hh0 & H).
  apply to_units_nonneg in Hl0, Hh0.
  apply bind_Ok_inv in H as ([l1 h1] & H1 & H).
  assert (B1 : 0 <= l1 /\ 0 <= h1).
  { destruct (flt f0_6 fatigue_score).
    - apply bind_Ok_inv in H1 as (l & Hl & H1). apply bind_Ok_inv in H1 as (h & Hh & H1).
      injection H1 as <- <-.
      split; [exact (derate_nonneg l0 _ _ l Hl0 Hl) | exact (derate_nonneg h0 _ _ h Hh0 Hh)].
    - injection H1 as <- <-. auto. }
  destruct B1 as [Bl Bh]. destruct (flt f0_8 fatigue_score).
  - apply bind_Ok_inv in H as (l & Hl & H). apply bind_Ok_inv in H as (h & Hh & H).
    injection H as <- <-.
    split; [exact (derate_nonneg l1 _ _ l Bl Hl) | exact (derate_nonneg h1 _ _ h Bh Hh)].
  - injection H as <- <-. auto.
Qed.

(** X13: the bounds of the budget window are never negative, whatever the
    target and the fatigue score. *)
Theorem budget_window_nonnegative (daily_mins fatigue_score : float) (low_u high_u : Z) :
  budget_window daily_mins fatigue_score = Ok (low_u, high_u) ->
  0 <= low_u /\ 0 <= high_u.
Proof. apply budget_window_bounds. Qed.

Lemma budget_window_nonnegative_witness : 0 <= 56 /\ 0 <= 77.
Proof. apply (budget_window_nonnegative f10_0 f0_9 56 77). vm_compute. reflexivity. Defined.

(** X5: when a recommendation raises [IndexError].  It does so exactly
    when there are eligible items, the window is computed, its lower bound
    in minutes is not above the available minutes, the items can be
    scaled, and [low_u] is more than one above the capacity
    [min (sum of the unit weights, high_u)]. *)
Theorem recommend_segments_index_error
        lectures daily_mins fatigue_score completed_courses selected_lectures :
  recommend_segments lectures daily_mins fatigue_score completed_courses selected_lectures
  = Raise IndexError
  <-> exists items low_u high_u low_mins scaled,
        eligible_items lectures completed_courses selected_lectures = Ok items
        /\ items <> []
        /\ budget_window daily_mins fatigue_score = Ok (low_u, high_u)
        /\ from_units low_u = Ok low_mins
        /\ flt (py_sum (map mins items)) low_mins = false
        /\ mapM scale_item items = Ok scaled
        /\ Z.min (sum_units scaled) high_u + 1 < low_u.
Proof.
  unfold recommend_segments, recommend_with. split.
  - intros H.
    destruct (eligible_items _ _ _) as [items | e] eqn:Ei; cbn [bind] in H.
    2:{ apply eligible_items_raises in Ei. congruence. }
    destruct items as [| it items]; [discriminate |]. cbn [is_empty] in H.
    destruct (budget_window _ _) as [[low_u high_u] | e] eqn:Eb; cbn [bind] in H.
    2:{ injection H as ->. destruct (budget_window_raises _ _ _ Eb); discriminate. }
    destruct (from_units low_u) as [low_mins | e] eqn:Ef; cbn [bind] in H.
    2:{ injection H as ->. pose proof (from_units_raises _ _ Ef). discriminate. }
    destruct (flt _ low_mins) eqn:Es; [discriminate |].
    destruct (mapM scale_item (it :: items)) as [scaled | e] eqn:Esc.
    2:{ unfold select_with in H. rewrite Esc in H. cbn [bind] in H. injection H as ->.
        destruct (mapM_scale_item_raises _ _ Esc); discriminate. }
    destruct (budget_window_bounds _ _ _ _ Eb) as [Hl Hh].
    exists (it :: items), low_u, high_u, low_mins, scaled.
    repeat split; try assumption; try discriminate.
    apply (select_index_error_iff (it :: items) low_u high_u scaled Esc Hh Hl).
    exact H.
  - intros (items & low_u & high_u & low_mins & scaled & Ei & Hne & Eb & Ef & Es & Esc & Hout).
    rewrite Ei. cbn [bind]. destruct items as [| it items]; [contradiction |].
    cbn [is_empty]. rewrite Eb. cbn [bind]. rewrite Ef. cbn [bind]. rewrite Es.
    destruct (budget_window_bounds _ _ _ _ Eb) as [Hl Hh].
    apply (select_index_error_iff (it :: items) low_u high_u scaled Esc Hh Hl).
    exact Hout.
Qed.

(** *** Instances *)

Lemma select_segments_largest_subset_sum_witness :
  exists chosen ws,
    select_segments four_quarter_items 40 92 = Ok (chosen, py_sum (map mins chosen))
    /\ mapM (fun c => to_units (mins c)) chosen = Ok ws
    /\ subset_sum (map fst four_quarter_scaled) (sum_list ws)
    /\ sum_list ws <= Z.min (sum_units four_quarter_scaled) 92
    /\ forall s, subset_sum (map fst four_quarter_scaled) s ->
                 s <= Z.min (sum_units four_quarter_scaled) 92 -> s <= sum_list ws.
Proof.
  apply (select_segments_largest_subset_sum four_quarter_items 40 92 four_quarter_scaled).
  - vm_compute. reflexivity.
  - lia.
  - vm_compute. split; discriminate.
Defined.

Lemma select_segments_index_error_witness :
  select_segments four_quarter_items 50 92 = Raise IndexError
  <-> Z.min (sum_units four_quarter_scaled) 92 + 1 < 50.
Proof.
  apply (select_segments_index_error four_quarter_items 50 92 four_quarter_scaled).
  - vm_compute. reflexivity.
  - lia.
  - lia.
Defined.

Lemma select_segments_ignores_low_u_witness :
  select_segments four_quarter_items 0 92 = select_segments four_quarter_items 49 92.
Proof.
  apply (select_segments_ignores_low_u four_quarter_items 0 49 92 four_quarter_scaled).
  - vm_compute. reflexivity.
  - lia.
  - vm_compute. split; discriminate.
  - vm_compute. split; discriminate.
Defined.

Lemma select_segments_within_budget_witness :
  exists positions ws,
    NoDup positions
    /\ Forall2 (fun c i => 0 <= i /\ exists it, nth_error four_quarter_items (Z.to_nat i) = Some it
                                                /\ c = chosen_record it)
               four_quarter_chosen positions
    /\ f5_0 = py_sum (map mins four_quarter_chosen)
    /\ mapM (fun c => to_units (mins c)) four_quarter_chosen = Ok ws
    /\ sum_list ws <= 92.
Proof.
  apply (select_segments_within_budget four_quarter_items 40 92 four_quarter_chosen f5_0).
  vm_compute. reflexivity.
Defined.

Lemma recommend_segments_excludes_completed_witness :
  is_completed [completed_T_a] (chosen_record (eligible_of 0 1 "T" "b" f5_0 2)) = false.
Proof.
  apply (recommend_segments_excludes_completed lectures_T f10_0 f0_0 [completed_T_a] None
           chosen_T f10_0).
  - vm_compute. reflexivity.
  - right. left. reflexivity.
Defined.

Lemma recommend_segments_within_scope_witness :
  exists title, In title ["T"%string]
                /\ lecture_title (chosen_record (eligible_of 0 1 "T" "b" f5_0 2)) = Some title.
Proof.
  apply (recommend_segments_within_scope lectures_T f10_0 f0_0 [completed_T_a] "T" []
           chosen_T f10_0).
  - vm_compute. reflexivity.
  - right. left. reflexivity.
Defined.

Lemma recommend_segments_total_witness : f10_0 = py_sum (map mins chosen_T).
Proof.
  apply (recommend_segments_total lectures_T f10_0 f0_0 [completed_T_a] None chosen_T f10_0).
  vm_compute. reflexivity.
Defined.

Lemma recommend_segments_from_document_witness :
  exists lec seg,
    In lec lectures_T /\ In seg (segments_of lec)
    /\ lecture_title (chosen_record (eligible_of 0 1 "T" "b" f5_0 2)) = dict_get (lec_title lec)
    /\ topic (chosen_record (eligible_of 0 1 "T" "b" f5_0 2)) = dict_get (seg_topic seg)
    /\ seg_mins seg = Present (mins (chosen_record (eligible_of 0 1 "T" "b" f5_0 2)))
    /\ dict_get_default (seg_order seg) 1
       = Some (order (chosen_record (eligible_of 0 1 "T" "b" f5_0 2))).
Proof.
  apply (recommend_segments_from_document lectures_T f10_0 f0_0 [completed_T_a] None
           chosen_T f10_0).
  - vm_compute. reflexivity.
  - right. left. reflexivity.
Defined.

Lemma eligible_items_closed_form_witness :
  exists items,
    eligible_items [lecture_1_3] [] None = Ok items
    /\ forall x,
         In x items
         <-> candidate [eligible_of 0 0 "L" "a" f5_0 1; eligible_of 0 1 "L" "c" f5_0 3]
                       [] None x
             /\ 1 <= order x
             /\ forall j, 1 <= j < order x ->
                  exists y, candidate [eligible_of 0 0 "L" "a" f5_0 1;
                                       eligible_of 0 1 "L" "c" f5_0 3] [] None y
                            /\ lecture_title y = lecture_title x /\ order y = j.
Proof.
  apply (eligible_items_closed_form [lecture_1_3] [] None).
  reflexivity.
Defined.
